(** * probability-optimizer: the probability/optimisation kernel

    A shallow embedding of the calculator in
    [src/components/InputForm.tsx] (the part that the repository imports
    as [utils/probabilityCalculator]): [binomialCoefficient],
    [calculateSDistribution], [calculateMaxExpectation], [calculateR],
    [calculateExpectationForP], [findOptimalP] and [sensitivityAnalysis].

    Number model.  A finite JavaScript number is a rational, and the
    arithmetic of the source ([+], [-], [*], [/], [Math.pow] with an integer
    exponent, [Math.abs], [Math.min], [Math.floor]) is taken exactly, over
    [Q]: IEEE rounding, overflow and NaN are outside this model.  Equality of
    numbers is [Qeq] (written [==]).  The only non-finite value the source
    produces on purpose, [-Infinity], is a constructor of [ereal].  The
    integer arguments [N] and [A] are in [Z].

    What the code computes is the rounded value of every operation.  The
    module [Double] repeats the kernel of the calculator on binary64
    numbers; it decides the statements that rounding decides: that
    [calculateMaxExpectation] can drop in its last place as [A] grows, that
    the loop of [findOptimalP] does not end for a tolerance below the
    spacing of the numbers it works on, and up to where
    [binomialCoefficient] is exact.  Between the two,
    [findOptimalP_rounded] and [calculateMaxExpectation_rounded] are the
    search of [findOptimalP] and the loops of [calculateMaxExpectation] in
    any arithmetic that rounds within a given error, with the exact one
    and binary64 among its instances.  The statements proved on the exact
    model are those of the formula; where they are recorded as facts of
    the code they are comparisons and values that rounding does not
    move. *)

From Stdlib Require Import QArith Qround Qminmax Qabs Qpower ZArith List Lia Lqa.
From Stdlib Require Import Permutation Sorted SetoidList SetoidPermutation Bool.
From Stdlib Require Import Factorial.
From Stdlib Require Import PrimFloat.
Import ListNotations.
Open Scope Q_scope.

(** ** Numbers *)

Definition Qlt_bool (x y : Q) : bool := negb (Qle_bool y x).

(** [Math.pow] at an integer exponent. *)
Definition Math_pow (x : Q) (n : Z) : Q := Qpower x n.

Definition Math_abs (x : Q) : Q := Qabs x.

Definition Math_min (x y : Q) : Q := Qmin x y.

Definition Math_floor (x : Q) : Z := Qfloor x.

(** A number that may be [-Infinity]: the result type of the objective. *)
Inductive ereal : Type :=
| NegInfinity : ereal
| Finite : Q -> ereal.

(** [a < b] on numbers that may be [-Infinity]. *)
Definition ereal_ltb (a b : ereal) : bool :=
  match a, b with
  | _, NegInfinity => false
  | NegInfinity, Finite _ => true
  | Finite x, Finite y => Qlt_bool x y
  end.

(** [e !== -Infinity]. *)
Definition is_finite (e : ereal) : bool :=
  match e with
  | NegInfinity => false
  | Finite _ => true
  end.

(** [for (let i = 0; i < count; i++)]: the values the index takes. *)
Definition indices (count : nat) : list Z := map Z.of_nat (seq 0 count).

(** ** [Map<number, number>]

    Entries in insertion order; keys are compared by numeric equality. *)
Module JsMap.

Definition t : Type := list (Q * Q).

Definition empty : t := [].

(** [m.set(k, v)]: overwrite the entry of [k] in place, or append. *)
Fixpoint set (k v : Q) (m : t) : t :=
  match m with
  | [] => [(k, v)]
  | (k', v') :: rest =>
      if Qeq_bool k' k then (k', v) :: rest else (k', v') :: set k v rest
  end.

(** [m.get(k)], [None] for [undefined]. *)
Fixpoint get (k : Q) (m : t) : option Q :=
  match m with
  | [] => None
  | (k', v') :: rest => if Qeq_bool k' k then Some v' else get k rest
  end.

(** [m.get(k)!] where the source knows the key is present. *)
Definition get_nn (k : Q) (m : t) : Q :=
  match get k m with
  | Some v => v
  | None => 0
  end.

(** [Array.from(m.keys())]. *)
Definition keys (m : t) : list Q := map fst m.

(** No two entries have the same key: what every [Map] satisfies. *)
Definition wf (m : t) : Prop := NoDupA Qeq (keys m).

(** The total mass of a distribution. *)
Definition total (m : t) : Q := fold_right (fun e acc => snd e + acc) 0 m.

(** The same entries in the same order, as numbers. *)
Definition same_entries (m m' : t) : Prop :=
  Forall2 (fun e e' => fst e == fst e' /\ snd e == snd e') m m'.

End JsMap.

(** [xs.sort((a, b) => a - b)]: a stable ascending sort. *)
Fixpoint sort_insert (x : Q) (l : list Q) : list Q :=
  match l with
  | [] => [x]
  | y :: rest => if Qle_bool x y then x :: y :: rest else y :: sort_insert x rest
  end.

Definition sort_ascending (l : list Q) : list Q := fold_right sort_insert [] l.

(** ** The calculator *)

(** [binomialCoefficient]: the loop [for (i = 0; i < k; i++)]. *)
Definition binomial_loop (n : Z) (k : nat) : Q :=
  fold_left (fun result i => (result * inject_Z (n - i)) / inject_Z (i + 1))
            (indices k) 1.

Definition binomialCoefficient (n k : Z) : Q :=
  if ((k <? 0) || (k >? n))%Z then 0
  else if ((k =? 0) || (k =? n))%Z then 1
  else binomial_loop n (Z.to_nat k).

(** The entry that iteration [k] of [calculateSDistribution] sets. *)
Definition binomial_entry (N : Z) (p r : Q) (k : Z) : Q * Q :=
  (inject_Z N + inject_Z k * (r - 1),
   binomialCoefficient N k * Math_pow p k * Math_pow (1 - p) (N - k)).

Definition calculateSDistribution (N : Z) (p r : Q) : JsMap.t :=
  if Qlt_bool (Math_abs (r - 1)) (1 # 10000000000) then
    JsMap.set (inject_Z N) 1 JsMap.empty
  else if Qeq_bool p 0 then
    JsMap.set (inject_Z N) 1 JsMap.empty
  else if Qeq_bool p 1 then
    JsMap.set (inject_Z N * r) 1 JsMap.empty
  else
    fold_left (fun distribution k =>
                 let e := binomial_entry N p r k in
                 JsMap.set (fst e) (snd e) distribution)
              (indices (Z.to_nat (N + 1))) JsMap.empty.

(** Body of the first loop of [calculateMaxExpectation], on the state
    [(cdf, cumulative)]. *)
Definition cdf_body (sDistribution : JsMap.t) (st : JsMap.t * Q) (value : Q)
  : JsMap.t * Q :=
  let cumulative := snd st + JsMap.get_nn value sDistribution in
  (JsMap.set value cumulative (fst st), cumulative).

Definition cdf_loop (sDistribution : JsMap.t) (sortedValues : list Q)
  : JsMap.t * Q :=
  fold_left (cdf_body sDistribution) sortedValues (JsMap.empty, 0).

(** Body of the second loop, on the state [(expectation, prevCdf)]. *)
Definition expectation_body (cdf : JsMap.t) (A : Z) (st : Q * Q) (value : Q)
  : Q * Q :=
  let currentCdf := JsMap.get_nn value cdf in
  let probMaxEqualsValue := Math_pow currentCdf A - Math_pow (snd st) A in
  (fst st + value * probMaxEqualsValue, currentCdf).

Definition expectation_loop (cdf : JsMap.t) (A : Z) (sortedValues : list Q)
  : Q * Q :=
  fold_left (expectation_body cdf A) sortedValues (0, 0).

Definition calculateMaxExpectation (sDistribution : JsMap.t) (A : Z) : Q :=
  let sortedValues := sort_ascending (JsMap.keys sDistribution) in
  match sortedValues with
  | [v] => v
  | _ =>
      let cdf := fst (cdf_loop sDistribution sortedValues) in
      fst (expectation_loop cdf A sortedValues)
  end.

Definition calculateR (p C : Q) : Q := C - 2 * p.

Definition calculateExpectationForP (p : Q) (N A : Z) (C : Q) : ereal :=
  let r := calculateR p C in
  if Qlt_bool r 1 then NegInfinity
  else Finite (calculateMaxExpectation (calculateSDistribution N p r) A).

Record OptimizationResult : Type := mkResult {
  optimalP : Q;
  optimalR : Q;
  maxExpectation : ereal
}.

(** One iteration of the ternary search: the body of the [while] loop of
    [findOptimalP], from [(left, right)] to the next interval. *)
Definition ternary_step (N A : Z) (C left right : Q) : Q * Q :=
  let mid1 := left + (right - left) / 3 in
  let mid2 := right - (right - left) / 3 in
  let expectation1 := calculateExpectationForP mid1 N A C in
  let expectation2 := calculateExpectationForP mid2 N A C in
  if ereal_ltb expectation1 expectation2 then (mid1, right) else (left, mid2).

(** The [while (right - left > tolerance)] loop of [findOptimalP].  [fuel]
    bounds the number of iterations; [None] when it does not suffice. *)
Fixpoint ternary_search (fuel : nat) (N A : Z) (C tolerance left right : Q)
  : option (Q * Q) :=
  if Qlt_bool tolerance (right - left) then
    match fuel with
    | O => None
    | S fuel' =>
        let next := ternary_step N A C left right in
        ternary_search fuel' N A C tolerance (fst next) (snd next)
    end
  else Some (left, right).

(** The number of calls of [calculateExpectationForP] that the loop makes:
    two in each iteration.  It follows the control flow of
    [ternary_search]. *)
Fixpoint ternary_evaluations (fuel : nat) (N A : Z)
         (C tolerance left right : Q) : option nat :=
  if Qlt_bool tolerance (right - left) then
    match fuel with
    | O => None
    | S fuel' =>
        let next := ternary_step N A C left right in
        option_map (fun n => (2 + n)%nat)
          (ternary_evaluations fuel' N A C tolerance (fst next) (snd next))
    end
  else Some O.

Definition findOptimalP (fuel : nat) (N A : Z) (C tolerance : Q)
  : option OptimizationResult :=
  if Qlt_bool C 1 then
    Some (mkResult 0 1 (Finite (inject_Z N)))
  else
    match ternary_search fuel N A C tolerance 0 (Math_min 1 ((C - 1) / 2)) with
    | None => None
    | Some interval =>
        let left := fst interval in
        let right := snd interval in
        let optimalP := (left + right) / 2 in
        let maxExpectation := calculateExpectationForP optimalP N A C in
        let optimalR := calculateR optimalP C in
        Some (mkResult optimalP optimalR maxExpectation)
    end.

(** The number of calls of [calculateExpectationForP] in one call of
    [findOptimalP]: those of the loop and the one after it. *)
Definition findOptimalP_evaluations (fuel : nat) (N A : Z) (C tolerance : Q)
  : option nat :=
  if Qlt_bool C 1 then Some O
  else
    option_map S
      (ternary_evaluations fuel N A C tolerance 0 (Math_min 1 ((C - 1) / 2))).

(** [findOptimalP(N, A, C, tolerance)] returns [res]. *)
Definition findOptimalP_returns (N A : Z) (C tolerance : Q)
           (res : OptimizationResult) : Prop :=
  exists fuel, findOptimalP fuel N A C tolerance = Some res.

Record SensitivityPoint : Type := mkPoint {
  pt_p : Q;
  pt_r : Q;
  pt_expectation : ereal
}.

(** [results.push(x)] when [expectation !== -Infinity]. *)
Definition push_if_finite (results : list SensitivityPoint) (p r : Q)
           (expectation : ereal) : list SensitivityPoint :=
  if is_finite expectation then results ++ [mkPoint p r expectation]
  else results.

(** The body of the grid loop of [sensitivityAnalysis] at index [i]. *)
Definition grid_step (N A : Z) (C step maxP : Q)
           (results : list SensitivityPoint) (i : Z) : list SensitivityPoint :=
  let p := inject_Z i * step in
  let p := if Qlt_bool maxP p then maxP else p in
  let r := calculateR p C in
  let expectation := calculateExpectationForP p N A C in
  push_if_finite results p r expectation.

(** [step] is not 0 here: [maxP / 0] is not a finite number. *)
Definition sensitivityAnalysis (N A : Z) (C step : Q) : list SensitivityPoint :=
  if Qlt_bool C 1 then
    [mkPoint 0 1 (Finite (inject_Z N))]
  else
    let maxP := Math_min 1 ((C - 1) / 2) in
    let numSteps := Math_floor (maxP / step) in
    let results :=
      fold_left (grid_step N A C step maxP)
                (indices (Z.to_nat (numSteps + 1))) [] in
    let lastP := inject_Z numSteps * step in
    if Qlt_bool lastP maxP then
      push_if_finite results maxP (calculateR maxP C)
                     (calculateExpectationForP maxP N A C)
    else results.


(** A number of iterations that suffices for an interval no wider than 1:
    twice the binary logarithm of [1 / tolerance], rounded up. *)
Definition iteration_bound (tolerance : Q) : nat :=
  (2 * Z.to_nat (Z.log2_up (Qceiling (1 / tolerance))))%nat.

(** ** The formula of the specification

    Values [v_1 < ... < v_m] with masses [pi_1 .. pi_m], here as two lists
    indexed from 0: [spec_F masses i] is the cumulative sum [F_i] of the first
    [i] masses ([F_0 = 0]), and the expectation of the maximum of [A] draws
    is the sum of [v_i * (F_i ^ A - F_(i-1) ^ A)]. *)

Definition sum_list (l : list Q) : Q := fold_right Qplus 0 l.

Definition spec_F (masses : list Q) (i : nat) : Q := sum_list (firstn i masses).

Definition spec_expectedMax (values masses : list Q) (A : Z) : Q :=
  sum_list
    (map (fun i => nth i values 0 *
                   (spec_F masses (S i) ^ A - spec_F masses i ^ A))
         (seq 0 (length values))).

(** The entries of a map in ascending order of their values. *)
Definition ascending (entries : list (Q * Q)) : Prop :=
  StronglySorted (fun e e' => fst e < fst e') entries.

(** ** Closed forms of the two loops of [calculateMaxExpectation]

    [g] is the mass of a value; [c] the cumulative mass so far. *)

Fixpoint cumulative_entries (g : Q -> Q) (c : Q) (vs : list Q) : JsMap.t :=
  match vs with
  | [] => []
  | v :: rest => (v, c + g v) :: cumulative_entries g (c + g v) rest
  end.

Fixpoint weighted (g : Q -> Q) (A : Z) (c : Q) (vs : list Q) : Q :=
  match vs with
  | [] => 0
  | v :: rest =>
      v * (Math_pow (c + g v) A - Math_pow c A) + weighted g A (c + g v) rest
  end.

(** The point that [sensitivityAnalysis] records at [p]. *)
Definition point_at (N A : Z) (C p : Q) : SensitivityPoint :=
  mkPoint p (calculateR p C) (calculateExpectationForP p N A C).

(** [p] clamped to [maxP]. *)
Definition clamp (maxP p : Q) : Q := if Qlt_bool maxP p then maxP else p.

(** ** Factorials, for the statements on the binomial coefficients *)

(** [n!] as a number. *)
Definition qfact (n : nat) : Q := inject_Z (Z.of_nat (fact n)).

(** ** [ChartDisplay.tsx]: the marker of the optimum *)

(** The callback of [forEach] in [findClosestIndex], on the state
    [(minDistance, closestIndex)]; [None] is the initial [Infinity]. *)
Definition closest_body (targetP : Q) (st : option Q * nat)
           (d : SensitivityPoint) (index : nat) : option Q * nat :=
  let distance := Math_abs (pt_p d - targetP) in
  let smaller :=
    match fst st with
    | None => true
    | Some minDistance => Qlt_bool distance minDistance
    end in
  if smaller then (Some distance, index) else st.

(** [xs.forEach((d, index) => ...)], from [index] on. *)
Fixpoint forEach_from {T : Type} (body : T -> SensitivityPoint -> nat -> T)
         (xs : list SensitivityPoint) (index : nat) (st : T) : T :=
  match xs with
  | [] => st
  | d :: rest => forEach_from body rest (S index) (body st d index)
  end.

Definition findClosestIndex (sensitivityData : list SensitivityPoint)
           (targetP : Q) : nat :=
  snd (forEach_from (closest_body targetP) sensitivityData O (None, O)).

(** [|d.p - targetP|] at index [j]. *)
Definition distance_at (sensitivityData : list SensitivityPoint)
           (targetP : Q) (j : nat) : Q :=
  Math_abs (pt_p (nth j sensitivityData (mkPoint 0 0 NegInfinity)) - targetP).

(** ** [InputForm.tsx] and [App.tsx]: the parameters and the calculation *)

Record InputParameters : Type := mkParameters {
  param_p : Q;
  param_r : Q;
  param_N : Q;
  param_A : Q
}.

Definition Number_isInteger (x : Q) : bool := Qeq_bool (inject_Z (Qfloor x)) x.

(** [isValid] of [InputForm], and the same test [isValidParameters] of
    [performCalculation]. *)
Definition isValid (parameters : InputParameters) : bool :=
  Qle_bool 0 (param_p parameters) &&
  Qle_bool (param_p parameters) 1 &&
  Qlt_bool 0 (param_r parameters) &&
  Qle_bool 1 (param_N parameters) &&
  Qle_bool (param_N parameters) 100 &&
  Qle_bool 1 (param_A parameters) &&
  Qle_bool (param_A parameters) 100 &&
  Number_isInteger (param_N parameters) &&
  Number_isInteger (param_A parameters).

Definition Math_max (x y : Q) : Q := Qmax x y.

(** The default [tolerance = 0.00001] of [findOptimalP] and the default
    [step = 0.01] of [sensitivityAnalysis]. *)
Definition default_tolerance : Q := 1 # 100000.
Definition default_step : Q := 1 # 100.

Record CalculationResult : Type := mkCalculation {
  cr_optimalP : Q;
  cr_optimalR : Q;
  cr_maxExpectation : ereal;
  cr_constraintC : Q
}.

Record VaryingAPoint : Type := mkVaryingA {
  va_A : Z;
  va_optimalP : Q;
  va_expectation : ereal
}.

Record VaryingCPoint : Type := mkVaryingC {
  vc_C : Q;
  vc_optimalP : Q;
  vc_optimalR : Q;
  vc_expectation : ereal
}.

Record ChartData : Type := mkChart {
  sensitivityData : list SensitivityPoint;
  optimalPoint : SensitivityPoint;
  baseA : Z;
  varyingAData : list VaryingAPoint;
  varyingCData : list VaryingCPoint
}.

(** [for (let A = minA; A <= maxA; A += stepA)], over the values [As] that
    [A] takes.  [fuel] is the fuel of each call of [findOptimalP]. *)
Fixpoint varyingA_loop (fuel : nat) (N : Z) (C : Q) (As : list Z)
         (varyingA : list VaryingAPoint) : option (list VaryingAPoint) :=
  match As with
  | [] => Some varyingA
  | A :: rest =>
      match findOptimalP fuel N A C default_tolerance with
      | None => None
      | Some optimalForA =>
          varyingA_loop fuel N C rest
            (varyingA ++ [mkVaryingA A (optimalP optimalForA)
                                     (maxExpectation optimalForA)])
      end
  end.

(** [for (let currentC = minC; currentC <= maxC; currentC += stepC)];
    [iterations] bounds the number of iterations. *)
Fixpoint varyingC_loop (iterations fuel : nat) (N A : Z)
         (maxC stepC currentC : Q) (varyingC : list VaryingCPoint)
  : option (list VaryingCPoint) :=
  if Qle_bool currentC maxC then
    match iterations with
    | O => None
    | S iterations' =>
        match findOptimalP fuel N A currentC default_tolerance with
        | None => None
        | Some optimalForC =>
            varyingC_loop iterations' fuel N A maxC stepC (currentC + stepC)
              (varyingC ++ [mkVaryingC currentC (optimalP optimalForC)
                                       (optimalR optimalForC)
                                       (maxExpectation optimalForC)])
        end
    end
  else Some varyingC.

(** The range of the sweep over [C]. *)
Definition sweep_minC (baseC : Q) : Q :=
  Math_max (1 # 10) (Math_min (baseC - 1) (baseC * (1 # 2))).

Definition sweep_maxC (baseC : Q) : Q :=
  Math_max (baseC + 1) (baseC * (3 # 2)).

Definition sweep_stepC (baseC : Q) : Q :=
  (sweep_maxC baseC - sweep_minC baseC) / 50.

(** What a call of [performCalculation] does: nothing (the early
    [return]), or the values it passes to [setResult] and
    [setChartData]. *)
Inductive outcome : Type :=
| Skipped : outcome
| OutOfFuel : outcome
| Calculated : CalculationResult -> ChartData -> outcome.

(** [N] and [A] are integers where they are used ([isValid]). *)
Definition performCalculation (fuel : nat) (parameters : InputParameters)
  : outcome :=
  if negb (isValid parameters) then Skipped
  else
    let N := Qfloor (param_N parameters) in
    let A := Qfloor (param_A parameters) in
    let C := 2 * param_p parameters + param_r parameters in
    match findOptimalP fuel N A C default_tolerance with
    | None => OutOfFuel
    | Some optimal =>
        let calculationResult :=
          mkCalculation (optimalP optimal) (optimalR optimal)
                        (maxExpectation optimal) C in
        let sensitivity := sensitivityAnalysis N A C default_step in
        let baseA := A in
        let minA := 1%Z in
        let maxA := (baseA * 2)%Z in
        match varyingA_loop fuel N C
                (map (fun i => (minA + i)%Z)
                     (indices (Z.to_nat (maxA - minA + 1)))) [] with
        | None => OutOfFuel
        | Some varyingA =>
            let baseC := C in
            let minC := sweep_minC baseC in
            let maxC := sweep_maxC baseC in
            let stepC := sweep_stepC baseC in
            match varyingC_loop fuel fuel N A maxC stepC minC [] with
            | None => OutOfFuel
            | Some varyingC =>
                Calculated calculationResult
                  (mkChart sensitivity
                           (mkPoint (optimalP optimal) (optimalR optimal)
                                    (maxExpectation optimal))
                           A varyingA varyingC)
            end
        end
    end.

(** An entry of the sweep over [A] holds what [findOptimalP] returns for its
    [A]. *)
Definition varyingA_entry (N : Z) (C : Q) (pt : VaryingAPoint) : Prop :=
  exists res,
    findOptimalP_returns N (va_A pt) C default_tolerance res /\
    va_optimalP pt = optimalP res /\ va_expectation pt = maxExpectation res.

(** An entry of the sweep over [C] holds what [findOptimalP] returns for its
    [C]. *)
Definition varyingC_entry (N A : Z) (pt : VaryingCPoint) : Prop :=
  exists res,
    findOptimalP_returns N A (vc_C pt) default_tolerance res /\
    vc_optimalP pt = optimalP res /\ vc_optimalR pt = optimalR res /\
    vc_expectation pt = maxExpectation res.

(** ** The search in a rounding arithmetic

    The loop of [findOptimalP] once more, for an arithmetic that rounds:
    every [+], [-], [*] and [/] of the source is followed by [rnd], the
    rounding of its exact result, and [objective] is whatever function of
    [p] the arithmetic makes of [calculateExpectationForP(p, N, A, C)].
    With the identity for [rnd] and [calculateExpectationForP] itself for
    the objective this is [findOptimalP].  The number of objective
    evaluations made so far is threaded through the loop: every call adds
    one. *)

Section Rounded.

Variable rnd : Q -> Q.
Variable objective : Q -> ereal.

(** One evaluation of the objective, counted. *)
Definition counted_objective (p : Q) (evaluations : nat) : ereal * nat :=
  (objective p, S evaluations).

Definition ternary_step_rounded (left right : Q) (evaluations : nat)
  : (Q * Q) * nat :=
  let mid1 := rnd (left + rnd (rnd (right - left) / 3)) in
  let mid2 := rnd (right - rnd (rnd (right - left) / 3)) in
  let e1 := counted_objective mid1 evaluations in
  let e2 := counted_objective mid2 (snd e1) in
  if ereal_ltb (fst e1) (fst e2) then ((mid1, right), snd e2)
  else ((left, mid2), snd e2).

Fixpoint ternary_search_rounded (fuel : nat) (tolerance left right : Q)
         (evaluations : nat) : option ((Q * Q) * nat) :=
  if Qlt_bool tolerance (rnd (right - left)) then
    match fuel with
    | O => None
    | S fuel' =>
        let next := ternary_step_rounded left right evaluations in
        ternary_search_rounded fuel' tolerance
                               (fst (fst next)) (snd (fst next)) (snd next)
    end
  else Some ((left, right), evaluations).

Definition findOptimalP_rounded (fuel : nat) (N : Z) (C tolerance : Q)
  : option (OptimizationResult * nat) :=
  if Qlt_bool C 1 then
    Some (mkResult 0 1 (Finite (inject_Z N)), O)
  else
    match ternary_search_rounded fuel tolerance
                                 0 (Math_min 1 (rnd (rnd (C - 1) / 2))) O with
    | None => None
    | Some found =>
        let left := fst (fst found) in
        let right := snd (fst found) in
        let optimalP := rnd (rnd (left + right) / 2) in
        let e := counted_objective optimalP (snd found) in
        let optimalR := rnd (C - rnd (2 * optimalP)) in
        Some (mkResult optimalP optimalR (fst e), snd e)
    end.

End Rounded.

(** A number of iterations that suffices in a rounding arithmetic, where an
    iteration takes the width to at most [3/4] of it: three times the binary
    logarithm of [2 / tolerance], rounded up. *)
Definition iteration_bound_rounded (tolerance : Q) : nat :=
  (3 * Z.to_nat (Z.log2_up (Qceiling (2 / tolerance))))%nat.

(** An arithmetic of ten binary places: rounding to the nearest multiple of
    [2^-10]. *)
Definition round_to_1024 (x : Q) : Q :=
  inject_Z (Qfloor (x * 1024 + (1 # 2))) / 1024.

(** ** [calculateMaxExpectation] in a rounding arithmetic

    The two loops of [calculateMaxExpectation] once more, with [rnd] after
    every [+], [-] and [*] and with [pow_r] for what the arithmetic makes of
    [Math.pow].  With the identity for [rnd] and [Math_pow] for [pow_r] this
    is [calculateMaxExpectation]. *)

Section RoundedExpectation.

Variable rnd : Q -> Q.
Variable pow_r : Q -> Z -> Q.

(** Body of the first loop: [cumulative += sDistribution.get(value) || 0]. *)
Definition cdf_body_rounded (sDistribution : JsMap.t) (st : JsMap.t * Q)
           (value : Q) : JsMap.t * Q :=
  let cumulative := rnd (snd st + JsMap.get_nn value sDistribution) in
  (JsMap.set value cumulative (fst st), cumulative).

(** Body of the second loop: a subtraction, a product and an addition, each
    rounded. *)
Definition expectation_body_rounded (cdf : JsMap.t) (A : Z) (st : Q * Q)
           (value : Q) : Q * Q :=
  let currentCdf := JsMap.get_nn value cdf in
  let probMaxEqualsValue := rnd (pow_r currentCdf A - pow_r (snd st) A) in
  (rnd (fst st + rnd (value * probMaxEqualsValue)), currentCdf).

Definition calculateMaxExpectation_rounded (sDistribution : JsMap.t) (A : Z)
  : Q :=
  let sortedValues := sort_ascending (JsMap.keys sDistribution) in
  match sortedValues with
  | [v] => v
  | _ =>
      let cdf :=
        fst (fold_left (cdf_body_rounded sDistribution) sortedValues
                       (JsMap.empty, 0)) in
      fst (fold_left (expectation_body_rounded cdf A) sortedValues (0, 0))
  end.

(** Closed forms of the two loops, as [cumulative_entries] and [weighted]
    are for the exact ones; [e] is the expectation so far. *)
Fixpoint cumulative_entries_rounded (g : Q -> Q) (c : Q) (vs : list Q)
  : JsMap.t :=
  match vs with
  | [] => []
  | v :: rest =>
      (v, rnd (c + g v)) :: cumulative_entries_rounded g (rnd (c + g v)) rest
  end.

Fixpoint weighted_rounded (g : Q -> Q) (A : Z) (c e : Q) (vs : list Q) : Q :=
  match vs with
  | [] => e
  | v :: rest =>
      let c' := rnd (c + g v) in
      let prob := rnd (pow_r c' A - pow_r c A) in
      weighted_rounded g A c' (rnd (e + rnd (v * prob))) rest
  end.

End RoundedExpectation.

(** A Lipschitz constant of [x ^ A] on [[0, 2]]. *)
Definition pow_lipschitz (A : Z) : Q := inject_Z A * Math_pow 2 (A - 1).

(** The error of one rounded [probMaxEqualsValue], for [n] values: one
    rounding, and two powers each taken with error [eps_p] at a cumulative
    mass that is off by at most [n * eps]. *)
Definition step_error (eps eps_p : Q) (n : nat) (A : Z) : Q :=
  eps + 2 * (eps_p + pow_lipschitz A * (inject_Z (Z.of_nat n) * eps)).

(** The error of the rounded result, for [n] values of absolute value at
    most [V]: per value, [V] times the error of the probability and two
    more roundings. *)
Definition expectation_error (eps eps_p V : Q) (n : nat) (A : Z) : Q :=
  inject_Z (Z.of_nat n) * (V * step_error eps eps_p n A + 2 * eps).

(** ** The calculator on binary64 numbers

    The definitions above take the arithmetic of the source exactly.  At run
    time a JavaScript number is an IEEE 754 binary64 value, and every
    operation rounds to nearest, ties to even.  [Double] repeats the
    calculator on the primitive binary64 numbers of Rocq, whose [+], [-],
    [*], [/], [abs] and comparisons are the operations of the source.
    [Math.pow] is the one operation that ECMAScript leaves
    implementation-approximated: it is the parameter [pow] of the functions
    that call it, and a statement about a run says what it needs of it.
    Integer arguments and loop indices stay in [Z] and are converted by
    [of_Z], which is exact below [2^53]. *)

#[local] Set Warnings "-inexact-float".

Module Double.

Local Open Scope float_scope.

Fixpoint of_positive (n : positive) : float :=
  match n with
  | xH => 1
  | xO m => 2 * of_positive m
  | xI m => 2 * of_positive m + 1
  end.

(** The binary64 number of an integer. *)
Definition of_Z (n : Z) : float :=
  match n with
  | Z0 => 0
  | Zpos m => of_positive m
  | Zneg m => - of_positive m
  end.

Definition Math_abs (x : float) : float := abs x.

(** [Math.min]: NaN if an argument is NaN, and [-0] below [+0]. *)
Definition Math_min (x y : float) : float :=
  if is_nan x || is_nan y then nan
  else if x <? y then x
  else if y <? x then y
  else if get_sign x then x else y.

(** [Math.max]: NaN if an argument is NaN, and [+0] above [-0]. *)
Definition Math_max (x y : float) : float :=
  if is_nan x || is_nan y then nan
  else if y <? x then x
  else if x <? y then y
  else if get_sign x then y else x.

(** An instance of [Math.pow] for the runs below, which raise to the
    exponents 0, 1 and 2 only: [x^0 = 1] (ECMAScript fixes it), [x^1 = x],
    and [x^2] as the product [x * x].  Where the square is a binary64
    number, as it is in these runs, the product is the power itself, which
    is what an engine returns; elsewhere an engine may differ from the
    product in the last place.  Other exponents are outside of it (NaN).
    The lemmas on these runs hold for every [pow] that agrees with it on
    the arguments of the run. *)
Definition Math_pow (x y : float) : float :=
  if y =? 0 then 1
  else if y =? 1 then x
  else if y =? 2 then x * x
  else nan.

(** The key comparison of [Map]: SameValueZero. *)
Definition same_value_zero (x y : float) : bool :=
  (x =? y) || (is_nan x && is_nan y).

(** [Map<number, number>], entries in insertion order. *)
Definition map_t : Type := list (float * float).

(** [m.set(k, v)]: overwrite the entry of [k] in place, or append; the key
    [-0] is stored as [+0]. *)
Fixpoint set (k v : float) (m : map_t) : map_t :=
  match m with
  | [] => [(if k =? 0 then 0 else k, v)]
  | (k', v') :: rest =>
      if same_value_zero k' k then (k', v) :: rest else (k', v') :: set k v rest
  end.

Fixpoint get (k : float) (m : map_t) : option float :=
  match m with
  | [] => None
  | (k', v') :: rest => if same_value_zero k' k then Some v' else get k rest
  end.

(** [m.get(k)!]; arithmetic on [undefined] gives NaN. *)
Definition get_nn (k : float) (m : map_t) : float :=
  match get k m with
  | Some v => v
  | None => nan
  end.

Definition keys (m : map_t) : list float := map fst m.

(** [xs.sort((a, b) => a - b)]: stable, an element passes another one only
    where the comparator is negative. *)
Fixpoint sort_insert (x : float) (l : list float) : list float :=
  match l with
  | [] => [x]
  | y :: rest => if y - x <? 0 then y :: sort_insert x rest else x :: y :: rest
  end.

Definition sort_ascending (l : list float) : list float :=
  fold_right sort_insert [] l.

Definition binomialCoefficient (n k : Z) : float :=
  if ((k <? 0) || (k >? n))%Z then 0
  else if ((k =? 0) || (k =? n))%Z then 1
  else fold_left (fun result i => (result * (of_Z n - of_Z i)) / (of_Z i + 1))
                 (indices (Z.to_nat k)) 1.

(** The range of the sweep over [C] in [performCalculation], and the values
    that [currentC] takes in
    [for (currentC = minC; currentC <= maxC; currentC += stepC)]. *)
Definition sweep_minC (baseC : float) : float :=
  Math_max 0.1 (Math_min (baseC - 1) (baseC * 0.5)).

Definition sweep_maxC (baseC : float) : float :=
  Math_max (baseC + 1) (baseC * 1.5).

Definition sweep_stepC (baseC : float) : float :=
  (sweep_maxC baseC - sweep_minC baseC) / 50.

Fixpoint sweep_values (fuel : nat) (maxC stepC currentC : float)
  : list float :=
  match fuel with
  | O => []
  | S fuel' =>
      if currentC <=? maxC
      then currentC :: sweep_values fuel' maxC stepC (currentC + stepC)
      else []
  end.

Section Engine.

Variable pow : float -> float -> float.

Definition binomial_entry (N : Z) (p r : float) (k : Z) : float * float :=
  (of_Z N + of_Z k * (r - 1),
   binomialCoefficient N k * pow p (of_Z k) * pow (1 - p) (of_Z N - of_Z k)).

Definition calculateSDistribution (N : Z) (p r : float) : map_t :=
  if Math_abs (r - 1) <? 1e-10 then set (of_Z N) 1 []
  else if p =? 0 then set (of_Z N) 1 []
  else if p =? 1 then set (of_Z N * r) 1 []
  else
    fold_left (fun distribution k =>
                 let e := binomial_entry N p r k in
                 set (fst e) (snd e) distribution)
              (indices (Z.to_nat (N + 1))) [].

Definition cdf_body (sDistribution : map_t) (st : map_t * float)
           (value : float) : map_t * float :=
  let cumulative := snd st + get_nn value sDistribution in
  (set value cumulative (fst st), cumulative).

Definition expectation_body (cdf : map_t) (A : Z) (st : float * float)
           (value : float) : float * float :=
  let currentCdf := get_nn value cdf in
  let probMaxEqualsValue := pow currentCdf (of_Z A) - pow (snd st) (of_Z A) in
  (fst st + value * probMaxEqualsValue, currentCdf).

Definition calculateMaxExpectation (sDistribution : map_t) (A : Z) : float :=
  let sortedValues := sort_ascending (keys sDistribution) in
  match sortedValues with
  | [v] => v
  | _ =>
      let cdf := fst (fold_left (cdf_body sDistribution) sortedValues ([], 0)) in
      fst (fold_left (expectation_body cdf A) sortedValues (0, 0))
  end.

Definition calculateR (p C : float) : float := C - 2 * p.

Definition calculateExpectationForP (p : float) (N A : Z) (C : float) : float :=
  let r := calculateR p C in
  if r <? 1 then neg_infinity
  else calculateMaxExpectation (calculateSDistribution N p r) A.

Record OptimizationResult : Type := mkResult {
  optimalP : float;
  optimalR : float;
  maxExpectation : float
}.

(** The body of the [while] loop of [findOptimalP]. *)
Definition ternary_step (N A : Z) (C left right : float) : float * float :=
  let mid1 := left + (right - left) / 3 in
  let mid2 := right - (right - left) / 3 in
  let expectation1 := calculateExpectationForP mid1 N A C in
  let expectation2 := calculateExpectationForP mid2 N A C in
  if expectation1 <? expectation2 then (mid1, right) else (left, mid2).

(** The loop [while (right - left > tolerance)], with [fuel] for its
    iterations; [None] when the fuel does not suffice. *)
Fixpoint ternary_search (fuel : nat) (N A : Z) (C tolerance left right : float)
  : option (float * float) :=
  if tolerance <? right - left then
    match fuel with
    | O => None
    | S fuel' =>
        let next := ternary_step N A C left right in
        ternary_search fuel' N A C tolerance (fst next) (snd next)
    end
  else Some (left, right).

Definition findOptimalP (fuel : nat) (N A : Z) (C tolerance : float)
  : option OptimizationResult :=
  if C <? 1 then Some (mkResult 0 1 (of_Z N))
  else
    match ternary_search fuel N A C tolerance 0 (Math_min 1 ((C - 1) / 2)) with
    | None => None
    | Some interval =>
        let left := fst interval in
        let right := snd interval in
        let optimalP := (left + right) / 2 in
        let maxExpectation := calculateExpectationForP optimalP N A C in
        let optimalR := calculateR optimalP C in
        Some (mkResult optimalP optimalR maxExpectation)
    end.

(** The call never returns: no number of iterations is enough. *)
Definition findOptimalP_diverges (N A : Z) (C tolerance : float) : Prop :=
  forall fuel, findOptimalP fuel N A C tolerance = None.

(** The interval after [n] iterations of the loop body. *)
Fixpoint ternary_iterate (n : nat) (N A : Z) (C left right : float)
  : float * float :=
  match n with
  | O => (left, right)
  | S m =>
      let next := ternary_step N A C left right in
      ternary_iterate m N A C (fst next) (snd next)
  end.

(** The loop condition holds at the start and after each of the first [n]
    iterations. *)
Fixpoint loop_continues (n : nat) (N A : Z) (C tolerance left right : float)
  : bool :=
  (tolerance <? right - left)
  && match n with
     | O => true
     | S m =>
         let next := ternary_step N A C left right in
         loop_continues m N A C tolerance (fst next) (snd next)
     end.

End Engine.

End Double.

(** The binomial coefficient as an integer, from the factorials. *)
Fixpoint zfact (n : nat) : Z :=
  match n with
  | O => 1
  | S m => Z.of_nat (S m) * zfact m
  end.

Definition binomial_number (n k : nat) : Z :=
  (zfact n / (zfact k * zfact (n - k)))%Z.

(** * Properties *)

(** ** The model at work *)

Example binomialCoefficient_5_2 : binomialCoefficient 5 2 == 10.
Proof. reflexivity. Qed.

Example binomialCoefficient_out_of_range :
  binomialCoefficient 3 4 = 0 /\ binomialCoefficient 3 (-1) = 0.
Proof. split; reflexivity. Qed.

Example set_overwrites_in_place :
  JsMap.set 2 (1 # 3) [(1, 1 # 2); (4 # 2, 1 # 2)] = [(1, 1 # 2); (4 # 2, 1 # 3)].
Proof. reflexivity. Qed.

Example sort_ascending_example :
  sort_ascending [4; 2; 6; 1 # 2] = [1 # 2; 2; 4; 6].
Proof. reflexivity. Qed.

(** The maximum of two draws of [{2: 0.25, 4: 0.5, 6: 0.25}] has expectation
    [2 * 1/16 + 4 * 8/16 + 6 * 7/16 = 4.75]. *)
Example calculateMaxExpectation_two_draws :
  calculateMaxExpectation (calculateSDistribution 2 (1 # 2) 3) 2 == 19 # 4.
Proof. reflexivity. Qed.

Example calculateExpectationForP_infeasible :
  calculateExpectationForP (3 # 4) 10 5 2 = NegInfinity.
Proof. reflexivity. Qed.

(** [N = 1], [A = 1], [C = 3], [tolerance = 0.5]: the objective is
    [1 + p (2 - 2p)]; two iterations take [0, 1] to [0, 2/3] and then to
    [2/9, 2/3], of width [4/9]. *)
Example findOptimalP_two_iterations :
  (exists interval,
      ternary_search 2 1 1 3 (1 # 2) 0 (Math_min 1 ((3 - 1) / 2))
      = Some interval /\
      fst interval == 2 # 9 /\ snd interval == 2 # 3) /\
  ternary_search 1 1 1 3 (1 # 2) 0 (Math_min 1 ((3 - 1) / 2)) = None /\
  exists res,
    findOptimalP 2 1 1 3 (1 # 2) = Some res /\
    optimalP res == 4 # 9 /\ optimalR res == 19 # 9 /\
    maxExpectation res = calculateExpectationForP (optimalP res) 1 1 3.
Proof.
  split; [|split].
  - eexists. split; [vm_compute; reflexivity|]. split; reflexivity.
  - vm_compute. reflexivity.
  - eexists. split; [vm_compute; reflexivity|].
    split; [reflexivity|]. split; [reflexivity|].
    vm_compute. reflexivity.
Qed.

(** ** Comparisons *)

Lemma Qlt_bool_iff (x y : Q) : Qlt_bool x y = true <-> x < y.
Proof.
  unfold Qlt_bool. rewrite negb_true_iff.
  split; intro H.
  - apply Qnot_le_lt. intro Hle. apply Qle_bool_iff in Hle. congruence.
  - destruct (Qle_bool y x) eqn:E; [|reflexivity].
    apply Qle_bool_iff in E. exfalso. apply (Qlt_not_le _ _ H E).
Qed.

Lemma Qlt_bool_false_iff (x y : Q) : Qlt_bool x y = false <-> y <= x.
Proof.
  unfold Qlt_bool. rewrite negb_false_iff. apply Qle_bool_iff.
Qed.

Ltac qbool :=
  repeat match goal with
  | H : Qlt_bool _ _ = true |- _ => apply Qlt_bool_iff in H
  | H : Qlt_bool _ _ = false |- _ => apply Qlt_bool_false_iff in H
  | H : Qle_bool _ _ = true |- _ => apply Qle_bool_iff in H
  | H : Qeq_bool _ _ = true |- _ => apply Qeq_bool_iff in H
  | H : Qeq_bool _ _ = false |- _ => apply Qeq_bool_neq in H
  end.

(** Division by a positive integer constant is a multiplication, which is
    what linear arithmetic understands. *)
Lemma Qdiv_const (x : Q) (n : positive) : x / (Zpos n # 1) = x * (1 # n).
Proof. reflexivity. Qed.

Ltac qlra := rewrite ?Qdiv_const in *; lra.

Lemma Math_min_le_l (x y : Q) : Math_min x y <= x.
Proof. apply Q.le_min_l. Qed.

Lemma Math_min_le_r (x y : Q) : Math_min x y <= y.
Proof. apply Q.le_min_r. Qed.

Lemma Math_min_glb (x y z : Q) : z <= x -> z <= y -> z <= Math_min x y.
Proof. intros. apply Q.min_glb; assumption. Qed.

(** The feasible interval [0, maxP] is not empty when [1 <= C]. *)
Lemma maxP_nonneg (C : Q) : 1 <= C -> 0 <= Math_min 1 ((C - 1) / 2).
Proof.
  intro H. apply Math_min_glb; qlra.
Qed.

Lemma maxP_feasible (C : Q) : 1 <= calculateR (Math_min 1 ((C - 1) / 2)) C.
Proof.
  unfold calculateR.
  pose proof (Math_min_le_r 1 ((C - 1) / 2)) as H.
  set (maxP := Math_min 1 ((C - 1) / 2)) in *. qlra.
Qed.

(** ** The ternary search *)

Section TernarySearch.

Variables (N A : Z) (C tolerance : Q).

Lemma ternary_step_width (left right : Q) :
  let next := ternary_step N A C left right in
  snd next - fst next == (2 # 3) * (right - left).
Proof.
  unfold ternary_step.
  destruct (ereal_ltb _ _); simpl; field.
Qed.

Lemma ternary_step_inside (left right : Q) :
  left <= right ->
  let next := ternary_step N A C left right in
  left <= fst next /\ fst next <= snd next /\ snd next <= right.
Proof.
  intro H. unfold ternary_step.
  destruct (ereal_ltb _ _); simpl; repeat split; qlra.
Qed.

(** The interval that the loop returns lies inside the one it starts from
    and is no wider than [tolerance]. *)
Lemma ternary_search_inside (fuel : nat) :
  forall left right res,
    left <= right ->
    ternary_search fuel N A C tolerance left right = Some res ->
    left <= fst res /\ fst res <= snd res /\ snd res <= right /\
    snd res - fst res <= tolerance.
Proof.
  induction fuel as [|fuel IH]; intros left right res Hle; simpl;
    destruct (Qlt_bool tolerance (right - left)) eqn:E; intro H;
    try discriminate.
  - injection H as <-. simpl. qbool. repeat split; lra.
  - apply IH in H.
    + pose proof (ternary_step_inside left right Hle) as Hs. simpl in Hs.
      destruct H as (H1 & H2 & H3 & H4), Hs as (S1 & S2 & S3).
      repeat split; try assumption; lra.
    + apply (ternary_step_inside left right Hle).
  - injection H as <-. simpl. qbool. repeat split; lra.
Qed.

(** More fuel does not change a result. *)
Lemma ternary_search_fuel_mono (fuel : nat) :
  forall fuel' left right res,
    (fuel <= fuel')%nat ->
    ternary_search fuel N A C tolerance left right = Some res ->
    ternary_search fuel' N A C tolerance left right = Some res.
Proof.
  induction fuel as [|fuel IH]; intros fuel' left right res Hf; simpl;
    destruct (Qlt_bool tolerance (right - left)) eqn:E; intro H;
    try discriminate.
  - destruct fuel'; simpl; rewrite E; assumption.
  - destruct fuel' as [|fuel']; [lia|]. simpl. rewrite E.
    apply IH; [lia | assumption].
  - destruct fuel'; simpl; rewrite E; assumption.
Qed.

Lemma pow23_succ (n : nat) :
  (2 # 3) ^ Z.of_nat (S n) == (2 # 3) * (2 # 3) ^ Z.of_nat n.
Proof.
  rewrite Nat2Z.inj_succ, <- Z.add_1_l.
  rewrite Qpower_plus by (intro H; discriminate H).
  reflexivity.
Qed.

(** [fuel] iterations suffice as soon as [(2/3)^fuel] times the width is
    within [tolerance]; the loop then makes at most [2 * fuel]
    evaluations. *)
Lemma ternary_search_terminates (fuel : nat) :
  forall left right,
    (2 # 3) ^ Z.of_nat fuel * (right - left) <= tolerance ->
    exists res evals,
      ternary_search fuel N A C tolerance left right = Some res /\
      ternary_evaluations fuel N A C tolerance left right = Some evals /\
      (evals <= 2 * fuel)%nat.
Proof.
  induction fuel as [|fuel IH]; intros left right Hw; simpl;
    destruct (Qlt_bool tolerance (right - left)) eqn:E;
    try (exists (left, right), O; repeat split; lia).
  - qbool. simpl in Hw. exfalso. lra.
  - destruct (IH (fst (ternary_step N A C left right))
                 (snd (ternary_step N A C left right)))
      as (res & evals & H1 & H2 & H3).
    + rewrite ternary_step_width. rewrite pow23_succ in Hw.
      lra.
    + exists res, (2 + evals)%nat. rewrite H1, H2. simpl.
      repeat split; lia.
Qed.

End TernarySearch.

(** ** The iteration bound *)

Lemma pow23_nonneg (n : nat) : 0 <= (2 # 3) ^ Z.of_nat n.
Proof. apply Qpower_0_le. lra. Qed.

Lemma pow23_double (k : nat) :
  (2 # 3) ^ Z.of_nat (2 * k) * inject_Z (2 ^ Z.of_nat k) <= 1.
Proof.
  induction k as [|k IH]; [simpl; unfold inject_Z; lra|].
  replace (2 * S k)%nat with (S (S (2 * k))) by lia.
  rewrite !pow23_succ.
  rewrite Nat2Z.inj_succ, Z.pow_succ_r by lia.
  rewrite inject_Z_mult.
  pose proof (pow23_nonneg (2 * k)) as Hp.
  set (P := (2 # 3) ^ Z.of_nat (2 * k)) in *.
  set (M := inject_Z (2 ^ Z.of_nat k)) in *.
  assert (0 <= M).
  { unfold M. change 0 with (inject_Z 0). rewrite <- Zle_Qle.
    apply Z.pow_nonneg; lia. }
  assert (0 <= P * M) by (apply Qmult_le_0_compat; assumption).
  setoid_replace ((2 # 3) * ((2 # 3) * P) * (inject_Z 2 * M))
    with ((8 # 9) * (P * M)) by (unfold inject_Z; ring).
  lra.
Qed.

Lemma iteration_bound_spec (tolerance : Q) :
  0 < tolerance ->
  (2 # 3) ^ Z.of_nat (iteration_bound tolerance) <= tolerance.
Proof.
  intro Htol. unfold iteration_bound.
  set (c := Qceiling (1 / tolerance)).
  assert (Hinv : 0 < 1 / tolerance).
  { apply Qlt_shift_div_l; lra. }
  assert (Hc : 1 / tolerance <= inject_Z c) by apply Qle_ceiling.
  assert (Hcpos : (0 < c)%Z).
  { rewrite Zlt_Qlt. change (inject_Z 0) with 0.
    apply Qlt_le_trans with (1 / tolerance); assumption. }
  set (k := Z.to_nat (Z.log2_up c)).
  assert (Hk : (c <= 2 ^ Z.of_nat k)%Z).
  { unfold k. rewrite Z2Nat.id by apply Z.log2_up_nonneg.
    apply Z.log2_up_le_pow2; [assumption | lia]. }
  pose proof (pow23_double k) as Hd.
  pose proof (pow23_nonneg (2 * k)) as Hp.
  set (P := (2 # 3) ^ Z.of_nat (2 * k)) in *.
  rewrite Zle_Qle in Hk.
  set (M := inject_Z (2 ^ Z.of_nat k)) in *.
  assert (H1 : 1 <= M * tolerance).
  { setoid_replace 1 with (1 / tolerance * tolerance) by (field; lra).
    apply Qmult_le_compat_r; lra. }
  assert (H2 : P * 1 <= P * (M * tolerance)).
  { rewrite !(Qmult_comm P). apply Qmult_le_compat_r; assumption. }
  assert (H3 : (P * M) * tolerance <= 1 * tolerance).
  { apply Qmult_le_compat_r; lra. }
  setoid_replace (P * (M * tolerance)) with (P * M * tolerance) in H2 by ring.
  lra.
Qed.

(** ** [findOptimalP] *)

Section FindOptimalP.

Variables (N A : Z) (C tolerance : Q).

Let maxP : Q := Math_min 1 ((C - 1) / 2).

Lemma findOptimalP_fallback (fuel : nat) :
  C < 1 ->
  findOptimalP fuel N A C tolerance
  = Some (mkResult 0 1 (Finite (inject_Z N))).
Proof.
  intro H. unfold findOptimalP.
  apply Qlt_bool_iff in H. rewrite H. reflexivity.
Qed.

(** With [1 <= C] the result comes from the interval the search ends
    with. *)
Lemma findOptimalP_search (fuel : nat) (res : OptimizationResult) :
  1 <= C ->
  findOptimalP fuel N A C tolerance = Some res ->
  exists interval,
    ternary_search fuel N A C tolerance 0 maxP = Some interval /\
    optimalP res = (fst interval + snd interval) / 2 /\
    optimalR res = calculateR (optimalP res) C /\
    maxExpectation res = calculateExpectationForP (optimalP res) N A C.
Proof.
  intros HC. unfold findOptimalP.
  apply Qlt_bool_false_iff in HC. rewrite HC. fold maxP.
  destruct (ternary_search fuel N A C tolerance 0 maxP) as [interval|];
    [|discriminate].
  intro H. injection H as <-. simpl. exists interval. auto.
Qed.

Lemma findOptimalP_fuel_mono (fuel fuel' : nat) (res : OptimizationResult) :
  (fuel <= fuel')%nat ->
  findOptimalP fuel N A C tolerance = Some res ->
  findOptimalP fuel' N A C tolerance = Some res.
Proof.
  intros Hf. unfold findOptimalP.
  destruct (Qlt_bool C 1); [auto|].
  destruct (ternary_search fuel _ _ _ _ _ _) as [interval|] eqn:E;
    [|discriminate].
  rewrite (ternary_search_fuel_mono _ _ _ _ _ _ _ _ _ Hf E). auto.
Qed.

(** A call returns at most one result. *)
Lemma findOptimalP_returns_unique (res res' : OptimizationResult) :
  findOptimalP_returns N A C tolerance res ->
  findOptimalP_returns N A C tolerance res' ->
  res = res'.
Proof.
  intros [f1 H1] [f2 H2].
  apply (findOptimalP_fuel_mono f1 (Nat.max f1 f2)) in H1; [|lia].
  apply (findOptimalP_fuel_mono f2 (Nat.max f1 f2)) in H2; [|lia].
  congruence.
Qed.

(** With a positive tolerance the call returns, within
    [iteration_bound tolerance] iterations. *)
Lemma findOptimalP_total :
  0 < tolerance ->
  exists res evals,
    findOptimalP (iteration_bound tolerance) N A C tolerance = Some res /\
    findOptimalP_evaluations (iteration_bound tolerance) N A C tolerance
    = Some evals /\
    (evals <= 2 * iteration_bound tolerance + 1)%nat.
Proof.
  intro Htol. unfold findOptimalP, findOptimalP_evaluations.
  destruct (Qlt_bool C 1) eqn:HC.
  - eexists _, O. repeat split; lia.
  - qbool. fold maxP.
    destruct (ternary_search_terminates N A C tolerance
                (iteration_bound tolerance) 0 maxP)
      as (interval & evals & H1 & H2 & H3).
    + pose proof (iteration_bound_spec tolerance Htol) as Hb.
      pose proof (pow23_nonneg (iteration_bound tolerance)) as Hp.
      pose proof (Math_min_le_l 1 ((C - 1) / 2)) as Hm. fold maxP in Hm.
      pose proof (maxP_nonneg C HC) as Hm0. fold maxP in Hm0.
      set (P := (2 # 3) ^ Z.of_nat (iteration_bound tolerance)) in *.
      assert (P * (maxP - 0) <= P * 1).
      { rewrite !(Qmult_comm P). apply Qmult_le_compat_r; lra. }
      lra.
    + rewrite H1, H2. simpl. eexists _, (S evals).
      repeat split; lia.
Qed.

Lemma findOptimalP_feasible (res : OptimizationResult) :
  1 <= C ->
  findOptimalP_returns N A C tolerance res ->
  optimalR res == C - 2 * optimalP res /\
  1 <= optimalR res /\
  0 <= optimalP res /\ optimalP res <= maxP.
Proof.
  intros HC [fuel H].
  destruct (findOptimalP_search fuel res HC H)
    as (interval & Hs & HP & HR & _).
  apply ternary_search_inside in Hs; [|apply maxP_nonneg; assumption].
  destruct Hs as (H1 & H2 & H3 & _).
  pose proof (maxP_feasible C) as Hm. fold maxP in Hm.
  unfold calculateR in *. rewrite HR, HP.
  set (m := maxP) in *. repeat split; qlra.
Qed.

End FindOptimalP.

(** ** The search in a rounding arithmetic *)

Lemma Qabs_bounds (x y : Q) : Qabs x <= y <-> - y <= x /\ x <= y.
Proof. apply Qabs_Qle_condition. Qed.

Section RoundedSearch.

Variable rnd : Q -> Q.
Variable u : Q.
Variable objective : Q -> ereal.
Variable tolerance : Q.

Hypothesis rnd_error : forall x, -2 <= x <= 2 -> Qabs (rnd x - x) <= u.
Hypothesis rnd_nonneg : forall x, 0 <= x -> 0 <= rnd x.
Hypothesis Htol : 0 < tolerance.
Hypothesis Hu : 29 * u <= tolerance.

Lemma rnd_near (x : Q) : -2 <= x -> x <= 2 -> rnd x - u <= x /\ x <= rnd x + u.
Proof.
  intros H1 H2. pose proof (rnd_error x (conj H1 H2)) as H.
  apply Qabs_bounds in H. lra.
Qed.

Lemma u_nonneg : 0 <= u.
Proof.
  pose proof (rnd_error 0 ltac:(lra)) as H.
  pose proof (Qabs_nonneg (rnd 0 - 0)). lra.
Qed.

(** While the loop runs the interval is wider than [28 u]. *)
Lemma rounded_guard (left right : Q) :
  0 <= left -> left <= right -> right <= 1 ->
  Qlt_bool tolerance (rnd (right - left)) = true ->
  28 * u < right - left /\ u < 1 # 28.
Proof.
  intros H0 H1 H2 Hg. apply Qlt_bool_iff in Hg.
  destruct (rnd_near (right - left)) as [A1 A2]; try lra.
Qed.

Lemma rounded_step_bounds (left right : Q) (evaluations : nat) :
  0 <= left -> left <= right -> right <= 1 ->
  Qlt_bool tolerance (rnd (right - left)) = true ->
  let next := fst (ternary_step_rounded rnd objective left right evaluations) in
  left <= fst next /\ fst next <= snd next /\ snd next <= right /\
  snd next - fst next <= (2 # 3) * (right - left) + (7 # 3) * u /\
  snd next - fst next <= (3 # 4) * (right - left).
Proof.
  intros H0 H1 H2 Hg.
  destruct (rounded_guard left right H0 H1 H2 Hg) as [Hw Hu1].
  pose proof u_nonneg as Hu0.
  destruct (rnd_near (right - left)) as [W1 W2]; try lra.
  set (w := rnd (right - left)) in *.
  destruct (rnd_near (w / 3)) as [D1 D2]; try qlra.
  set (d := rnd (w / 3)) in *.
  assert (Hd : w / 3 == w * (1 # 3)) by (rewrite Qdiv_const; reflexivity).
  rewrite Hd in D1, D2.
  destruct (rnd_near (left + d)) as [M1 M2]; try lra.
  destruct (rnd_near (right - d)) as [N1 N2]; try lra.
  unfold ternary_step_rounded, counted_objective. fold w. fold d. simpl.
  destruct (ereal_ltb _ _); simpl; repeat split; lra.
Qed.

Lemma pow34_succ (n : nat) :
  (3 # 4) ^ Z.of_nat (S n) == (3 # 4) * (3 # 4) ^ Z.of_nat n.
Proof.
  rewrite Nat2Z.inj_succ, <- Z.add_1_l.
  rewrite Qpower_plus by (intro H; discriminate H).
  reflexivity.
Qed.

Lemma pow34_nonneg (n : nat) : 0 <= (3 # 4) ^ Z.of_nat n.
Proof. apply Qpower_0_le. lra. Qed.

(** [fuel] iterations suffice as soon as [(3/4)^fuel] times the width is
    within [tolerance - u]; the loop then makes at most [2 * fuel]
    evaluations, and the interval it returns lies inside the one it starts
    from. *)
Lemma rounded_search_terminates (fuel : nat) :
  forall left right evaluations,
    0 <= left -> left <= right -> right <= 1 ->
    (3 # 4) ^ Z.of_nat fuel * (right - left) <= tolerance - u ->
    exists found,
      ternary_search_rounded rnd objective fuel tolerance left right
                             evaluations = Some found /\
      (snd found <= evaluations + 2 * fuel)%nat /\
      left <= fst (fst found) /\ fst (fst found) <= snd (fst found) /\
      snd (fst found) <= right.
Proof.
  induction fuel as [|fuel IH]; intros left right evaluations H0 H1 H2 Hw;
    simpl ternary_search_rounded;
    destruct (Qlt_bool tolerance (rnd (right - left))) eqn:E;
    try (exists ((left, right), evaluations); simpl;
         repeat split; try lia; lra).
  - exfalso. apply Qlt_bool_iff in E.
    destruct (rnd_near (right - left)) as [A1 A2]; try lra.
    simpl in Hw. lra.
  - pose proof (rounded_step_bounds left right evaluations H0 H1 H2 E)
      as (S1 & S2 & S3 & _ & S5).
    assert (Hc : snd (ternary_step_rounded rnd objective left right
                                           evaluations)
                 = (2 + evaluations)%nat).
    { unfold ternary_step_rounded, counted_objective. simpl.
      destruct (ereal_ltb _ _); reflexivity. }
    destruct (ternary_step_rounded rnd objective left right evaluations)
      as [[left' right'] evaluations'].
    simpl in S1, S2, S3, S5, Hc. simpl fst. simpl snd.
    destruct (IH left' right' evaluations') as (found & F1 & F2 & F3 & F4 & F5);
      try lra.
    + rewrite pow34_succ in Hw.
      pose proof (pow34_nonneg fuel) as Hp.
      set (P := (3 # 4) ^ Z.of_nat fuel) in *.
      assert (P * (right' - left') <= P * ((3 # 4) * (right - left))).
      { rewrite !(Qmult_comm P). apply Qmult_le_compat_r; lra. }
      lra.
    + exists found. split; [exact F1|]. split; [lia|]. repeat split; lra.
Qed.

Lemma rounded_search_fuel_mono (fuel : nat) :
  forall fuel' left right evaluations found,
    (fuel <= fuel')%nat ->
    ternary_search_rounded rnd objective fuel tolerance left right evaluations
    = Some found ->
    ternary_search_rounded rnd objective fuel' tolerance left right
                           evaluations
    = Some found.
Proof.
  induction fuel as [|fuel IH]; intros fuel' left right evaluations found Hf;
    simpl; destruct (Qlt_bool tolerance (rnd (right - left))) eqn:E; intro H;
    try discriminate.
  - destruct fuel'; simpl; rewrite E; assumption.
  - destruct fuel' as [|fuel']; [lia|]. simpl. rewrite E.
    apply IH; [lia | assumption].
  - destruct fuel'; simpl; rewrite E; assumption.
Qed.

Lemma pow34_triple (k : nat) :
  (3 # 4) ^ Z.of_nat (3 * k) * inject_Z (2 ^ Z.of_nat k) <= 1.
Proof.
  induction k as [|k IH]; [simpl; unfold inject_Z; lra|].
  replace (3 * S k)%nat with (S (S (S (3 * k)))) by lia.
  rewrite !pow34_succ.
  rewrite Nat2Z.inj_succ, Z.pow_succ_r by lia.
  rewrite inject_Z_mult.
  pose proof (pow34_nonneg (3 * k)) as Hp.
  set (P := (3 # 4) ^ Z.of_nat (3 * k)) in *.
  set (M := inject_Z (2 ^ Z.of_nat k)) in *.
  assert (0 <= M).
  { unfold M. change 0 with (inject_Z 0). rewrite <- Zle_Qle.
    apply Z.pow_nonneg; lia. }
  assert (0 <= P * M) by (apply Qmult_le_0_compat; assumption).
  setoid_replace ((3 # 4) * ((3 # 4) * ((3 # 4) * P)) * (inject_Z 2 * M))
    with ((27 # 32) * (P * M)) by (unfold inject_Z; ring).
  lra.
Qed.

Lemma iteration_bound_rounded_spec :
  (3 # 4) ^ Z.of_nat (iteration_bound_rounded tolerance) <= tolerance - u.
Proof.
  unfold iteration_bound_rounded.
  set (c := Qceiling (2 / tolerance)).
  assert (Hinv : 0 < 2 / tolerance).
  { apply Qlt_shift_div_l; lra. }
  assert (Hc : 2 / tolerance <= inject_Z c) by apply Qle_ceiling.
  assert (Hcpos : (0 < c)%Z).
  { rewrite Zlt_Qlt. change (inject_Z 0) with 0.
    apply Qlt_le_trans with (2 / tolerance); assumption. }
  set (k := Z.to_nat (Z.log2_up c)).
  assert (Hk : (c <= 2 ^ Z.of_nat k)%Z).
  { unfold k. rewrite Z2Nat.id by apply Z.log2_up_nonneg.
    apply Z.log2_up_le_pow2; [assumption | lia]. }
  pose proof (pow34_triple k) as Hd.
  pose proof (pow34_nonneg (3 * k)) as Hp.
  set (P := (3 # 4) ^ Z.of_nat (3 * k)) in *.
  rewrite Zle_Qle in Hk.
  set (M := inject_Z (2 ^ Z.of_nat k)) in *.
  assert (H1 : 2 <= M * tolerance).
  { setoid_replace 2 with (2 / tolerance * tolerance) by (field; lra).
    apply Qmult_le_compat_r; lra. }
  assert (H2 : P * 2 <= P * (M * tolerance)).
  { rewrite !(Qmult_comm P). apply Qmult_le_compat_r; assumption. }
  assert (H3 : (P * M) * tolerance <= 1 * tolerance).
  { apply Qmult_le_compat_r; lra. }
  setoid_replace (P * (M * tolerance)) with (P * M * tolerance) in H2 by ring.
  pose proof u_nonneg. lra.
Qed.

(** The first interval: [0, maxP] with [0 <= maxP <= 1]. *)
Lemma rounded_maxP (C : Q) :
  1 <= C ->
  0 <= Math_min 1 (rnd (rnd (C - 1) / 2)) /\
  Math_min 1 (rnd (rnd (C - 1) / 2)) <= 1.
Proof.
  intro HC. split; [|apply Math_min_le_l].
  apply Math_min_glb; [lra|].
  apply rnd_nonneg.
  assert (0 <= rnd (C - 1)) by (apply rnd_nonneg; lra).
  qlra.
Qed.

Lemma findOptimalP_rounded_total (N : Z) (C : Q) :
  exists res evaluations,
    findOptimalP_rounded rnd objective (iteration_bound_rounded tolerance)
                         N C tolerance
    = Some (res, evaluations) /\
    (evaluations <= 2 * iteration_bound_rounded tolerance + 1)%nat /\
    forall fuel,
      (iteration_bound_rounded tolerance <= fuel)%nat ->
      findOptimalP_rounded rnd objective fuel N C tolerance
      = Some (res, evaluations).
Proof.
  unfold findOptimalP_rounded.
  destruct (Qlt_bool C 1) eqn:HC.
  - eexists _, O. repeat split; lia.
  - apply Qlt_bool_false_iff in HC.
    destruct (rounded_maxP C HC) as [Hm0 Hm1].
    set (maxP := Math_min 1 (rnd (rnd (C - 1) / 2))) in *.
    destruct (rounded_search_terminates (iteration_bound_rounded tolerance)
                0 maxP O) as (found & F1 & F2 & _); try lra.
    + pose proof iteration_bound_rounded_spec as Hb.
      pose proof (pow34_nonneg (iteration_bound_rounded tolerance)) as Hp.
      set (P := (3 # 4) ^ Z.of_nat (iteration_bound_rounded tolerance)) in *.
      assert (P * (maxP - 0) <= P * 1).
      { rewrite !(Qmult_comm P). apply Qmult_le_compat_r; lra. }
      lra.
    + rewrite F1. eexists _, _. split; [reflexivity|]. split.
      * unfold counted_objective. simpl. lia.
      * intros fuel Hf.
        rewrite (rounded_search_fuel_mono _ fuel _ _ _ _ Hf F1). reflexivity.
Qed.

End RoundedSearch.

(** Without rounding, and with [calculateExpectationForP] for the objective,
    the rounded search is the search of [findOptimalP]. *)
Lemma ternary_search_rounded_exact (N A : Z) (C tolerance : Q) (fuel : nat) :
  forall left right evaluations,
    option_map fst
      (ternary_search_rounded (fun x => x)
                              (fun p => calculateExpectationForP p N A C)
                              fuel tolerance left right evaluations)
    = ternary_search fuel N A C tolerance left right.
Proof.
  induction fuel as [|fuel IH]; intros left right evaluations; simpl;
    destruct (Qlt_bool tolerance (right - left)); try reflexivity.
  unfold ternary_step_rounded, ternary_step, counted_objective. simpl.
  destruct (ereal_ltb _ _); simpl; apply IH.
Qed.

Lemma findOptimalP_rounded_exact (N A : Z) (C tolerance : Q) (fuel : nat) :
  option_map fst
    (findOptimalP_rounded (fun x => x)
                          (fun p => calculateExpectationForP p N A C)
                          fuel N C tolerance)
  = findOptimalP fuel N A C tolerance.
Proof.
  unfold findOptimalP_rounded, findOptimalP.
  destruct (Qlt_bool C 1); [reflexivity|].
  rewrite <- (ternary_search_rounded_exact N A C tolerance fuel 0 _ O).
  destruct (ternary_search_rounded _ _ fuel tolerance 0 _ O)
    as [found|]; reflexivity.
Qed.

(** Rounding to ten binary places errs by at most [2^-11]. *)
Lemma round_to_1024_error (x : Q) : Qabs (round_to_1024 x - x) <= 1 # 2048.
Proof.
  unfold round_to_1024.
  pose proof (Qfloor_le (x * 1024 + (1 # 2))) as H1.
  pose proof (Qlt_floor (x * 1024 + (1 # 2))) as H2.
  rewrite inject_Z_plus in H2. change (inject_Z 1) with 1 in H2.
  set (f := inject_Z (Qfloor (x * 1024 + (1 # 2)))) in *.
  apply Qabs_bounds. rewrite Qdiv_const. lra.
Qed.

Lemma round_to_1024_nonneg (x : Q) : 0 <= x -> 0 <= round_to_1024 x.
Proof.
  intro H. unfold round_to_1024.
  assert (Hf : (0 <= Qfloor (x * 1024 + (1 # 2)))%Z).
  { apply Qfloor_resp_le with (x := 0) (y := x * 1024 + (1 # 2)). lra. }
  rewrite Zle_Qle in Hf. change (inject_Z 0) with 0 in Hf.
  rewrite Qdiv_const. lra.
Qed.

(** The count is at most two for each iteration, and one more. *)
Lemma rounded_search_count (rnd : Q -> Q) (objective : Q -> ereal)
      (tolerance : Q) (fuel : nat) :
  forall left right evaluations found,
    ternary_search_rounded rnd objective fuel tolerance left right evaluations
    = Some found ->
    (snd found <= evaluations + 2 * fuel)%nat.
Proof.
  induction fuel as [|fuel IH]; intros left right evaluations found; simpl;
    destruct (Qlt_bool tolerance (rnd (right - left))); intro H;
    try discriminate; try (injection H as <-; simpl; lia).
  apply IH in H.
  assert (Hc : snd (ternary_step_rounded rnd objective left right
                                         evaluations)
               = (2 + evaluations)%nat).
  { unfold ternary_step_rounded, counted_objective. simpl.
    destruct (ereal_ltb _ _); reflexivity. }
  lia.
Qed.

Lemma findOptimalP_rounded_count (rnd : Q -> Q) (objective : Q -> ereal)
      (fuel : nat) (N : Z) (C tolerance : Q)
      (res : OptimizationResult) (evaluations : nat) :
  findOptimalP_rounded rnd objective fuel N C tolerance
  = Some (res, evaluations) ->
  (evaluations <= 2 * fuel + 1)%nat.
Proof.
  unfold findOptimalP_rounded.
  destruct (Qlt_bool C 1).
  - intro H. injection H as _ <-. lia.
  - destruct (ternary_search_rounded rnd objective fuel tolerance 0 _ O)
      as [found|] eqn:E; [|discriminate].
    apply rounded_search_count in E.
    intro H. injection H as _ <-. unfold counted_objective. simpl. lia.
Qed.

(** In exact arithmetic: within [iteration_bound tolerance] iterations. *)
Lemma findOptimalP_exact_total (N A : Z) (C tolerance : Q) :
  0 < tolerance ->
  exists res evaluations,
    findOptimalP_rounded (fun x => x)
                         (fun p => calculateExpectationForP p N A C)
                         (iteration_bound tolerance) N C tolerance
    = Some (res, evaluations) /\
    (evaluations <= 2 * iteration_bound tolerance + 1)%nat /\
    forall fuel,
      (iteration_bound tolerance <= fuel)%nat ->
      findOptimalP fuel N A C tolerance = Some res.
Proof.
  intro Htol.
  destruct (findOptimalP_total N A C tolerance Htol) as (res & _ & H & _).
  pose proof (findOptimalP_rounded_exact N A C tolerance
                (iteration_bound tolerance)) as E.
  rewrite H in E.
  destruct (findOptimalP_rounded _ _ (iteration_bound tolerance) N C tolerance)
    as [[res' evaluations]|] eqn:Ec; [|discriminate].
  simpl in E. injection E as ->.
  exists res, evaluations. split; [reflexivity|]. split.
  - apply (findOptimalP_rounded_count _ _ _ _ _ _ _ _ Ec).
  - intros fuel Hf.
    apply (findOptimalP_fuel_mono N A C tolerance _ fuel res Hf H).
Qed.

(** ** Maps *)

Module JsMapFacts.

Import JsMap.

(** A key that is new to the map is appended. *)
Lemma set_fresh (k v : Q) (m : t) :
  ~ InA Qeq k (keys m) -> set k v m = m ++ [(k, v)].
Proof.
  induction m as [|[k' v'] m IH]; simpl; intro H; [reflexivity|].
  destruct (Qeq_bool k' k) eqn:E.
  - exfalso. apply H. left. symmetry. apply Qeq_bool_iff. exact E.
  - rewrite IH; [reflexivity|]. intro Hin. apply H. right. exact Hin.
Qed.

Lemma get_fresh (k : Q) (m : t) :
  ~ InA Qeq k (keys m) -> get k m = None.
Proof.
  induction m as [|[k' v'] m IH]; simpl; intro H; [reflexivity|].
  destruct (Qeq_bool k' k) eqn:E.
  - exfalso. apply H. left. symmetry. apply Qeq_bool_iff. exact E.
  - apply IH. intro Hin. apply H. right. exact Hin.
Qed.

Lemma get_app_fresh (k : Q) (m m' : t) :
  ~ InA Qeq k (keys m) -> get k (m ++ m') = get k m'.
Proof.
  induction m as [|[k' v'] m IH]; simpl; intro H; [reflexivity|].
  destruct (Qeq_bool k' k) eqn:E.
  - exfalso. apply H. left. symmetry. apply Qeq_bool_iff. exact E.
  - apply IH. intro Hin. apply H. right. exact Hin.
Qed.

(** In a map, an entry is what [get] finds at its key. *)
Lemma get_In (k v : Q) (m : t) :
  wf m -> In (k, v) m -> get k m = Some v.
Proof.
  unfold wf. induction m as [|[k' v'] m IH]; simpl; intros Hwf Hin;
    [contradiction|].
  inversion Hwf as [|? ? Hnot Hrest]; subst.
  destruct Hin as [Heq | Hin].
  - injection Heq as -> ->. rewrite Qeq_bool_refl. reflexivity.
  - destruct (Qeq_bool k' k) eqn:E.
    + exfalso. apply Hnot. apply Qeq_bool_iff in E.
      apply InA_alt. exists k. split; [exact E|].
      apply (in_map fst) in Hin. exact Hin.
    + apply IH; assumption.
Qed.

Lemma get_nn_In (k v : Q) (m : t) :
  wf m -> In (k, v) m -> get_nn k m = v.
Proof.
  intros Hwf Hin. unfold get_nn. rewrite (get_In k v m Hwf Hin). reflexivity.
Qed.

End JsMapFacts.

(** ** [calculateSDistribution] *)

Lemma indices_succ (n : nat) : indices (S n) = indices n ++ [Z.of_nat n].
Proof.
  unfold indices. rewrite seq_S, map_app. reflexivity.
Qed.

Lemma indices_length (n : nat) : length (indices n) = n.
Proof. unfold indices. rewrite length_map, length_seq. reflexivity. Qed.

Lemma indices_In (n : nat) (i : Z) :
  In i (indices n) <-> (0 <= i < Z.of_nat n)%Z.
Proof.
  unfold indices. rewrite in_map_iff. split.
  - intros (k & <- & Hk). apply in_seq in Hk. lia.
  - intro H. exists (Z.to_nat i). split; [lia|]. apply in_seq. lia.
Qed.

Section Distribution.

Variables (N : Z) (p r : Q).

(** The values [N + k (r - 1)] of different [k] are different numbers when
    [r] is not 1. *)
Lemma binomial_value_inj (i k : Z) :
  ~ r == 1 ->
  inject_Z N + inject_Z i * (r - 1) == inject_Z N + inject_Z k * (r - 1) ->
  i = k.
Proof.
  intros Hr H.
  assert (E : (inject_Z i - inject_Z k) * (r - 1) == 0) by lra.
  apply Qmult_integral in E. destruct E as [E | E].
  - apply inject_Z_injective. lra.
  - exfalso. apply Hr. lra.
Qed.

(** The binomial loop never overwrites an entry: after [n] iterations the
    map holds the [n] entries in the order of [k]. *)
Lemma binomial_loop_entries (n : nat) :
  ~ r == 1 ->
  fold_left (fun distribution k =>
               let e := binomial_entry N p r k in
               JsMap.set (fst e) (snd e) distribution)
            (indices n) JsMap.empty
  = map (binomial_entry N p r) (indices n).
Proof.
  intro Hr. induction n as [|n IH]; [reflexivity|].
  rewrite indices_succ, fold_left_app, IH, map_app. simpl.
  apply JsMapFacts.set_fresh.
  intro Hin. apply InA_alt in Hin. destruct Hin as (k' & Heq & Hin).
  unfold JsMap.keys in Hin. rewrite map_map in Hin.
  apply in_map_iff in Hin. destruct Hin as (i & <- & Hi).
  simpl in Heq. apply binomial_value_inj in Heq; [|assumption].
  apply indices_In in Hi. lia.
Qed.

Lemma not_near_one :
  ~ Math_abs (r - 1) < 1 # 10000000000 -> ~ r == 1.
Proof.
  intros H E. apply H. unfold Math_abs.
  setoid_replace (r - 1) with 0 by lra. reflexivity.
Qed.

End Distribution.

(** ** Sorting *)

Lemma sort_insert_perm (x : Q) (l : list Q) :
  Permutation (sort_insert x l) (x :: l).
Proof.
  induction l as [|y l IH]; simpl; [reflexivity|].
  destruct (Qle_bool x y); [reflexivity|].
  rewrite IH. apply perm_swap.
Qed.

Lemma sort_ascending_perm (l : list Q) : Permutation (sort_ascending l) l.
Proof.
  induction l as [|x l IH]; simpl; [reflexivity|].
  rewrite sort_insert_perm. apply perm_skip. exact IH.
Qed.

Lemma sort_insert_sorted (x : Q) (l : list Q) :
  Sorted Qle l -> Sorted Qle (sort_insert x l).
Proof.
  induction l as [|y l IH]; simpl; intro H.
  - repeat constructor.
  - destruct (Qle_bool x y) eqn:E.
    + qbool. constructor; [assumption|]. constructor. assumption.
    + assert (Hyx : y <= x).
      { destruct (Qlt_le_dec y x) as [Hlt | Hle]; [lra|].
        apply Qle_bool_iff in Hle. congruence. }
      inversion H as [|? ? Hs Hhd]; subst.
      constructor; [apply IH; assumption|].
      destruct l as [|z l]; simpl.
      * constructor. assumption.
      * destruct (Qle_bool x z); constructor; [assumption|].
        inversion Hhd; assumption.
Qed.

Lemma sort_ascending_sorted (l : list Q) :
  StronglySorted Qle (sort_ascending l).
Proof.
  apply Sorted_StronglySorted; [exact Qle_trans|].
  induction l as [|x l IH]; simpl; [constructor|].
  apply sort_insert_sorted. exact IH.
Qed.

(** There is one ascending arrangement of distinct numbers. *)
Lemma sorted_unique (vs ws : list Q) :
  StronglySorted Qlt vs -> StronglySorted Qle ws -> Permutation vs ws ->
  vs = ws.
Proof.
  revert ws. induction vs as [|x vs IH]; intros ws Hv Hw Hp.
  - apply Permutation_nil in Hp. congruence.
  - destruct ws as [|y ws].
    + symmetry in Hp. apply Permutation_nil in Hp. discriminate.
    + apply StronglySorted_inv in Hv. destruct Hv as [Hv Hx].
      apply StronglySorted_inv in Hw. destruct Hw as [Hw Hy].
      assert (E : x = y).
      { assert (Hin1 : In x (y :: ws))
          by (apply (Permutation_in _ Hp); left; reflexivity).
        assert (Hin2 : In y (x :: vs))
          by (apply (Permutation_in _ (Permutation_sym Hp)); left; reflexivity).
        destruct Hin1 as [-> | Hin1]; [reflexivity|].
        destruct Hin2 as [-> | Hin2]; [reflexivity|].
        rewrite Forall_forall in Hx, Hy.
        specialize (Hx _ Hin2). specialize (Hy _ Hin1). lra. }
      subst y. f_equal. apply IH; try assumption.
      apply Permutation_cons_inv in Hp. exact Hp.
Qed.

Lemma sorted_lt_NoDupA (vs : list Q) : StronglySorted Qlt vs -> NoDupA Qeq vs.
Proof.
  induction 1 as [|x vs Hs IH Hx]; constructor; [|assumption].
  intro Hin. apply InA_alt in Hin. destruct Hin as (y & Heq & Hin).
  rewrite Forall_forall in Hx. specialize (Hx _ Hin). lra.
Qed.

Lemma sorted_le_NoDupA_lt (vs : list Q) :
  StronglySorted Qle vs -> NoDupA Qeq vs -> StronglySorted Qlt vs.
Proof.
  induction 1 as [|x vs Hs IH Hx]; intro Hnd; constructor;
    inversion Hnd as [|? ? Hnot Hrest]; subst.
  - apply IH. assumption.
  - rewrite Forall_forall in *. intros y Hin.
    specialize (Hx _ Hin).
    destruct (Qeq_dec x y) as [E | E]; [|lra].
    exfalso. apply Hnot. apply InA_alt. exists y. auto.
Qed.

Lemma NoDupA_perm (vs ws : list Q) :
  Permutation vs ws -> NoDupA Qeq vs -> NoDupA Qeq ws.
Proof.
  intros Hp Hnd.
  apply (PermutationA_preserves_NoDupA Q_Setoid) with vs; [|assumption].
  apply Permutation_PermutationA; [exact Q_Setoid | assumption].
Qed.

(** ** [calculateMaxExpectation] *)

Section MaxExpectation.

Variable sDistribution : JsMap.t.
Variable A : Z.

Let g (v : Q) : Q := JsMap.get_nn v sDistribution.

(** No value of [vs] is a key of [m]. *)
Let fresh (m : JsMap.t) (vs : list Q) : Prop :=
  forall v, InA Qeq v vs -> ~ InA Qeq v (JsMap.keys m).

Lemma fresh_step (m : JsMap.t) (v c : Q) (vs : list Q) :
  fresh m (v :: vs) -> NoDupA Qeq (v :: vs) -> fresh (m ++ [(v, c)]) vs.
Proof.
  intros Hf Hnd w Hw Hin.
  unfold JsMap.keys in Hin. rewrite map_app in Hin.
  apply InA_app in Hin. destruct Hin as [Hin | Hin].
  - apply (Hf w); [right; assumption | assumption].
  - inversion Hnd as [|? ? Hnot _]; subst. apply Hnot.
    inversion Hin as [? ? E | ? ? E]; subst; [|inversion E].
    simpl in E. eapply InA_eqA; [exact Q_Setoid | exact E | exact Hw].
Qed.

(** The first loop sets one entry per value, in order. *)
Lemma cdf_loop_from (vs : list Q) :
  forall (m : JsMap.t) (c : Q),
    fresh m vs -> NoDupA Qeq vs ->
    fst (fold_left (cdf_body sDistribution) vs (m, c))
    = m ++ cumulative_entries g c vs.
Proof.
  induction vs as [|v vs IH]; intros m c Hf Hnd; simpl.
  - rewrite app_nil_r. reflexivity.
  - unfold cdf_body at 2. simpl.
    rewrite JsMapFacts.set_fresh by (apply Hf; left; reflexivity).
    rewrite IH.
    + rewrite <- app_assoc. reflexivity.
    + apply fresh_step; assumption.
    + inversion Hnd; assumption.
Qed.

(** The second loop finds at each value the cumulative mass that the
    first one stored. *)
Lemma expectation_loop_from (vs : list Q) :
  forall (pre : JsMap.t) (c e : Q),
    fresh pre vs -> NoDupA Qeq vs ->
    fst (fold_left
           (expectation_body (pre ++ cumulative_entries g c vs) A)
           vs (e, c))
    == e + weighted g A c vs.
Proof.
  induction vs as [|v vs IH]; intros pre c e Hf Hnd; simpl.
  - ring.
  - assert (Hget : JsMap.get_nn v
                     (pre ++ (v, c + g v) :: cumulative_entries g (c + g v) vs)
                   = c + g v).
    { unfold JsMap.get_nn.
      rewrite JsMapFacts.get_app_fresh by (apply Hf; left; reflexivity).
      simpl. rewrite Qeq_bool_refl. reflexivity. }
    unfold expectation_body at 2. simpl. rewrite Hget.
    replace (pre ++ (v, c + g v) :: cumulative_entries g (c + g v) vs)
      with ((pre ++ [(v, c + g v)]) ++ cumulative_entries g (c + g v) vs)
      by (rewrite <- app_assoc; reflexivity).
    rewrite IH.
    + ring.
    + apply fresh_step; assumption.
    + inversion Hnd; assumption.
Qed.

(** Away from the one-value shortcut, the function is the weighted sum over
    the sorted values. *)
Lemma calculateMaxExpectation_weighted :
  JsMap.wf sDistribution ->
  length sDistribution <> 1%nat ->
  calculateMaxExpectation sDistribution A
  == weighted g A 0 (sort_ascending (JsMap.keys sDistribution)).
Proof.
  intros Hwf Hlen. unfold calculateMaxExpectation.
  set (vs := sort_ascending (JsMap.keys sDistribution)).
  assert (Hnd : NoDupA Qeq vs).
  { apply NoDupA_perm with (JsMap.keys sDistribution); [|exact Hwf].
    symmetry. apply sort_ascending_perm. }
  assert (Hvs : length vs <> 1%nat).
  { unfold vs. rewrite (Permutation_length (sort_ascending_perm _)).
    unfold JsMap.keys. rewrite length_map. exact Hlen. }
  assert (Hfresh : fresh JsMap.empty vs).
  { intros v _ Hin. inversion Hin. }
  assert (Hmain :
    fst (expectation_loop (fst (cdf_loop sDistribution vs)) A vs)
    == weighted g A 0 vs).
  { unfold cdf_loop.
    rewrite (cdf_loop_from vs JsMap.empty 0 Hfresh Hnd).
    unfold expectation_loop.
    rewrite (expectation_loop_from vs JsMap.empty 0 0 Hfresh Hnd).
    ring. }
  destruct vs as [|v [|w vs']]; try exact Hmain.
  exfalso. apply Hvs. reflexivity.
Qed.

(** The shortcut: a map of one entry. *)
Lemma calculateMaxExpectation_single (v mass : Q) :
  sDistribution = [(v, mass)] ->
  calculateMaxExpectation sDistribution A = v.
Proof. intros ->. reflexivity. Qed.

End MaxExpectation.

(** ** Sums *)

Lemma inject_succ (k : nat) :
  inject_Z (Z.of_nat (S k)) == inject_Z (Z.of_nat k) + 1.
Proof.
  rewrite Nat2Z.inj_succ. unfold Z.succ. rewrite inject_Z_plus. reflexivity.
Qed.

Lemma sum_list_app (l l' : list Q) :
  sum_list (l ++ l') == sum_list l + sum_list l'.
Proof.
  induction l as [|x l IH]; simpl; [ring|]. rewrite IH. ring.
Qed.

Lemma sum_list_perm (l l' : list Q) :
  Permutation l l' -> sum_list l == sum_list l'.
Proof.
  induction 1 as [| x l l' _ IH | x y l | l l' l'' _ IH1 _ IH2]; simpl.
  - reflexivity.
  - rewrite IH. reflexivity.
  - ring.
  - rewrite IH1. exact IH2.
Qed.

Lemma sum_list_nonneg (l : list Q) :
  (forall x, In x l -> 0 <= x) -> 0 <= sum_list l.
Proof.
  induction l as [|x l IH]; simpl; intro H; [lra|].
  assert (0 <= x) by (apply H; left; reflexivity).
  assert (0 <= sum_list l) by (apply IH; intros; apply H; right; assumption).
  lra.
Qed.

Lemma total_sum_list (m : JsMap.t) : JsMap.total m = sum_list (map snd m).
Proof.
  unfold JsMap.total.
  induction m as [|e m IH]; simpl; [reflexivity|].
  rewrite IH. reflexivity.
Qed.

(** The masses that [get] finds along the keys are the masses of the
    entries. *)
Lemma masses_of_entries (m : JsMap.t) (entries : list (Q * Q)) :
  JsMap.wf m -> (forall e, In e entries -> In e m) ->
  map (fun v => JsMap.get_nn v m) (map fst entries) = map snd entries.
Proof.
  intros Hwf Hin. rewrite map_map. apply map_ext_in.
  intros [v mass] He. simpl. apply JsMapFacts.get_nn_In; auto.
Qed.

(** ** The weighted sum is the formula of the specification *)

Section WeightedSum.

Variable g : Q -> Q.

Lemma Math_pow_compat (x y : Q) (A : Z) :
  x == y -> Math_pow x A == Math_pow y A.
Proof. intro H. unfold Math_pow. rewrite H. reflexivity. Qed.

Lemma weighted_compat (A : Z) (vs : list Q) :
  forall c c', c == c' -> weighted g A c vs == weighted g A c' vs.
Proof.
  induction vs as [|v vs IH]; intros c c' H; simpl; [reflexivity|].
  rewrite (IH (c + g v) (c' + g v)) by (rewrite H; reflexivity).
  rewrite (Math_pow_compat (c + g v) (c' + g v)) by (rewrite H; reflexivity).
  rewrite (Math_pow_compat c c') by exact H.
  reflexivity.
Qed.

Lemma spec_F_prefix (pre suf : list Q) :
  spec_F (map g (pre ++ suf)) (length pre) = sum_list (map g pre).
Proof.
  unfold spec_F. rewrite map_app, firstn_app, length_map, Nat.sub_diag.
  rewrite firstn_all2 by (rewrite length_map; lia).
  simpl. rewrite app_nil_r. reflexivity.
Qed.

Lemma weighted_spec_from (A : Z) (suf : list Q) :
  forall (pre all : list Q) (c : Q),
    all = pre ++ suf ->
    c == sum_list (map g pre) ->
    weighted g A c suf
    == sum_list
         (map (fun i => nth i all 0 *
                        (spec_F (map g all) (S i) ^ A
                         - spec_F (map g all) i ^ A))
              (seq (length pre) (length suf))).
Proof.
  induction suf as [|v suf IH]; intros pre all c Hall Hc; simpl;
    [reflexivity|].
  rewrite (IH (pre ++ [v]) all (c + g v)).
  - rewrite length_app. simpl length. rewrite Nat.add_1_r.
    apply Qplus_comp; [|reflexivity].
    subst all. rewrite nth_middle.
    rewrite (spec_F_prefix pre (v :: suf)).
    replace (pre ++ v :: suf) with ((pre ++ [v]) ++ suf)
      by (rewrite <- app_assoc; reflexivity).
    replace (S (length pre)) with (length (pre ++ [v]))
      by (rewrite length_app; simpl; lia).
    rewrite (spec_F_prefix (pre ++ [v]) suf).
    rewrite map_app, sum_list_app. simpl.
    unfold Math_pow.
    setoid_replace (sum_list (map g pre) + (g v + 0)) with (c + g v)
      by (rewrite Hc; ring).
    rewrite <- Hc. reflexivity.
  - subst all. rewrite <- app_assoc. reflexivity.
  - rewrite map_app, sum_list_app. simpl. rewrite Hc. ring.
Qed.

Lemma weighted_spec (A : Z) (vs : list Q) :
  weighted g A 0 vs == spec_expectedMax vs (map g vs) A.
Proof.
  unfold spec_expectedMax.
  apply (weighted_spec_from A vs [] vs 0); reflexivity.
Qed.

End WeightedSum.

(** ** The weighted sum grows with [A] *)

Section Monotone.

Variable g : Q -> Q.

Lemma Math_pow_succ (x : Q) (A : Z) :
  (1 <= A)%Z -> Math_pow x (A + 1) == Math_pow x A * x.
Proof.
  intro HA. unfold Math_pow.
  rewrite Qpower_plus' by lia. rewrite Qpower_1_r. reflexivity.
Qed.

(** [x ^ A - x ^ (A + 1)] is not negative on [0, 1]. *)
Lemma pow_gap_nonneg (x : Q) (A : Z) :
  0 <= x -> x <= 1 -> 0 <= Math_pow x A * (1 - x).
Proof.
  intros H0 H1. apply Qmult_le_0_compat; [|lra].
  unfold Math_pow. apply Qpower_0_le. exact H0.
Qed.

Lemma weighted_succ_from (A : Z) (l : list Q) :
  (1 <= A)%Z ->
  forall (v c : Q),
    StronglySorted Qle (v :: l) ->
    (forall x, In x (v :: l) -> 0 <= g x) ->
    0 <= c ->
    c + sum_list (map g (v :: l)) == 1 ->
    v * (Math_pow c A * (1 - c))
    <= weighted g (A + 1) c (v :: l) - weighted g A c (v :: l).
Proof.
  intro HA. induction l as [|w l IH]; intros v c Hs Hg Hc Hsum.
  - simpl in *. rewrite !Math_pow_succ by exact HA.
    assert (E : c + g v == 1) by lra.
    assert (E1 : Math_pow (c + g v) A == 1).
    { rewrite (Math_pow_compat (c + g v) 1) by exact E.
      unfold Math_pow. apply Qpower_1. }
    rewrite E1, E.
    set (P := Math_pow c A). lra.
  - apply StronglySorted_inv in Hs. destruct Hs as [Hs Hv].
    assert (Hvw : v <= w).
    { rewrite Forall_forall in Hv. apply Hv. left. reflexivity. }
    assert (Hgv : 0 <= g v) by (apply Hg; left; reflexivity).
    assert (Hrest : 0 <= sum_list (map g (w :: l))).
    { apply sum_list_nonneg. intros x Hx. apply in_map_iff in Hx.
      destruct Hx as (y & <- & Hy). apply Hg. right. exact Hy. }
    specialize (IH w (c + g v) Hs).
    assert (IH' := IH (fun x Hx => Hg x (or_intror Hx))).
    clear IH.
    assert (Hc' : 0 <= c + g v) by lra.
    assert (Hsum' : c + g v + sum_list (map g (w :: l)) == 1).
    { simpl in Hsum |- *. lra. }
    specialize (IH' Hc' Hsum').
    pose proof (pow_gap_nonneg (c + g v) A Hc') as Hgap.
    assert (Hle1 : c + g v <= 1) by lra.
    specialize (Hgap Hle1).
    assert (Hprod : 0 <= (w - v) * (Math_pow (c + g v) A * (1 - (c + g v)))).
    { apply Qmult_le_0_compat; [lra | exact Hgap]. }
    change (weighted g (A + 1) c (v :: w :: l))
      with (v * (Math_pow (c + g v) (A + 1) - Math_pow c (A + 1))
            + weighted g (A + 1) (c + g v) (w :: l)).
    change (weighted g A c (v :: w :: l))
      with (v * (Math_pow (c + g v) A - Math_pow c A)
            + weighted g A (c + g v) (w :: l)).
    rewrite !Math_pow_succ by exact HA.
    set (W1 := weighted g (A + 1) (c + g v) (w :: l)) in *.
    set (W0 := weighted g A (c + g v) (w :: l)) in *.
    set (P := Math_pow (c + g v) A) in *.
    set (P0 := Math_pow c A) in *.
    set (x := g v) in *.
    nra.
Qed.

Lemma weighted_succ (A : Z) (vs : list Q) :
  (1 <= A)%Z ->
  StronglySorted Qle vs ->
  (forall x, In x vs -> 0 <= g x) ->
  sum_list (map g vs) == 1 ->
  weighted g A 0 vs <= weighted g (A + 1) 0 vs.
Proof.
  intros HA Hs Hg Hsum. destruct vs as [|v l]; [simpl; lra|].
  pose proof (weighted_succ_from A l HA v 0 Hs Hg (Qle_refl 0)) as H.
  assert (E : 0 + sum_list (map g (v :: l)) == 1) by lra.
  specialize (H E).
  assert (Z0 : Math_pow 0 A == 0).
  { unfold Math_pow. apply Qpower_0. lia. }
  rewrite Z0 in H. lra.
Qed.

Lemma weighted_mono (A1 A2 : Z) (vs : list Q) :
  (1 <= A1 <= A2)%Z ->
  StronglySorted Qle vs ->
  (forall x, In x vs -> 0 <= g x) ->
  sum_list (map g vs) == 1 ->
  weighted g A1 0 vs <= weighted g A2 0 vs.
Proof.
  intros [H1 H2] Hs Hg Hsum.
  replace A2 with (A1 + Z.of_nat (Z.to_nat (A2 - A1)))%Z by lia.
  induction (Z.to_nat (A2 - A1)) as [|n IH].
  - rewrite Z.add_0_r. apply Qle_refl.
  - apply Qle_trans with (weighted g (A1 + Z.of_nat n) 0 vs); [exact IH|].
    replace (A1 + Z.of_nat (S n))%Z with (A1 + Z.of_nat n + 1)%Z by lia.
    apply weighted_succ; try assumption. lia.
Qed.

End Monotone.

(** ** [sensitivityAnalysis] *)

Lemma StronglySorted_map_seq {T : Type} (R : T -> T -> Prop) (f : nat -> T) :
  (forall i j, (i < j)%nat -> R (f i) (f j)) ->
  forall n a, StronglySorted R (map f (seq a n)).
Proof.
  intros Hf. induction n as [|n IH]; intro a; simpl; constructor.
  - apply IH.
  - rewrite Forall_forall. intros x Hx. apply in_map_iff in Hx.
    destruct Hx as (j & <- & Hj). apply in_seq in Hj. apply Hf. lia.
Qed.

Lemma StronglySorted_snoc {T : Type} (R : T -> T -> Prop) (l : list T) (x : T) :
  StronglySorted R l -> Forall (fun y => R y x) l ->
  StronglySorted R (l ++ [x]).
Proof.
  induction 1 as [|y l Hs IH Hy]; intro Hx; simpl.
  - repeat constructor.
  - inversion Hx as [|? ? Hyx Hlx]; subst. constructor.
    + apply IH. exact Hlx.
    + apply Forall_app. split; [exact Hy|]. repeat constructor. exact Hyx.
Qed.

Section Sensitivity.

Variables (N A : Z) (C step : Q).

Let maxP : Q := Math_min 1 ((C - 1) / 2).
Let numSteps : Z := Math_floor (maxP / step).

(** The grid loop pushes, in order, the points of the clamped grid whose
    expectation is not [-Infinity]. *)
Lemma grid_loop_filter (l : list Z) :
  forall results,
    fold_left (grid_step N A C step maxP) l results
    = results ++
      filter (fun pt => is_finite (pt_expectation pt))
             (map (fun i => point_at N A C (clamp maxP (inject_Z i * step)))
                  l).
Proof.
  induction l as [|i l IH]; intro results; simpl.
  - rewrite app_nil_r. reflexivity.
  - rewrite IH. unfold grid_step, push_if_finite, point_at, clamp. simpl.
    destruct (is_finite _); [|reflexivity].
    rewrite <- app_assoc. reflexivity.
Qed.

(** Every [p] up to [maxP] is feasible. *)
Lemma feasible_below_maxP (p : Q) :
  p <= maxP -> is_finite (calculateExpectationForP p N A C) = true.
Proof.
  intro Hp. unfold calculateExpectationForP.
  pose proof (maxP_feasible C) as Hm. fold maxP in Hm.
  unfold calculateR in *.
  destruct (Qlt_bool (C - 2 * p) 1) eqn:E; [|reflexivity].
  qbool. set (m := maxP) in *. lra.
Qed.

Hypothesis HC : 1 <= C.
Hypothesis Hstep : 0 < step.

Lemma numSteps_nonneg : (0 <= numSteps)%Z.
Proof.
  unfold numSteps, Math_floor.
  change 0%Z with (Qfloor 0). apply Qfloor_resp_le.
  pose proof (maxP_nonneg C HC) as Hm. fold maxP in Hm.
  apply Qle_shift_div_l; lra.
Qed.

Lemma lastP_below_maxP : inject_Z numSteps * step <= maxP.
Proof.
  pose proof (Qfloor_le (maxP / step)) as H.
  fold (Math_floor (maxP / step)) in H. fold numSteps in H.
  apply (Qmult_le_compat_r _ _ step) in H; [|lra].
  setoid_replace (maxP / step * step) with maxP in H by (field; lra).
  exact H.
Qed.

Lemma grid_below_maxP (i : Z) :
  (i <= numSteps)%Z -> inject_Z i * step <= maxP.
Proof.
  intro Hi. apply Qle_trans with (inject_Z numSteps * step).
  - apply Qmult_le_compat_r; [|lra]. rewrite <- Zle_Qle. exact Hi.
  - exact lastP_below_maxP.
Qed.

Lemma clamp_grid (i : Z) :
  (i <= numSteps)%Z -> clamp maxP (inject_Z i * step) = inject_Z i * step.
Proof.
  intro Hi. unfold clamp.
  destruct (Qlt_bool maxP (inject_Z i * step)) eqn:E; [|reflexivity].
  qbool. pose proof (grid_below_maxP i Hi). lra.
Qed.

(** In exact arithmetic the clamp never fires and no grid point is
    filtered out. *)
Lemma grid_points_all :
  filter (fun pt => is_finite (pt_expectation pt))
         (map (fun i => point_at N A C (clamp maxP (inject_Z i * step)))
              (indices (Z.to_nat (numSteps + 1))))
  = map (fun i => point_at N A C (inject_Z i * step))
        (indices (Z.to_nat (numSteps + 1))).
Proof.
  assert (H : forall l : list Z,
             (forall i, In i l -> (i <= numSteps)%Z) ->
             filter (fun pt => is_finite (pt_expectation pt))
               (map (fun i => point_at N A C (clamp maxP (inject_Z i * step)))
                    l)
             = map (fun i => point_at N A C (inject_Z i * step)) l).
  { induction l as [|i l IH]; intro Hl; simpl; [reflexivity|].
    rewrite clamp_grid by (apply Hl; left; reflexivity).
    rewrite feasible_below_maxP
      by (apply grid_below_maxP; apply Hl; left; reflexivity).
    rewrite IH by (intros; apply Hl; right; assumption).
    reflexivity. }
  apply H. intros i Hi. apply indices_In in Hi.
  pose proof numSteps_nonneg. lia.
Qed.

(** The function, as the grid followed by the extra point at [maxP] when
    the grid stops short of it. *)
Lemma sensitivityAnalysis_grid :
  sensitivityAnalysis N A C step
  = filter (fun pt => is_finite (pt_expectation pt))
           (map (fun i => point_at N A C (clamp maxP (inject_Z i * step)))
                (indices (Z.to_nat (numSteps + 1))))
    ++ (if Qlt_bool (inject_Z numSteps * step) maxP
        then [point_at N A C maxP] else []).
Proof.
  unfold sensitivityAnalysis.
  apply Qlt_bool_false_iff in HC. rewrite HC.
  fold maxP. fold numSteps.
  rewrite grid_loop_filter. simpl app.
  destruct (Qlt_bool (inject_Z numSteps * step) maxP);
    [|rewrite app_nil_r; reflexivity].
  unfold push_if_finite.
  rewrite feasible_below_maxP by apply Qle_refl.
  reflexivity.
Qed.

End Sensitivity.

(** The [p] of the grid points increase. *)
Lemma grid_increasing (step : Q) (n : nat) :
  0 < step ->
  StronglySorted Qlt (map (fun i => inject_Z i * step) (indices n)).
Proof.
  intro Hstep. unfold indices. rewrite map_map.
  apply StronglySorted_map_seq. intros i j Hij.
  apply Qmult_lt_compat_r; [exact Hstep|].
  rewrite <- Zlt_Qlt. lia.
Qed.

(** ** Auxiliary facts for the claims *)

Lemma NoDupA_map_seq (f : nat -> Q) :
  (forall i j, f i == f j -> i = j) ->
  forall n a, NoDupA Qeq (map f (seq a n)).
Proof.
  intro Hf. induction n as [|n IH]; intro a; simpl; constructor.
  - intro Hin. apply InA_alt in Hin. destruct Hin as (y & Heq & Hin).
    apply in_map_iff in Hin. destruct Hin as (j & <- & Hj).
    apply in_seq in Hj. apply Hf in Heq. lia.
  - apply IH.
Qed.

Lemma ascending_values (entries : list (Q * Q)) :
  ascending entries -> StronglySorted Qlt (map fst entries).
Proof.
  induction 1 as [|e l Hs IH He]; simpl; constructor; [exact IH|].
  rewrite Forall_forall in *. intros x Hx.
  apply in_map_iff in Hx. destruct Hx as (e' & <- & He').
  apply He. exact He'.
Qed.

(** The sorted keys of a map whose entries are [entries] in ascending
    order. *)
Lemma sorted_keys_of_entries (m : JsMap.t) (entries : list (Q * Q)) :
  Permutation entries m -> ascending entries ->
  JsMap.wf m /\ sort_ascending (JsMap.keys m) = map fst entries.
Proof.
  intros Hp Ha.
  pose proof (ascending_values entries Ha) as Hlt.
  assert (Hk : Permutation (map fst entries) (JsMap.keys m))
    by (apply Permutation_map; exact Hp).
  split.
  - apply NoDupA_perm with (map fst entries); [exact Hk|].
    apply sorted_lt_NoDupA. exact Hlt.
  - symmetry. apply sorted_unique.
    + exact Hlt.
    + apply sort_ascending_sorted.
    + rewrite Hk. symmetry. apply sort_ascending_perm.
Qed.

Lemma weighted_masses (m : JsMap.t) :
  JsMap.wf m ->
  (forall e, In e m -> 0 <= snd e) ->
  JsMap.total m == 1 ->
  let g := fun v => JsMap.get_nn v m in
  let vs := sort_ascending (JsMap.keys m) in
  (forall x, In x vs -> 0 <= g x) /\ sum_list (map g vs) == 1.
Proof.
  intros Hwf Hpos Htot g vs. split.
  - intros x Hx.
    apply (Permutation_in _ (sort_ascending_perm _)) in Hx.
    apply in_map_iff in Hx. destruct Hx as ([k v] & <- & He).
    unfold g. simpl. rewrite (JsMapFacts.get_nn_In k v m Hwf He).
    apply (Hpos (k, v) He).
  - rewrite (sum_list_perm (map g vs) (map g (JsMap.keys m)))
      by (apply Permutation_map, sort_ascending_perm).
    unfold g, JsMap.keys. rewrite (masses_of_entries m m Hwf) by auto.
    rewrite <- total_sum_list. exact Htot.
Qed.

(** ** [calculateMaxExpectation] in a rounding arithmetic

    The rounded loops have closed forms like the exact ones. *)

Section ClosedForm.
Variable rnd : Q -> Q.
Variable pow_r : Q -> Z -> Q.
Variable sDistribution : JsMap.t.
Variable A : Z.
Let g (v : Q) : Q := JsMap.get_nn v sDistribution.

Lemma cdf_loop_rounded_from (vs : list Q) :
  forall (m : JsMap.t) (c : Q),
    (forall v, InA Qeq v vs -> ~ InA Qeq v (JsMap.keys m)) -> NoDupA Qeq vs ->
    fst (fold_left (cdf_body_rounded rnd sDistribution) vs (m, c))
    = m ++ cumulative_entries_rounded rnd g c vs.
Proof.
  induction vs as [|v vs IH]; intros m c Hf Hnd; simpl.
  - rewrite app_nil_r. reflexivity.
  - unfold cdf_body_rounded at 2. simpl.
    rewrite JsMapFacts.set_fresh by (apply Hf; left; reflexivity).
    rewrite IH.
    + rewrite <- app_assoc. reflexivity.
    + apply fresh_step with (v := v); assumption.
    + inversion Hnd; assumption.
Qed.

Lemma expectation_loop_rounded_from (vs : list Q) :
  forall (pre : JsMap.t) (c e : Q),
    (forall v, InA Qeq v vs -> ~ InA Qeq v (JsMap.keys pre)) ->
    NoDupA Qeq vs ->
    fst (fold_left
           (expectation_body_rounded rnd pow_r
              (pre ++ cumulative_entries_rounded rnd g c vs) A)
           vs (e, c))
    = weighted_rounded rnd pow_r g A c e vs.
Proof.
  induction vs as [|v vs IH]; intros pre c e Hf Hnd; simpl.
  - reflexivity.
  - assert (Hget : JsMap.get_nn v
                     (pre ++ (v, rnd (c + g v))
                          :: cumulative_entries_rounded rnd g (rnd (c + g v)) vs)
                   = rnd (c + g v)).
    { unfold JsMap.get_nn.
      rewrite JsMapFacts.get_app_fresh by (apply Hf; left; reflexivity).
      simpl. rewrite Qeq_bool_refl. reflexivity. }
    unfold expectation_body_rounded at 2. simpl. rewrite Hget.
    replace (pre ++ (v, rnd (c + g v))
                 :: cumulative_entries_rounded rnd g (rnd (c + g v)) vs)
      with ((pre ++ [(v, rnd (c + g v))])
              ++ cumulative_entries_rounded rnd g (rnd (c + g v)) vs)
      by (rewrite <- app_assoc; reflexivity).
    rewrite IH.
    + reflexivity.
    + apply fresh_step with (v := v); assumption.
    + inversion Hnd; assumption.
Qed.

Lemma calculateMaxExpectation_rounded_weighted :
  JsMap.wf sDistribution ->
  length sDistribution <> 1%nat ->
  calculateMaxExpectation_rounded rnd pow_r sDistribution A
  = weighted_rounded rnd pow_r g A 0 0
      (sort_ascending (JsMap.keys sDistribution)).
Proof.
  intros Hwf Hlen. unfold calculateMaxExpectation_rounded.
  set (vs := sort_ascending (JsMap.keys sDistribution)).
  assert (Hnd : NoDupA Qeq vs).
  { apply NoDupA_perm with (JsMap.keys sDistribution); [|exact Hwf].
    symmetry. apply sort_ascending_perm. }
  assert (Hvs : length vs <> 1%nat).
  { unfold vs. rewrite (Permutation_length (sort_ascending_perm _)).
    unfold JsMap.keys. rewrite length_map. exact Hlen. }
  assert (Hfresh : forall v, InA Qeq v vs -> ~ InA Qeq v (JsMap.keys JsMap.empty)).
  { intros v _ Hin. inversion Hin. }
  assert (Hmain :
    fst (fold_left
           (expectation_body_rounded rnd pow_r
              (fst (fold_left (cdf_body_rounded rnd sDistribution) vs
                              (JsMap.empty, 0))) A) vs (0, 0))
    = weighted_rounded rnd pow_r g A 0 0 vs).
  { rewrite (cdf_loop_rounded_from vs JsMap.empty 0 Hfresh Hnd).
    apply (expectation_loop_rounded_from vs JsMap.empty 0 0 Hfresh Hnd). }
  destruct vs as [|v [|w vs']]; try exact Hmain.
  exfalso. apply Hvs. reflexivity.
Qed.

End ClosedForm.

(** *** Powers on [[0, 2]] *)

Lemma Math_pow_step (x : Q) (A : Z) :
  (0 <= A)%Z -> Math_pow x (A + 1) == Math_pow x A * x.
Proof.
  intro HA. unfold Math_pow.
  rewrite Qpower_plus' by lia. rewrite Qpower_1_r. reflexivity.
Qed.

Lemma Math_pow_nonneg (x : Q) (A : Z) : 0 <= x -> 0 <= Math_pow x A.
Proof. intro H. unfold Math_pow. apply Qpower_0_le. exact H. Qed.

Lemma Math_pow_nat_le (x y : Q) (n : nat) :
  0 <= x -> x <= y -> Math_pow x (Z.of_nat n) <= Math_pow y (Z.of_nat n).
Proof.
  intros Hx Hxy. induction n as [|n IH]; [unfold Math_pow; simpl; lra|].
  rewrite Nat2Z.inj_succ, <- Z.add_1_r.
  rewrite !Math_pow_step by lia.
  pose proof (Math_pow_nonneg x (Z.of_nat n) Hx).
  nra.
Qed.

Lemma Math_pow_le (x y : Q) (A : Z) :
  (0 <= A)%Z -> 0 <= x -> x <= y -> Math_pow x A <= Math_pow y A.
Proof.
  intros HA Hx Hxy. rewrite <- (Z2Nat.id A HA).
  apply Math_pow_nat_le; assumption.
Qed.

Lemma Math_pow_le_1 (x : Q) (A : Z) :
  (0 <= A)%Z -> 0 <= x -> x <= 1 -> Math_pow x A <= 1.
Proof.
  intros HA H0 H1.
  apply Qle_trans with (Math_pow 1 A); [apply Math_pow_le; assumption|].
  unfold Math_pow. rewrite Qpower_1. apply Qle_refl.
Qed.

Lemma pow_lipschitz_nonneg (A : Z) : (0 <= A)%Z -> 0 <= pow_lipschitz A.
Proof.
  intro HA. unfold pow_lipschitz. apply Qmult_le_0_compat.
  - change 0 with (inject_Z 0). rewrite <- Zle_Qle. exact HA.
  - apply Math_pow_nonneg. lra.
Qed.

Lemma pow_lipschitz_succ (A : Z) :
  (1 <= A)%Z ->
  pow_lipschitz (A + 1) == 2 * pow_lipschitz A + Math_pow 2 A.
Proof.
  intro HA. unfold pow_lipschitz.
  replace (A + 1 - 1)%Z with A by lia.
  rewrite inject_Z_plus.
  assert (E : Math_pow 2 A == Math_pow 2 (A - 1) * 2).
  { replace A with (A - 1 + 1)%Z at 1 by lia. apply Math_pow_step. lia. }
  rewrite E. change (inject_Z 1) with 1. ring.
Qed.

Lemma Math_pow_lipschitz_nat (x y : Q) (m : nat) :
  0 <= x -> x <= 2 -> 0 <= y -> y <= 2 ->
  Qabs (Math_pow x (Z.of_nat m + 1) - Math_pow y (Z.of_nat m + 1))
  <= pow_lipschitz (Z.of_nat m + 1) * Qabs (x - y).
Proof.
  intros Hx0 Hx2 Hy0 Hy2. induction m as [|m IH].
  - change (Z.of_nat 0 + 1)%Z with 1%Z.
    assert (E : pow_lipschitz 1 == 1) by reflexivity.
    rewrite E. unfold Math_pow. rewrite !Qpower_1_r.
    lra.
  - replace (Z.of_nat (S m) + 1)%Z with (Z.of_nat m + 1 + 1)%Z by lia.
    rewrite pow_lipschitz_succ by lia.
    rewrite !(Math_pow_step _ (Z.of_nat m + 1)) by lia.
    pose proof (Math_pow_nonneg y (Z.of_nat m + 1) Hy0) as Hp0.
    pose proof (Math_pow_le y 2 (Z.of_nat m + 1) ltac:(lia) Hy0 Hy2) as Hp2.
    pose proof (pow_lipschitz_nonneg (Z.of_nat m + 1) ltac:(lia)) as HL.
    pose proof (Qabs_nonneg (x - y)) as Hd.
    pose proof (Qle_Qabs (x - y)) as Hd1.
    pose proof (Qle_Qabs (- (x - y))) as Hd2. rewrite Qabs_opp in Hd2.
    apply Qabs_Qle_condition in IH.
    apply Qabs_Qle_condition.
    set (L := pow_lipschitz (Z.of_nat m + 1)) in *.
    set (P := Math_pow 2 (Z.of_nat m + 1)) in *.
    set (px := Math_pow x (Z.of_nat m + 1)) in *.
    set (py := Math_pow y (Z.of_nat m + 1)) in *.
    set (d := Qabs (x - y)) in *.
    clearbody L P px py d.
    destruct IH as [IH1 IH2].
    assert (E : px * x - py * y == (px - py) * x + py * (x - y)) by ring.
    rewrite E.
    assert (B1 : (px - py) * x <= L * d * 2) by nra.
    assert (B2 : - (L * d * 2) <= (px - py) * x) by nra.
    assert (B3 : py * (x - y) <= P * d) by nra.
    assert (B4 : - (P * d) <= py * (x - y)) by nra.
    split; lra.
Qed.

Lemma Math_pow_lipschitz (x y : Q) (A : Z) :
  (1 <= A)%Z -> 0 <= x -> x <= 2 -> 0 <= y -> y <= 2 ->
  Qabs (Math_pow x A - Math_pow y A) <= pow_lipschitz A * Qabs (x - y).
Proof.
  intros HA Hx0 Hx2 Hy0 Hy2.
  replace A with (Z.of_nat (Z.to_nat (A - 1)) + 1)%Z by lia.
  apply Math_pow_lipschitz_nat; assumption.
Qed.

(** *** The distance between the rounded and the exact result *)

Lemma Qabs_bound (x b : Q) : Qabs x <= b -> - b <= x /\ x <= b.
Proof. intro H. apply Qabs_Qle_condition in H. exact H. Qed.

Lemma Qabs_bounded (x b : Q) : - b <= x -> x <= b -> Qabs x <= b.
Proof. intros H1 H2. apply Qabs_Qle_condition. split; assumption. Qed.

Lemma Qmult_le_nonneg_l (l x y : Q) : 0 <= l -> x <= y -> l * x <= l * y.
Proof. intros Hl Hxy. nra. Qed.

Lemma weighted_cons (g : Q -> Q) (A : Z) (c v : Q) (vs : list Q) :
  weighted g A c (v :: vs)
  = v * (Math_pow (c + g v) A - Math_pow c A) + weighted g A (c + g v) vs.
Proof. reflexivity. Qed.

Lemma weighted_rounded_cons (rnd : Q -> Q) (pow_r : Q -> Z -> Q) (g : Q -> Q)
      (A : Z) (c e v : Q) (vs : list Q) :
  weighted_rounded rnd pow_r g A c e (v :: vs)
  = weighted_rounded rnd pow_r g A (rnd (c + g v))
      (rnd (e + rnd (v * rnd (pow_r (rnd (c + g v)) A - pow_r c A)))) vs.
Proof. reflexivity. Qed.

Section ExpectationError.

Variable rnd : Q -> Q.
Variable pow_r : Q -> Z -> Q.
Variable g : Q -> Q.
Variable A : Z.
Variables eps eps_p V : Q.
Variable n : nat.

Hypothesis A_pos : (1 <= A)%Z.
Hypothesis rnd_near : forall x, Qabs x <= 3 * V + 2 -> Qabs (rnd x - x) <= eps.
Hypothesis rnd_nonneg : forall x, 0 <= x -> 0 <= rnd x.
Hypothesis pow_near :
  forall x, 0 <= x -> x <= 2 -> Qabs (pow_r x A - Math_pow x A) <= eps_p.
Hypothesis V_ge : 1 <= V.
Hypothesis n_pos : (1 <= n)%nat.
Hypothesis small : expectation_error eps eps_p V n A <= 1.

Let N : Q := inject_Z (Z.of_nat n).
Let delta : Q := step_error eps eps_p n A.
Let X : Q := V * delta + 2 * eps.

Lemma eps_nonneg : 0 <= eps.
Proof.
  apply Qle_trans with (Qabs (rnd 0 - 0)); [apply Qabs_nonneg|].
  apply rnd_near. apply Qabs_bounded; lra.
Qed.

Lemma eps_p_nonneg : 0 <= eps_p.
Proof.
  apply Qle_trans with (Qabs (pow_r 0 A - Math_pow 0 A)); [apply Qabs_nonneg|].
  apply pow_near; lra.
Qed.

Lemma N_ge : 1 <= N.
Proof.
  unfold N. change 1 with (inject_Z 1). rewrite <- Zle_Qle. lia.
Qed.

Lemma delta_bounds : 0 <= delta /\ delta <= 1 /\ N * eps <= 1 # 2 /\ N * X <= 1.
Proof.
  pose proof eps_nonneg as He. pose proof eps_p_nonneg as Hp.
  pose proof N_ge as HN.
  pose proof (pow_lipschitz_nonneg A ltac:(lia)) as HL.
  assert (Hsmall : N * X <= 1) by exact small.
  assert (Hd : 0 <= delta).
  { unfold delta, step_error. fold N.
    assert (0 <= pow_lipschitz A * (N * eps)).
    { apply Qmult_le_0_compat; [exact HL|]. apply Qmult_le_0_compat; lra. }
    lra. }
  assert (HVd : 0 <= V * delta) by (apply Qmult_le_0_compat; lra).
  assert (HX : 0 <= X) by (unfold X; lra).
  assert (HX1 : X <= 1) by nra.
  assert (HNe : N * (2 * eps) <= 1).
  { apply Qle_trans with (N * X); [|exact Hsmall].
    apply Qmult_le_l; [lra|]. unfold X. lra. }
  repeat split; try assumption; [|lra].
  unfold X in HX1. nra.
Qed.

(** One step of the first loop. *)
Lemma cumulative_step (c ch gv a : Q) :
  0 <= c -> 0 <= gv -> c + gv <= 1 -> 0 <= ch -> Qabs (ch - c) <= a ->
  a <= 1 ->
  0 <= rnd (ch + gv) /\ Qabs (rnd (ch + gv) - (c + gv)) <= a + eps.
Proof.
  intros Hc Hg Hsum Hch Ha Ha1.
  apply Qabs_bound in Ha. destruct Ha as [Ha1' Ha2].
  split; [apply rnd_nonneg; lra|].
  assert (Hr : Qabs (rnd (ch + gv) - (ch + gv)) <= eps).
  { apply rnd_near. apply Qabs_bounded; lra. }
  apply Qabs_bound in Hr. destruct Hr as [Hr1 Hr2].
  apply Qabs_bounded; lra.
Qed.

(** [pow_r] at a rounded cumulative mass. *)
Lemma power_near (c ch a : Q) :
  0 <= c -> c <= 1 -> 0 <= ch -> Qabs (ch - c) <= a -> a <= 1 ->
  Qabs (pow_r ch A - Math_pow c A) <= eps_p + pow_lipschitz A * a.
Proof.
  intros Hc Hc1 Hch Ha Ha1.
  pose proof (Qabs_bound _ _ Ha) as [Ha1' Ha2].
  assert (Hch2 : ch <= 2) by lra.
  pose proof (pow_near ch Hch Hch2) as H1.
  pose proof (Math_pow_lipschitz ch c A A_pos Hch Hch2 Hc ltac:(lra)) as H2.
  pose proof (pow_lipschitz_nonneg A ltac:(lia)) as HL.
  pose proof (Qabs_nonneg (ch - c)) as Hq0.
  assert (H3 : pow_lipschitz A * Qabs (ch - c) <= pow_lipschitz A * a).
  { apply Qmult_le_nonneg_l; assumption. }
  apply Qabs_bound in H1. apply Qabs_bound in H2.
  destruct H1, H2. apply Qabs_bounded; lra.
Qed.

(** The rounded probability that the maximum is the current value. *)
Lemma probability_step (c c' ch ch' a : Q) :
  0 <= c -> c <= c' -> c' <= 1 -> 0 <= ch -> 0 <= ch' ->
  Qabs (ch - c) <= a -> Qabs (ch' - c') <= a -> a <= N * eps ->
  let p := Math_pow c' A - Math_pow c A in
  0 <= p /\ p <= 1 /\
  Qabs (rnd (pow_r ch' A - pow_r ch A) - p) <= delta.
Proof.
  intros Hc Hcc Hc1 Hch Hch' Ha Ha' HaN p.
  destruct delta_bounds as (Hd0 & Hd1 & HNe & _).
  pose proof eps_nonneg as He. pose proof eps_p_nonneg as Hp.
  pose proof (pow_lipschitz_nonneg A ltac:(lia)) as HL.
  pose proof (Math_pow_nonneg c A Hc) as HP0.
  pose proof (Math_pow_le c c' A ltac:(lia) Hc Hcc) as HPP.
  pose proof (Math_pow_le_1 c' A ltac:(lia) ltac:(lra) Hc1) as HP1.
  assert (Ha1 : a <= 1) by lra.
  pose proof (power_near c ch a Hc ltac:(lra) Hch Ha Ha1) as H1.
  pose proof (power_near c' ch' a ltac:(lra) Hc1 Hch' Ha' Ha1) as H2.
  pose proof (Qmult_le_nonneg_l (pow_lipschitz A) a (N * eps) HL HaN) as HLa.
  assert (Hdelta : delta == eps + 2 * (eps_p + pow_lipschitz A * (N * eps)))
    by reflexivity.
  apply Qabs_bound in H1. apply Qabs_bound in H2.
  destruct H1 as [H1 H1'], H2 as [H2 H2'].
  assert (Hr : Qabs (rnd (pow_r ch' A - pow_r ch A)
                     - (pow_r ch' A - pow_r ch A)) <= eps).
  { apply rnd_near. apply Qabs_bounded; unfold p in *; lra. }
  apply Qabs_bound in Hr. destruct Hr as [Hr Hr'].
  unfold p. repeat split; try lra.
  apply Qabs_bounded; lra.
Qed.

(** One step of the second loop. *)
Lemma expectation_step (v p ph P P' e eh b : Q) :
  Qabs v <= V -> 0 <= p -> p == P' - P -> 0 <= P -> P' <= 1 ->
  Qabs (ph - p) <= delta ->
  Qabs e <= V * P -> Qabs (eh - e) <= b -> 0 <= b -> b + X <= 1 ->
  Qabs (e + v * p) <= V * P' /\
  Qabs (rnd (eh + rnd (v * ph)) - (e + v * p)) <= b + X.
Proof.
  intros Hv Hp0 Hp HP0 HP1 Hph He Heh Hb0 Hb.
  destruct delta_bounds as (Hd0 & Hd1 & HNe & _).
  pose proof eps_nonneg as Heps.
  apply Qabs_bound in Hv. destruct Hv as [Hv Hv'].
  apply Qabs_bound in Hph. destruct Hph as [Hph Hph'].
  apply Qabs_bound in He. destruct He as [He He'].
  apply Qabs_bound in Heh. destruct Heh as [Heh Heh'].
  assert (Hvp : - (V * p) <= v * p /\ v * p <= V * p) by (split; nra).
  assert (Hvd : - (V * delta) <= v * (ph - p) /\ v * (ph - p) <= V * delta)
    by (split; nra).
  assert (Hvph : v * ph == v * p + v * (ph - p)) by ring.
  assert (HVp : V * p <= V) by nra.
  assert (HVd : V * delta <= V) by nra.
  assert (HVP : V * P' <= V) by nra.
  assert (HVPp : V * P' == V * P + V * p) by (rewrite Hp; ring).
  destruct Hvp as [Hvp Hvp'], Hvd as [Hvd Hvd'].
  assert (Hr1 : Qabs (rnd (v * ph) - v * ph) <= eps).
  { apply rnd_near. apply Qabs_bounded; lra. }
  apply Qabs_bound in Hr1. destruct Hr1 as [Hr1 Hr1'].
  unfold X in *.
  assert (Hr2 : Qabs (rnd (eh + rnd (v * ph)) - (eh + rnd (v * ph))) <= eps).
  { apply rnd_near. apply Qabs_bounded; lra. }
  apply Qabs_bound in Hr2. destruct Hr2 as [Hr2 Hr2'].
  split; apply Qabs_bounded; lra.
Qed.

Lemma weighted_rounded_near (vs : list Q) :
  forall (c ch e eh a b : Q),
    (forall x, In x vs -> 0 <= g x) ->
    (forall x, In x vs -> Qabs x <= V) ->
    0 <= c -> c + sum_list (map g vs) <= 1 ->
    0 <= ch -> Qabs (ch - c) <= a ->
    0 <= a -> a + inject_Z (Z.of_nat (length vs)) * eps <= N * eps ->
    Qabs e <= V * Math_pow c A -> Qabs (eh - e) <= b ->
    0 <= b -> b + inject_Z (Z.of_nat (length vs)) * X <= N * X ->
    Qabs (weighted_rounded rnd pow_r g A ch eh vs - (e + weighted g A c vs))
    <= N * X.
Proof.
  destruct delta_bounds as (Hd0 & Hd1 & HNe & HNX).
  pose proof eps_nonneg as Heps.
  assert (HX0 : 0 <= X).
  { unfold X. assert (0 <= V * delta) by (apply Qmult_le_0_compat; lra). lra. }
  induction vs as [|v vs IH];
    intros c ch e eh a b Hg HV Hc Hsum Hch Ha Ha0 HaN He Heh Hb0 HbN.
  - change (Qabs (eh - (e + 0)) <= N * X).
    change (inject_Z (Z.of_nat (length (@nil Q)))) with 0 in HbN.
    apply Qabs_bound in Heh. destruct Heh as [Heh Heh'].
    apply Qabs_bounded; lra.
  - assert (Hgv : 0 <= g v) by (apply Hg; left; reflexivity).
    assert (Hrest : 0 <= sum_list (map g vs)).
    { apply sum_list_nonneg. intros x Hx. apply in_map_iff in Hx.
      destruct Hx as (y & <- & Hy). apply Hg. right. exact Hy. }
    simpl in Hsum.
    change (length (v :: vs)) with (S (length vs)) in HaN, HbN.
    rewrite inject_succ in HaN, HbN.
    set (m := inject_Z (Z.of_nat (length vs))) in *.
    assert (Hm : 0 <= m).
    { unfold m. change 0 with (inject_Z 0). rewrite <- Zle_Qle. lia. }
    assert (Hme : 0 <= m * eps) by (apply Qmult_le_0_compat; assumption).
    assert (HmX : 0 <= m * X) by (apply Qmult_le_0_compat; assumption).
    assert (Ha1 : a <= 1) by lra.
    destruct (cumulative_step c ch (g v) a Hc Hgv ltac:(lra) Hch Ha Ha1)
      as [Hch' Ha'].
    assert (Haa : Qabs (ch - c) <= a + eps) by lra.
    destruct (probability_step c (c + g v) ch (rnd (ch + g v)) (a + eps)
                Hc ltac:(lra) ltac:(lra) Hch Hch' Haa Ha' ltac:(lra))
      as (Hp0 & Hp1 & Hph).
    destruct (expectation_step v (Math_pow (c + g v) A - Math_pow c A)
                (rnd (pow_r (rnd (ch + g v)) A - pow_r ch A))
                (Math_pow c A) (Math_pow (c + g v) A) e eh b
                (HV v (or_introl eq_refl)) Hp0 ltac:(reflexivity)
                (Math_pow_nonneg c A Hc)
                (Math_pow_le_1 (c + g v) A ltac:(lia) ltac:(lra) ltac:(lra))
                Hph He Heh Hb0 ltac:(lra))
      as [He' Heh'].
    specialize (IH (c + g v) (rnd (ch + g v))
                   (e + v * (Math_pow (c + g v) A - Math_pow c A))
                   (rnd (eh + rnd (v * rnd (pow_r (rnd (ch + g v)) A
                                            - pow_r ch A))))
                   (a + eps) (b + X)
                   (fun x Hx => Hg x (or_intror Hx))
                   (fun x Hx => HV x (or_intror Hx))
                   ltac:(lra) ltac:(lra) Hch' Ha' ltac:(lra) ltac:(lra)
                   He' Heh' ltac:(lra) ltac:(lra)).
    rewrite weighted_cons, weighted_rounded_cons.
    apply Qabs_bound in IH. destruct IH as [IH IH'].
    apply Qabs_bounded; lra.
Qed.

End ExpectationError.

Lemma pow_lipschitz_mono (A1 A2 : Z) :
  (1 <= A1 <= A2)%Z -> pow_lipschitz A1 <= pow_lipschitz A2.
Proof.
  intros [H1 H2]. unfold pow_lipschitz.
  apply Qmult_le_compat_nonneg; split.
  - change 0 with (inject_Z 0). rewrite <- Zle_Qle. lia.
  - rewrite <- Zle_Qle. exact H2.
  - apply Math_pow_nonneg. lra.
  - unfold Math_pow. apply Qpower_le_compat_l; [lia | lra].
Qed.

Lemma expectation_error_mono (eps eps_p V : Q) (n : nat) (A1 A2 : Z) :
  0 <= eps -> 0 <= V -> (1 <= A1 <= A2)%Z ->
  expectation_error eps eps_p V n A1 <= expectation_error eps eps_p V n A2.
Proof.
  intros He HV HA. unfold expectation_error, step_error.
  pose proof (pow_lipschitz_mono A1 A2 HA) as HL.
  assert (Hn : 0 <= inject_Z (Z.of_nat n)).
  { change 0 with (inject_Z 0). rewrite <- Zle_Qle. lia. }
  set (N := inject_Z (Z.of_nat n)) in *.
  assert (HNe : 0 <= N * eps) by (apply Qmult_le_0_compat; assumption).
  assert (H1 : pow_lipschitz A1 * (N * eps) <= pow_lipschitz A2 * (N * eps)).
  { apply Qmult_le_compat_r; assumption. }
  apply Qmult_le_nonneg_l; [exact Hn|].
  assert (H2 : V * (eps + 2 * (eps_p + pow_lipschitz A1 * (N * eps)))
               <= V * (eps + 2 * (eps_p + pow_lipschitz A2 * (N * eps)))).
  { apply Qmult_le_nonneg_l; [exact HV | lra]. }
  lra.
Qed.

(** With the identity for [rnd] and [Math_pow] for [pow_r], the rounded
    function is [calculateMaxExpectation]. *)
Lemma calculateMaxExpectation_rounded_exact (sDistribution : JsMap.t) (A : Z) :
  calculateMaxExpectation_rounded (fun x => x) Math_pow sDistribution A
  = calculateMaxExpectation sDistribution A.
Proof. reflexivity. Qed.

(** Discharge the leading premises of [H] that the context holds. *)
Ltac feed H :=
  repeat match type of H with
         | ?P -> _ =>
             match type of P with
             | Prop => specialize (H ltac:(assumption))
             end
         end.

Section RoundedNear.

Variable rnd : Q -> Q.
Variable pow_r : Q -> Z -> Q.
Variable sDistribution : JsMap.t.
Variable A : Z.
Variables eps eps_p V : Q.

Hypothesis Hwf : JsMap.wf sDistribution.
Hypothesis Hpos : forall e, In e sDistribution -> 0 <= snd e.
Hypothesis Htot : JsMap.total sDistribution == 1.
Hypothesis HV : forall e, In e sDistribution -> Qabs (fst e) <= V.
Hypothesis A_pos : (1 <= A)%Z.
Hypothesis rnd_near : forall x, Qabs x <= 3 * V + 2 -> Qabs (rnd x - x) <= eps.
Hypothesis rnd_nonneg : forall x, 0 <= x -> 0 <= rnd x.
Hypothesis pow_near :
  forall x, 0 <= x -> x <= 2 -> Qabs (pow_r x A - Math_pow x A) <= eps_p.
Hypothesis V_ge : 1 <= V.
Hypothesis small :
  expectation_error eps eps_p V (length sDistribution) A <= 1.

Lemma calculateMaxExpectation_rounded_near :
  Qabs (calculateMaxExpectation_rounded rnd pow_r sDistribution A
        - calculateMaxExpectation sDistribution A)
  <= expectation_error eps eps_p V (length sDistribution) A.
Proof.
  assert (Hn : (1 <= length sDistribution)%nat).
  { destruct sDistribution as [|e rest]; [|simpl; lia].
    exfalso. unfold JsMap.total in Htot. simpl in Htot.
    apply (Qeq_bool_neq 0 1); [reflexivity | exact Htot]. }
  pose proof (delta_bounds rnd pow_r A eps eps_p V (length sDistribution))
    as Hdb.
  feed Hdb. destruct Hdb as (Hd0 & Hd1 & HNe & HNX).
  pose proof (eps_nonneg rnd eps V) as Heps. feed Heps.
  assert (HX0 : 0 <= V * step_error eps eps_p (length sDistribution) A
                     + 2 * eps).
  { assert (0 <= V * step_error eps eps_p (length sDistribution) A)
      by (apply Qmult_le_0_compat; lra).
    lra. }
  assert (Herr : 0 <= expectation_error eps eps_p V (length sDistribution) A).
  { unfold expectation_error. apply Qmult_le_0_compat; [|exact HX0].
    change 0 with (inject_Z 0). rewrite <- Zle_Qle. lia. }
  destruct (Nat.eq_dec (length sDistribution) 1) as [Hlen | Hlen].
  - destruct sDistribution as [|[v mass] [|e rest]]; try discriminate Hlen.
    change (Qabs (v - v) <= expectation_error eps eps_p V 1 A).
    apply Qabs_bounded; simpl in Herr; lra.
  - rewrite (calculateMaxExpectation_rounded_weighted rnd pow_r
               sDistribution A Hwf Hlen).
    pose proof (calculateMaxExpectation_weighted sDistribution A Hwf Hlen)
      as Hex.
    destruct (weighted_masses sDistribution Hwf Hpos Htot) as [Hg Hsum].
    set (g := fun v => JsMap.get_nn v sDistribution) in *.
    set (vs := sort_ascending (JsMap.keys sDistribution)) in *.
    assert (Hlenvs : length vs = length sDistribution).
    { unfold vs. rewrite (Permutation_length (sort_ascending_perm _)).
      unfold JsMap.keys. apply length_map. }
    assert (HVvs : forall x, In x vs -> Qabs x <= V).
    { intros x Hx. unfold vs in Hx.
      apply (Permutation_in _ (sort_ascending_perm _)) in Hx.
      apply in_map_iff in Hx. destruct Hx as (e & <- & He).
      apply HV. exact He. }
    assert (Hzero : Qabs 0 <= V * Math_pow 0 A).
    { change (Qabs 0) with 0. apply Qmult_le_0_compat; [lra|].
      apply Math_pow_nonneg. lra. }
    assert (H00 : Qabs (0 - 0) <= 0) by (apply Qabs_bounded; lra).
    pose proof (weighted_rounded_near rnd pow_r g A eps eps_p V
                  (length sDistribution)) as Hnear.
    feed Hnear.
    specialize (Hnear vs 0 0 0 0 0 0 Hg HVvs (Qle_refl 0)
                  ltac:(lra) (Qle_refl 0) H00 (Qle_refl 0)
                  ltac:(rewrite Hlenvs; lra) Hzero H00 (Qle_refl 0)
                  ltac:(rewrite Hlenvs; lra)).
    apply Qabs_bound in Hnear. destruct Hnear as [Hn1 Hn2].
    unfold expectation_error.
    apply Qabs_bounded; lra.
Qed.

End RoundedNear.

(** In exact arithmetic [calculateMaxExpectation] grows with [A]. *)
Lemma calculateMaxExpectation_grows (sDistribution : JsMap.t) (A1 A2 : Z) :
  JsMap.wf sDistribution ->
  (forall e, In e sDistribution -> 0 <= snd e) ->
  JsMap.total sDistribution == 1 ->
  (1 <= A1 <= A2)%Z ->
  calculateMaxExpectation sDistribution A1
  <= calculateMaxExpectation sDistribution A2.
Proof.
  intros Hwf Hpos Htot HA.
  destruct (Nat.eq_dec (length sDistribution) 1) as [Hlen | Hlen].
  - destruct sDistribution as [|[v mass] [|e rest]]; try discriminate Hlen.
    apply Qle_refl.
  - rewrite (calculateMaxExpectation_weighted sDistribution A1 Hwf Hlen).
    rewrite (calculateMaxExpectation_weighted sDistribution A2 Hwf Hlen).
    destruct (weighted_masses sDistribution Hwf Hpos Htot) as [Hg Hsum].
    apply weighted_mono; try assumption.
    apply sort_ascending_sorted.
Qed.

(** ** The calculator on binary64 numbers *)

Example double_binomialCoefficient_50_25 :
  Double.binomialCoefficient 50 25 = 126410606437752%float.
Proof. vm_compute. reflexivity. Qed.

(** [0.1 + 0.2] is not [0.3]. *)
Example double_addition_rounds :
  (0.1 + 0.2)%float = 0x1.3333333333334p-2%float /\
  0.3%float = 0x1.3333333333333p-2%float.
Proof. split; reflexivity. Qed.

(** With the default tolerance the search for [N = 1], [A = 1], [C = 3]
    ends after 29 iterations, next to the peak at [p = 0.5]. *)
Example double_findOptimalP_default_tolerance :
  Double.ternary_search Double.Math_pow 29 1 1 3 1e-5 0 1
  = Some (0x1.ffff179e23badp-2, 0x1.0000924b0ecf6p-1)%float /\
  Double.ternary_search Double.Math_pow 28 1 1 3 1e-5 0 1 = None.
Proof. split; vm_compute; reflexivity. Qed.

(** At the tolerance [29 * 2^-53], the smallest that the bound for a
    rounding arithmetic covers on binary64, the same search ends after 83
    iterations; [iteration_bound_rounded] allows 150. *)
Example double_findOptimalP_small_tolerance :
  (29 * 0x1p-53)%float = 0x1.dp-49%float /\
  Double.ternary_search Double.Math_pow 83 1 1 3 0x1.dp-49 0 1
  = Some (0x1.ffffff9e85426p-2, 0x1.ffffff9e85451p-2)%float /\
  Double.ternary_search Double.Math_pow 82 1 1 3 0x1.dp-49 0 1 = None /\
  iteration_bound_rounded (29 # 9007199254740992) = 150%nat.
Proof. repeat split; vm_compute; reflexivity. Qed.

(** The sweep over [C] has 50 entries at the default parameters [p = 0.3],
    [r = 2] (the sums pass [maxC] one step early), and 51 at [p = 0.5],
    [r = 2], the last of them just below [maxC = 4.5]. *)
Example double_sweep_over_C :
  let values baseC :=
    Double.sweep_values 60 (Double.sweep_maxC baseC) (Double.sweep_stepC baseC)
                        (Double.sweep_minC baseC) in
  (length (values (2 * 0.3 + 2)%float) = 50%nat /\
   last (values (2 * 0.3 + 2)%float) 0%float = 0x1.ec8b439581067p+1%float /\
   Double.sweep_maxC (2 * 0.3 + 2)%float = 0x1.f333333333334p+1%float) /\
  (length (values (2 * 0.5 + 2)%float) = 51%nat /\
   last (values (2 * 0.5 + 2)%float) 0%float = 0x1.1ffffffffffffp+2%float /\
   Double.sweep_maxC (2 * 0.5 + 2)%float = 4.5%float).
Proof. repeat split; vm_compute; reflexivity. Qed.

Section PowerAtZeroAndOne.

Variables pow pow' : float -> float -> float.
Hypothesis pow_0 : forall x, pow x 0%float = pow' x 0%float.
Hypothesis pow_1 : forall x, pow x 1%float = pow' x 1%float.

(** With [N = 1] and [A = 1] the objective raises to the powers 0 and 1
    only. *)
Lemma double_distribution_one_draw (p r : float) :
  Double.calculateSDistribution pow 1 p r
  = Double.calculateSDistribution pow' 1 p r.
Proof.
  unfold Double.calculateSDistribution.
  destruct (PrimFloat.ltb _ _); [reflexivity|].
  destruct (PrimFloat.eqb p 0); [reflexivity|].
  destruct (PrimFloat.eqb p 1); [reflexivity|].
  cbv [indices Z.to_nat Z.add Pos.add Pos.to_nat Pos.iter_op Nat.add seq map
       fold_left Z.of_nat Double.binomial_entry fst snd Double.of_Z
       Double.of_positive Pos.of_succ_nat Pos.succ].
  change (1 - 0)%float with 1%float. change (1 - 1)%float with 0%float.
  rewrite !pow_0, !pow_1. reflexivity.
Qed.

Lemma double_expectation_one_draw (d : Double.map_t) :
  Double.calculateMaxExpectation pow d 1
  = Double.calculateMaxExpectation pow' d 1.
Proof.
  unfold Double.calculateMaxExpectation.
  destruct (Double.sort_ascending (Double.keys d)) as [|v [|w l]];
    try reflexivity.
  f_equal.
  assert (E : forall cdf st value,
             Double.expectation_body pow cdf 1 st value
             = Double.expectation_body pow' cdf 1 st value).
  { intros. unfold Double.expectation_body.
    change (Double.of_Z 1) with 1%float. rewrite !pow_1. reflexivity. }
  generalize (fst (fold_left (Double.cdf_body d) (v :: w :: l)
                             ([], 0%float))) as cdf.
  intro cdf. generalize (0%float, 0%float) as st.
  generalize (v :: w :: l) as vs.
  induction vs as [|x vs IH]; intro st; simpl; [reflexivity|].
  rewrite E. apply IH.
Qed.

Lemma double_objective_one_draw (p C : float) :
  Double.calculateExpectationForP pow p 1 1 C
  = Double.calculateExpectationForP pow' p 1 1 C.
Proof.
  unfold Double.calculateExpectationForP.
  destruct (PrimFloat.ltb _ _); [reflexivity|].
  rewrite double_distribution_one_draw. apply double_expectation_one_draw.
Qed.

Lemma double_step_one_draw (C left right : float) :
  Double.ternary_step pow 1 1 C left right
  = Double.ternary_step pow' 1 1 C left right.
Proof.
  unfold Double.ternary_step. rewrite !double_objective_one_draw. reflexivity.
Qed.

Lemma double_iterate_one_draw (n : nat) :
  forall C left right,
    Double.ternary_iterate pow n 1 1 C left right
    = Double.ternary_iterate pow' n 1 1 C left right.
Proof.
  induction n as [|n IH]; intros C left right; simpl; [reflexivity|].
  rewrite double_step_one_draw. apply IH.
Qed.

Lemma double_continues_one_draw (n : nat) :
  forall C tolerance left right,
    Double.loop_continues pow n 1 1 C tolerance left right
    = Double.loop_continues pow' n 1 1 C tolerance left right.
Proof.
  induction n as [|n IH]; intros C tolerance left right; simpl;
    [reflexivity|].
  rewrite double_step_one_draw, IH. reflexivity.
Qed.

End PowerAtZeroAndOne.

Section Stuck.

Variable pow : float -> float -> float.
Variables (N A : Z) (C tolerance : float).

(** Once the loop body returns the interval it was given, while the
    condition of the loop holds, the loop never ends. *)
Lemma double_search_stuck (n : nat) :
  forall left right,
    Double.loop_continues pow n N A C tolerance left right = true ->
    (let last := Double.ternary_iterate pow n N A C left right in
     Double.ternary_step pow N A C (fst last) (snd last) = last) ->
    forall fuel,
      Double.ternary_search pow fuel N A C tolerance left right = None.
Proof.
  induction n as [|n IH]; intros left right Hc Hs.
  - simpl in Hc, Hs. apply andb_prop in Hc. destruct Hc as [Hc _].
    induction fuel as [|fuel IHf]; simpl; rewrite Hc; [reflexivity|].
    rewrite Hs. exact IHf.
  - simpl in Hc, Hs. apply andb_prop in Hc. destruct Hc as [Hc Hn].
    intros [|fuel]; simpl; rewrite Hc; [reflexivity|].
    apply IH; assumption.
Qed.

End Stuck.

(** [findOptimalP(1, 1, 3, 1e-17)], for every [Math.pow] that returns 1 at
    the exponent 0 and its argument at the exponent 1: after 92 iterations
    the interval is two neighbouring binary64 numbers, [mid1] rounds to
    [left] and [mid2] to [right], and the width [2^-54] stays above the
    tolerance. *)
Lemma double_findOptimalP_stuck (pow : float -> float -> float) :
  (forall x, pow x 0%float = 1%float) ->
  (forall x, pow x 1%float = x) ->
  Double.ternary_iterate pow 92 1 1 3 0 1
  = (0x1.ffffff9e85426p-2, 0x1.ffffff9e85427p-2)%float /\
  Double.ternary_step pow 1 1 3 0x1.ffffff9e85426p-2 0x1.ffffff9e85427p-2
  = (0x1.ffffff9e85426p-2, 0x1.ffffff9e85427p-2)%float /\
  Double.findOptimalP_diverges pow 1 1 3 1e-17.
Proof.
  intros H0 H1.
  assert (E0 : forall x, pow x 0%float = Double.Math_pow x 0%float)
    by (intro x; rewrite H0; reflexivity).
  assert (E1 : forall x, pow x 1%float = Double.Math_pow x 1%float)
    by (intro x; rewrite H1; reflexivity).
  assert (Hi : Double.ternary_iterate pow 92 1 1 3 0 1
               = (0x1.ffffff9e85426p-2, 0x1.ffffff9e85427p-2)%float).
  { rewrite (double_iterate_one_draw pow Double.Math_pow E0 E1).
    vm_compute. reflexivity. }
  assert (Hs : Double.ternary_step pow 1 1 3
                 0x1.ffffff9e85426p-2 0x1.ffffff9e85427p-2
               = (0x1.ffffff9e85426p-2, 0x1.ffffff9e85427p-2)%float).
  { rewrite (double_step_one_draw pow Double.Math_pow E0 E1).
    vm_compute. reflexivity. }
  split; [exact Hi|]. split; [exact Hs|].
  intro fuel. unfold Double.findOptimalP.
  change (3 <? 1)%float with false.
  change (Double.Math_min 1 ((3 - 1) / 2))%float with 1%float.
  rewrite (double_search_stuck pow 1 1 3 1e-17 92 0 1); [reflexivity| |].
  - rewrite (double_continues_one_draw pow Double.Math_pow E0 E1).
    vm_compute. reflexivity.
  - rewrite Hi. exact Hs.
Qed.

(** The map [{0.3: 0.875, 0.30000000000000004: 0.125}]: its masses add up to
    exactly 1, and the powers that [A = 1] and [A = 2] ask for are binary64
    numbers themselves ([0.875^2 = 0.765625]).  For every [Math.pow] that
    returns them, one draw gives [0.30000000000000004] and two draws give
    [0.3]. *)
Lemma double_expectation_drops (pow : float -> float -> float) :
  (forall x, pow x 1%float = x) ->
  pow 0%float 2%float = 0%float ->
  pow 0.875%float 2%float = 0.765625%float ->
  pow 1%float 2%float = 1%float ->
  let d := [(0x1.3333333333333p-2, 0.875);
            (0x1.3333333333334p-2, 0.125)]%float in
  Double.calculateMaxExpectation pow d 1 = 0x1.3333333333334p-2%float /\
  Double.calculateMaxExpectation pow d 2 = 0x1.3333333333333p-2%float.
Proof.
  intros H1 H20 H2c H21 d. split.
  - cbv. rewrite !H1. reflexivity.
  - cbv. rewrite H20, H2c, H21. reflexivity.
Qed.

(** [binomialCoefficient] on binary64 numbers. *)
Lemma double_binomial_outside (n k : Z) :
  (k < 0)%Z \/ (n < k)%Z -> Double.binomialCoefficient n k = 0%float.
Proof.
  intro H. unfold Double.binomialCoefficient.
  replace ((k <? 0)%Z || (k >? n)%Z) with true; [reflexivity|].
  symmetry. apply orb_true_iff. destruct H as [H | H].
  - left. apply Z.ltb_lt. exact H.
  - right. rewrite Z.gtb_ltb. apply Z.ltb_lt. exact H.
Qed.

Lemma double_binomial_row (n : nat) :
  Forall (fun k => Double.binomialCoefficient (Z.of_nat n) (Z.of_nat k)
                   = Double.of_Z (binomial_number n k))
         (seq 0 (S n)) ->
  forall k, (k <= n)%nat ->
            Double.binomialCoefficient (Z.of_nat n) (Z.of_nat k)
            = Double.of_Z (binomial_number n k).
Proof.
  intros H k Hk. rewrite Forall_forall in H. apply H.
  apply in_seq. lia.
Qed.

(** Every row of Pascal's triangle up to [n = 54], by evaluation. *)
Lemma double_binomial_rows :
  Forall (fun n =>
            Forall (fun k => Double.binomialCoefficient (Z.of_nat n)
                                                        (Z.of_nat k)
                             = Double.of_Z (binomial_number n k))
                   (seq 0 (S n)))
         (seq 0 55).
Proof.
  repeat (apply Forall_cons;
          [repeat (apply Forall_cons; [vm_compute; reflexivity|]);
           apply Forall_nil|]).
  apply Forall_nil.
Qed.

Lemma double_binomial_exact (n k : nat) :
  (k <= n)%nat -> (n <= 54)%nat ->
  Double.binomialCoefficient (Z.of_nat n) (Z.of_nat k)
  = Double.of_Z (binomial_number n k).
Proof.
  intros Hk Hn. apply double_binomial_row; [|exact Hk].
  pose proof double_binomial_rows as H. rewrite Forall_forall in H.
  apply H. apply in_seq. lia.
Qed.

(** From [n = 55] on a product of the loop can leave the integers that
    binary64 holds exactly: [binomialCoefficient(55, 26)] is not an
    integer. *)
Example double_binomialCoefficient_55_26 :
  Double.binomialCoefficient 55 26 = 3560597348629859.5%float /\
  binomial_number 55 26 = 3560597348629860%Z.
Proof. split; vm_compute; reflexivity. Qed.

(** * The claims *)

(** ** C1 *)

(** C1. Let the map hold non-negative masses of sum 1, let [entries] be its
    entries arranged in ascending order of value, [v_1 < ... < v_m] with
    masses [pi_1 .. pi_m], and let [A >= 1].  Then
    [calculateMaxExpectation] returns the sum of
    [v_i * (F_i ^ A - F_(i-1) ^ A)], where [F_i] is the sum of the first [i]
    masses.  And on a map of exactly one entry it returns the value of that
    entry, for every [A]. *)
Theorem calculateMaxExpectation_formula
        (sDistribution : JsMap.t) (A : Z) (entries : list (Q * Q)) :
  Permutation entries sDistribution ->
  ascending entries ->
  (forall e, In e sDistribution -> 0 <= snd e) ->
  JsMap.total sDistribution == 1 ->
  (1 <= A)%Z ->
  calculateMaxExpectation sDistribution A
  == spec_expectedMax (map fst entries) (map snd entries) A /\
  (forall v mass A',
      sDistribution = [(v, mass)] ->
      calculateMaxExpectation sDistribution A' = v).
Proof.
  intros Hp Ha Hpos Htot HA. split.
  - destruct (sorted_keys_of_entries sDistribution entries Hp Ha)
      as [Hwf Hkeys].
    assert (Hmass :
      map (fun v => JsMap.get_nn v sDistribution) (map fst entries)
      = map snd entries).
    { apply masses_of_entries; [exact Hwf|].
      intros e He. apply (Permutation_in _ Hp He). }
    destruct (Nat.eq_dec (length sDistribution) 1) as [Hlen | Hlen].
    + destruct sDistribution as [|[v mass] [|e rest]]; try discriminate Hlen.
      apply Permutation_sym, Permutation_length_1_inv in Hp. subst entries.
      unfold JsMap.total in Htot. simpl in Htot.
      unfold spec_expectedMax, spec_F. simpl.
      assert (E1 : (mass + 0) ^ A == 1).
      { setoid_replace (mass + 0) with 1 by lra. apply Qpower_1. }
      assert (E0 : 0 ^ A == 0) by (apply Qpower_0; lia).
      unfold calculateMaxExpectation. simpl.
      rewrite E1, E0. ring.
    + rewrite (calculateMaxExpectation_weighted sDistribution A Hwf Hlen).
      rewrite Hkeys, weighted_spec, Hmass. reflexivity.
  - intros v mass A' ->. reflexivity.
Qed.

Lemma calculateMaxExpectation_formula_witness :
  let d := [(4, 1 # 2); (2, 1 # 4); (6, 1 # 4)] in
  let entries := [(2, 1 # 4); (4, 1 # 2); (6, 1 # 4)] in
  (Permutation entries d /\ ascending entries /\
   (forall e, In e d -> 0 <= snd e) /\ JsMap.total d == 1 /\ (1 <= 2)%Z) /\
  calculateMaxExpectation d 2
  == spec_expectedMax (map fst entries) (map snd entries) 2.
Proof.
  intros d entries.
  assert (Hp : Permutation entries d) by apply perm_swap.
  assert (Ha : ascending entries).
  { unfold ascending, entries.
    repeat (constructor; [|repeat constructor]). constructor. }
  assert (Hpos : forall e, In e d -> 0 <= snd e).
  { intros e [<- | [<- | [<- | []]]]; simpl; discriminate. }
  assert (Htot : JsMap.total d == 1) by reflexivity.
  assert (HA : (1 <= 2)%Z) by lia.
  split; [auto|].
  apply (calculateMaxExpectation_formula d 2 entries Hp Ha Hpos Htot HA).
Defined.

(** ** C2 *)

(** C2. For [N >= 1] and all [p], [r], with the cases taken in the order of
    the claim: if [|r - 1| < 1e-10] or [p = 0], [calculateSDistribution N p r]
    is the one-entry map [{N: 1}]; else if [p = 1] it is [{N r: 1}];
    otherwise it has exactly [N + 1] entries with distinct keys, the entry
    of [k = 0..N] having key [N + k (r - 1)] and mass
    [binomialCoefficient(N, k) p^k (1 - p)^(N - k)].  And
    [calculateSDistribution 2 0.5 3] is [{2: 0.25, 4: 0.5, 6: 0.25}]. *)
Theorem calculateSDistribution_cases (N : Z) (p r : Q) :
  (1 <= N)%Z ->
  (Math_abs (r - 1) < 1 # 10000000000 \/ p == 0 ->
   calculateSDistribution N p r = [(inject_Z N, 1)]) /\
  (~ Math_abs (r - 1) < 1 # 10000000000 -> p == 1 ->
   calculateSDistribution N p r = [(inject_Z N * r, 1)]) /\
  (~ Math_abs (r - 1) < 1 # 10000000000 -> ~ p == 0 -> ~ p == 1 ->
   length (calculateSDistribution N p r) = Z.to_nat (N + 1) /\
   JsMap.wf (calculateSDistribution N p r) /\
   calculateSDistribution N p r
   = map (fun k => (inject_Z N + inject_Z k * (r - 1),
                    binomialCoefficient N k * p ^ k * (1 - p) ^ (N - k)))
         (indices (Z.to_nat (N + 1)))) /\
  JsMap.same_entries (calculateSDistribution 2 (1 # 2) 3)
                     [(2, 1 # 4); (4, 1 # 2); (6, 1 # 4)].
Proof.
  intros _. unfold calculateSDistribution. repeat split.
  - intros [H | H].
    + apply Qlt_bool_iff in H. rewrite H. reflexivity.
    + destruct (Qlt_bool _ _); [reflexivity|].
      apply Qeq_bool_iff in H. rewrite H. reflexivity.
  - intros Hr Hp.
    destruct (Qlt_bool _ _) eqn:E; [qbool; contradiction|].
    destruct (Qeq_bool p 0) eqn:E0.
    + qbool. rewrite E0 in Hp. discriminate Hp.
    + apply Qeq_bool_iff in Hp. rewrite Hp. reflexivity.
  - destruct (Qlt_bool _ _) eqn:E; [qbool; contradiction|].
    destruct (Qeq_bool p 0) eqn:E0; [qbool; contradiction|].
    destruct (Qeq_bool p 1) eqn:E1; [qbool; contradiction|].
    rewrite binomial_loop_entries by (apply not_near_one; assumption).
    rewrite length_map. apply indices_length.
  - destruct (Qlt_bool _ _) eqn:E; [qbool; contradiction|].
    destruct (Qeq_bool p 0) eqn:E0; [qbool; contradiction|].
    destruct (Qeq_bool p 1) eqn:E1; [qbool; contradiction|].
    rewrite binomial_loop_entries by (apply not_near_one; assumption).
    unfold JsMap.wf, JsMap.keys, indices. rewrite !map_map.
    apply NoDupA_map_seq. intros i j Hij. simpl in Hij.
    apply binomial_value_inj in Hij; [lia|].
    apply not_near_one; assumption.
  - destruct (Qlt_bool _ _) eqn:E; [qbool; contradiction|].
    destruct (Qeq_bool p 0) eqn:E0; [qbool; contradiction|].
    destruct (Qeq_bool p 1) eqn:E1; [qbool; contradiction|].
    rewrite binomial_loop_entries by (apply not_near_one; assumption).
    reflexivity.
  - vm_compute. repeat constructor.
Qed.

Lemma calculateSDistribution_cases_witness :
  (1 <= 3)%Z /\
  (~ Math_abs ((3 # 2) - 1) < 1 # 10000000000 /\
   ~ (1 # 4) == 0 /\ ~ (1 # 4) == 1) /\
  length (calculateSDistribution 3 (1 # 4) (3 # 2)) = Z.to_nat (3 + 1) /\
  JsMap.wf (calculateSDistribution 3 (1 # 4) (3 # 2)) /\
  calculateSDistribution 3 (1 # 4) (3 # 2)
  = map (fun k => (inject_Z 3 + inject_Z k * ((3 # 2) - 1),
                   binomialCoefficient 3 k * (1 # 4) ^ k
                   * (1 - (1 # 4)) ^ (3 - k)))
        (indices (Z.to_nat (3 + 1))).
Proof.
  split; [lia|].
  assert (H1 : ~ Math_abs ((3 # 2) - 1) < 1 # 10000000000)
    by (vm_compute; discriminate).
  assert (H2 : ~ (1 # 4) == 0) by (vm_compute; discriminate).
  assert (H3 : ~ (1 # 4) == 1) by (vm_compute; discriminate).
  split; [auto|].
  destruct (calculateSDistribution_cases 3 (1 # 4) (3 # 2)) as (_ & _ & H & _);
    [lia|].
  exact (H H1 H2 H3).
Defined.

(** ** C3 *)



(** ** C4 *)

(** C4. For every [p], [N >= 1], [A >= 1] and [C], the objective
    [calculateExpectationForP p N A C] is [-Infinity] if and only if
    [C - 2p < 1]; otherwise it is [calculateMaxExpectation] of the
    distribution [calculateSDistribution N p (C - 2p)]. *)
Theorem calculateExpectationForP_feasibility (p : Q) (N A : Z) (C : Q) :
  (1 <= N)%Z -> (1 <= A)%Z ->
  (calculateExpectationForP p N A C = NegInfinity <-> C - 2 * p < 1) /\
  (~ C - 2 * p < 1 ->
   calculateExpectationForP p N A C
   = Finite (calculateMaxExpectation
               (calculateSDistribution N p (C - 2 * p)) A)).
Proof.
  intros _ _. unfold calculateExpectationForP, calculateR.
  destruct (Qlt_bool (C - 2 * p) 1) eqn:E; qbool.
  - split; [split; auto|]. intro H. contradiction.
  - split; [|reflexivity]. split; [discriminate|]. intro H. lra.
Qed.

Lemma calculateExpectationForP_feasibility_witness :
  ((1 <= 2)%Z /\ (1 <= 3)%Z) /\
  (calculateExpectationForP (3 # 4) 2 3 2 = NegInfinity <->
   2 - 2 * (3 # 4) < 1) /\
  (~ 2 - 2 * (3 # 4) < 1 ->
   calculateExpectationForP (3 # 4) 2 3 2
   = Finite (calculateMaxExpectation
               (calculateSDistribution 2 (3 # 4) (2 - 2 * (3 # 4))) 3)).
Proof.
  split; [split; lia|].
  apply (calculateExpectationForP_feasibility (3 # 4) 2 3 2); lia.
Defined.

(** ** C5 *)

(** C5. For [N >= 1], [A >= 1] and [C < 1], [findOptimalP] returns exactly
    [{optimalP: 0, optimalR: 1, maxExpectation: N}], whatever the tolerance
    (and before any iteration of the loop: no fuel is needed). *)
Theorem findOptimalP_below_one (fuel : nat) (N A : Z) (C tolerance : Q) :
  (1 <= N)%Z -> (1 <= A)%Z -> C < 1 ->
  findOptimalP fuel N A C tolerance
  = Some (mkResult 0 1 (Finite (inject_Z N))).
Proof.
  intros _ _ HC. apply findOptimalP_fallback. exact HC.
Qed.

Lemma findOptimalP_below_one_witness :
  ((1 <= 7)%Z /\ (1 <= 3)%Z /\ (1 # 2) < 1) /\
  findOptimalP 0 7 3 (1 # 2) (1 # 100000)
  = Some (mkResult 0 1 (Finite (inject_Z 7))).
Proof.
  split; [repeat split; try lia; reflexivity|].
  apply (findOptimalP_below_one 0 7 3 (1 # 2) (1 # 100000));
    try lia; reflexivity.
Defined.

(** ** C6 *)




(** ** C7 *)



(** ** C8 *)




(** ** C9 *)

(** C9, as stated, fails on the binary64 numbers of the code:
    [findOptimalP(1, 1, 3, 1e-17)] never returns.  After 92 iterations
    [left] and [right] are the neighbouring numbers [0.4999999943259489] and
    [0.49999999432594894]; the loop body returns this interval again, and
    its width, [2^-54], is above the tolerance. *)
Lemma findOptimalP_diverges_on_doubles :
  Double.ternary_iterate Double.Math_pow 92 1 1 3 0 1
  = (0x1.ffffff9e85426p-2, 0x1.ffffff9e85427p-2)%float /\
  Double.ternary_step Double.Math_pow 1 1 3
                      0x1.ffffff9e85426p-2 0x1.ffffff9e85427p-2
  = (0x1.ffffff9e85426p-2, 0x1.ffffff9e85427p-2)%float /\
  (0x1.ffffff9e85427p-2 - 0x1.ffffff9e85426p-2)%float = 0x1p-54%float /\
  PrimFloat.ltb 1e-17 0x1p-54 = true /\
  Double.findOptimalP_diverges Double.Math_pow 1 1 3 1e-17.
Proof.
  destruct (double_findOptimalP_stuck Double.Math_pow) as (H1 & H2 & H3);
    try reflexivity.
  repeat split; try assumption; reflexivity.
Qed.

(** C9, amended.  Let the arithmetic return every result of [+], [-] and
    [/] within an absolute error [u] of the exact one on [-2, 2] and keep a
    result that is not negative so (binary64 with its rounding to nearest:
    [u = 2^-53]; exact arithmetic: [u = 0]), and let the tolerance be
    positive and at least [29 u].  Then for [N >= 1], [A >= 1], every [C]
    and whatever the objective returns: each iteration of the loop keeps
    the interval inside the previous one and takes its width to at most
    [2/3] of it plus [7/3 u], which is at most [3/4] of it; and
    [findOptimalP] returns within [iteration_bound_rounded tolerance], that
    is [3 * ceil(log2(2 / tolerance))], iterations, after at most two
    evaluations of the objective for each of them and one more; more fuel
    gives the same result and the same count.  In exact arithmetic this is
    [findOptimalP] of the model, each iteration takes the width to exactly
    [2/3] of it, and [iteration_bound tolerance], that is
    [2 * ceil(log2(1 / tolerance))], iterations suffice, for every positive
    tolerance. *)
Theorem findOptimalP_terminates
        (rnd : Q -> Q) (u : Q) (objective : Q -> ereal)
        (N A : Z) (C tolerance : Q) :
  (1 <= N)%Z -> (1 <= A)%Z ->
  (forall x, -2 <= x <= 2 -> Qabs (rnd x - x) <= u) ->
  (forall x, 0 <= x -> 0 <= rnd x) ->
  0 < tolerance -> 29 * u <= tolerance ->
  (forall left right evaluations,
      0 <= left -> left <= right -> right <= 1 ->
      Qlt_bool tolerance (rnd (right - left)) = true ->
      let next :=
        fst (ternary_step_rounded rnd objective left right evaluations) in
      left <= fst next /\ fst next <= snd next /\ snd next <= right /\
      snd next - fst next <= (2 # 3) * (right - left) + (7 # 3) * u /\
      snd next - fst next <= (3 # 4) * (right - left)) /\
  (exists res evaluations,
      findOptimalP_rounded rnd objective (iteration_bound_rounded tolerance)
                           N C tolerance
      = Some (res, evaluations) /\
      (evaluations <= 2 * iteration_bound_rounded tolerance + 1)%nat /\
      forall fuel,
        (iteration_bound_rounded tolerance <= fuel)%nat ->
        findOptimalP_rounded rnd objective fuel N C tolerance
        = Some (res, evaluations)) /\
  (forall fuel,
      option_map fst
        (findOptimalP_rounded (fun x => x)
                              (fun p => calculateExpectationForP p N A C)
                              fuel N C tolerance)
      = findOptimalP fuel N A C tolerance) /\
  (forall left right,
      let next := ternary_step N A C left right in
      snd next - fst next == (2 # 3) * (right - left)) /\
  (exists res evaluations,
      findOptimalP_rounded (fun x => x)
                           (fun p => calculateExpectationForP p N A C)
                           (iteration_bound tolerance) N C tolerance
      = Some (res, evaluations) /\
      (evaluations <= 2 * iteration_bound tolerance + 1)%nat /\
      forall fuel,
        (iteration_bound tolerance <= fuel)%nat ->
        findOptimalP fuel N A C tolerance = Some res).
Proof.
  intros _ _ Herr Hsign Htol Hu. split; [|split; [|split; [|split]]].
  - intros left right evaluations.
    apply (rounded_step_bounds rnd u objective tolerance Herr Hu).
  - apply (findOptimalP_rounded_total rnd u objective tolerance
             Herr Hsign Htol Hu).
  - intro fuel. apply findOptimalP_rounded_exact.
  - intros left right. apply ternary_step_width.
  - apply findOptimalP_exact_total. exact Htol.
Qed.

Lemma findOptimalP_terminates_witness :
  let objective := fun p => calculateExpectationForP p 1 1 3 in
  ((1 <= 1)%Z /\ (1 <= 1)%Z /\
   (forall x, -2 <= x <= 2 -> Qabs (round_to_1024 x - x) <= 1 # 2048) /\
   (forall x, 0 <= x -> 0 <= round_to_1024 x) /\
   0 < 1 # 2 /\ 29 * (1 # 2048) <= 1 # 2) /\
  (exists res evaluations,
      findOptimalP_rounded round_to_1024 objective
                           (iteration_bound_rounded (1 # 2)) 1 3 (1 # 2)
      = Some (res, evaluations) /\
      (evaluations <= 2 * iteration_bound_rounded (1 # 2) + 1)%nat /\
      forall fuel,
        (iteration_bound_rounded (1 # 2) <= fuel)%nat ->
        findOptimalP_rounded round_to_1024 objective fuel 1 3 (1 # 2)
        = Some (res, evaluations)).
Proof.
  intro objective.
  assert (HN : (1 <= 1)%Z) by lia.
  assert (Herr : forall x, -2 <= x <= 2 ->
                           Qabs (round_to_1024 x - x) <= 1 # 2048)
    by (intros x _; apply round_to_1024_error).
  assert (Hsign : forall x, 0 <= x -> 0 <= round_to_1024 x)
    by exact round_to_1024_nonneg.
  assert (Htol : 0 < 1 # 2) by reflexivity.
  assert (Hu : 29 * (1 # 2048) <= 1 # 2) by discriminate.
  split; [auto 7|].
  destruct (findOptimalP_terminates round_to_1024 (1 # 2048) objective
              1 1 3 (1 # 2) HN HN Herr Hsign Htol Hu) as (_ & H & _).
  exact H.
Defined.

(** ** C10 *)

(** C10. For [N >= 1], [A >= 1], every [C] and [step > 0], the result of
    [sensitivityAnalysis] is not empty and the [p] of its points increase
    strictly; when [C >= 1] its first point has [p = 0] and [r = C], which
    is feasible ([r >= 1], an expectation other than [-Infinity]); when
    [C < 1] the result is the single point
    [{p: 0, r: 1, expectation: N}]. *)
Theorem sensitivityAnalysis_nonempty_increasing (N A : Z) (C step : Q) :
  (1 <= N)%Z -> (1 <= A)%Z -> 0 < step ->
  sensitivityAnalysis N A C step <> [] /\
  StronglySorted Qlt (map pt_p (sensitivityAnalysis N A C step)) /\
  (1 <= C ->
   exists first rest,
     sensitivityAnalysis N A C step = first :: rest /\
     pt_p first == 0 /\ pt_r first == C /\
     1 <= pt_r first /\ is_finite (pt_expectation first) = true) /\
  (C < 1 ->
   sensitivityAnalysis N A C step = [mkPoint 0 1 (Finite (inject_Z N))]).
Proof.
  intros _ _ Hstep.
  destruct (Qlt_le_dec C 1) as [HC | HC].
  - assert (E : sensitivityAnalysis N A C step
                = [mkPoint 0 1 (Finite (inject_Z N))]).
    { unfold sensitivityAnalysis. apply Qlt_bool_iff in HC. rewrite HC.
      reflexivity. }
    rewrite E. repeat split.
    + discriminate.
    + simpl. repeat constructor.
    + intro H. lra.
  - rewrite (sensitivityAnalysis_grid N A C step HC).
    rewrite (grid_points_all N A C step HC Hstep).
    set (maxP := Math_min 1 ((C - 1) / 2)).
    set (numSteps := Math_floor (maxP / step)).
    pose proof (numSteps_nonneg C step HC Hstep) as Hn.
    fold maxP in Hn. fold numSteps in Hn.
    destruct (Z.to_nat (numSteps + 1)) as [|n] eqn:En; [lia|].
    split; [|split; [|split]].
    + unfold indices. simpl. discriminate.
    + rewrite map_app, map_map.
      change (fun x : Z => pt_p (point_at N A C (inject_Z x * step)))
        with (fun x : Z => inject_Z x * step).
      generalize (grid_increasing step (S n) Hstep).
      assert (Hidx : forall i, In i (indices (S n)) -> (i <= numSteps)%Z).
      { intros i Hi. apply indices_In in Hi. lia. }
      revert Hidx. generalize (indices (S n)) as idx. intros idx Hidx Hinc.
      destruct (Qlt_bool (inject_Z numSteps * step) maxP) eqn:E.
      * apply StronglySorted_snoc; [exact Hinc|].
        rewrite Forall_forall. intros x Hx.
        apply in_map_iff in Hx. destruct Hx as (i & <- & Hi).
        qbool.
        apply Qle_lt_trans with (inject_Z numSteps * step); [|exact E].
        apply Qmult_le_compat_r; [|lra]. rewrite <- Zle_Qle. auto.
      * simpl. rewrite app_nil_r. exact Hinc.
    + intros _. unfold indices. simpl.
      eexists _, _. split; [reflexivity|].
      unfold point_at, calculateR. simpl pt_p. simpl pt_r.
      simpl pt_expectation.
      split; [ring|]. split; [ring|]. split.
      * change (inject_Z 0) with 0. lra.
      * unfold calculateExpectationForP, calculateR.
        replace (Qlt_bool (C - 2 * (inject_Z 0 * step)) 1) with false;
          [reflexivity|].
        symmetry. apply Qlt_bool_false_iff. change (inject_Z 0) with 0. lra.
    + intro H. lra.
Qed.

Lemma sensitivityAnalysis_nonempty_increasing_witness :
  ((1 <= 2)%Z /\ (1 <= 2)%Z /\ 0 < 2 # 5 /\ 1 <= 3 /\ (1 # 2) < 1) /\
  sensitivityAnalysis 2 2 3 (2 # 5) <> [] /\
  StronglySorted Qlt (map pt_p (sensitivityAnalysis 2 2 3 (2 # 5))) /\
  (exists first rest,
      sensitivityAnalysis 2 2 3 (2 # 5) = first :: rest /\
      pt_p first == 0 /\ pt_r first == 3 /\
      1 <= pt_r first /\ is_finite (pt_expectation first) = true) /\
  sensitivityAnalysis 2 2 (1 # 2) (2 # 5)
  = [mkPoint 0 1 (Finite (inject_Z 2))].
Proof.
  assert (HN : (1 <= 2)%Z) by lia.
  assert (Hstep : 0 < 2 # 5) by reflexivity.
  assert (HC : 1 <= 3) by discriminate.
  assert (HC' : (1 # 2) < 1) by reflexivity.
  split; [auto 6|].
  destruct (sensitivityAnalysis_nonempty_increasing 2 2 3 (2 # 5)
              HN HN Hstep) as (H1 & H2 & H3 & _).
  destruct (sensitivityAnalysis_nonempty_increasing 2 2 (1 # 2) (2 # 5)
              HN HN Hstep) as (_ & _ & _ & H4).
  split; [exact H1|]. split; [exact H2|]. split; [exact (H3 HC)|].
  exact (H4 HC').
Defined.

(** * More of the calculator and its callers: auxiliary facts *)

Lemma binomial_loop_succ (n : Z) (j : nat) :
  binomial_loop n (S j)
  = (binomial_loop n j * inject_Z (n - Z.of_nat j)) / inject_Z (Z.of_nat j + 1).
Proof.
  unfold binomial_loop. rewrite indices_succ, fold_left_app. reflexivity.
Qed.

Lemma qfact_succ (n : nat) : qfact (S n) == inject_Z (Z.of_nat (S n)) * qfact n.
Proof.
  unfold qfact. rewrite <- inject_Z_mult, <- Nat2Z.inj_mul. reflexivity.
Qed.

Lemma qfact_pos (n : nat) : 0 < qfact n.
Proof.
  unfold qfact. change 0 with (inject_Z 0). rewrite <- Zlt_Qlt.
  pose proof (lt_O_fact n). lia.
Qed.

Lemma binomial_loop_fact (n j : nat) :
  (j <= n)%nat ->
  binomial_loop (Z.of_nat n) j * qfact j * qfact (n - j) == qfact n.
Proof.
  induction j as [|j IH]; intro Hj.
  - unfold binomial_loop. simpl fold_left. rewrite Nat.sub_0_r.
    unfold qfact at 1. simpl. ring.
  - rewrite binomial_loop_succ, qfact_succ.
    specialize (IH ltac:(lia)).
    replace (n - j)%nat with (S (n - S j)) in IH by lia.
    rewrite qfact_succ in IH.
    rewrite <- IH.
    replace (Z.of_nat n - Z.of_nat j)%Z with (Z.of_nat (S (n - S j))) by lia.
    replace (Z.of_nat j + 1)%Z with (Z.of_nat (S j)) by lia.
    field.
    change 0 with (inject_Z 0). rewrite inject_Z_injective. lia.
Qed.

Lemma binomialCoefficient_loop (n k : nat) :
  (k <= n)%nat ->
  binomialCoefficient (Z.of_nat n) (Z.of_nat k)
  == binomial_loop (Z.of_nat n) k.
Proof.
  intro Hk. unfold binomialCoefficient.
  destruct ((Z.of_nat k <? 0) || (Z.of_nat k >? Z.of_nat n))%Z eqn:E.
  - apply orb_true_iff in E. destruct E as [E | E]; lia.
  - destruct ((Z.of_nat k =? 0) || (Z.of_nat k =? Z.of_nat n))%Z eqn:E2.
    + pose proof (binomial_loop_fact n k Hk) as H.
      apply orb_true_iff in E2. destruct E2 as [E2 | E2].
      * assert (k = 0)%nat by lia. subst k. reflexivity.
      * assert (k = n) by lia. subst k. rewrite Nat.sub_diag in H.
        pose proof (qfact_pos n) as Hp.
        assert (H0 : qfact 0 == 1) by reflexivity.
        rewrite H0 in H.
        apply (Qmult_inj_r _ _ (qfact n)); [lra|].
        rewrite <- H at 1. ring.
    + rewrite Nat2Z.id. reflexivity.
Qed.

Lemma binomialCoefficient_fact (n k : nat) :
  (k <= n)%nat ->
  binomialCoefficient (Z.of_nat n) (Z.of_nat k) * qfact k * qfact (n - k)
  == qfact n.
Proof.
  intro Hk. rewrite binomialCoefficient_loop by exact Hk.
  apply binomial_loop_fact. exact Hk.
Qed.

Lemma binomialCoefficient_above (n k : nat) :
  (n < k)%nat -> binomialCoefficient (Z.of_nat n) (Z.of_nat k) = 0.
Proof.
  intro Hk. unfold binomialCoefficient.
  replace (Z.of_nat k >? Z.of_nat n)%Z with true by (symmetry; lia).
  rewrite orb_true_r. reflexivity.
Qed.

(** ** The distribution that [calculateSDistribution] builds *)

Lemma binomialCoefficient_pos (n k : nat) :
  (k <= n)%nat -> 0 < binomialCoefficient (Z.of_nat n) (Z.of_nat k).
Proof.
  intro Hk.
  pose proof (binomialCoefficient_fact n k Hk) as H.
  pose proof (qfact_pos k) as P1. pose proof (qfact_pos (n - k)) as P2.
  pose proof (qfact_pos n) as P3.
  set (c := binomialCoefficient (Z.of_nat n) (Z.of_nat k)) in *.
  destruct (Qlt_le_dec 0 c) as [Hc | Hc]; [exact Hc|].
  exfalso.
  assert (0 < qfact k * qfact (n - k)) by (apply Qmult_lt_0_compat; assumption).
  assert (c * (qfact k * qfact (n - k)) <= 0 * (qfact k * qfact (n - k))).
  { apply Qmult_le_compat_r; lra. }
  rewrite Qmult_assoc in H1. lra.
Qed.

Section DistributionShape.

Variables (N : Z) (p r : Q).

(** The three shapes of the result. *)
Lemma calculateSDistribution_shape :
  calculateSDistribution N p r = [(inject_Z N, 1)] \/
  (p == 1 /\ calculateSDistribution N p r = [(inject_Z N * r, 1)]) \/
  (~ r == 1 /\
   calculateSDistribution N p r
   = map (binomial_entry N p r) (indices (Z.to_nat (N + 1)))).
Proof.
  unfold calculateSDistribution.
  destruct (Qlt_bool (Math_abs (r - 1)) (1 # 10000000000)) eqn:E;
    [left; reflexivity|].
  destruct (Qeq_bool p 0) eqn:E0; [left; reflexivity|].
  destruct (Qeq_bool p 1) eqn:E1.
  - right. left. qbool. split; [exact E1 | reflexivity].
  - right. right.
    assert (Hr : ~ r == 1).
    { apply not_near_one. intro H. apply Qlt_bool_iff in H. congruence. }
    split; [exact Hr|]. apply binomial_loop_entries. exact Hr.
Qed.

Lemma calculateSDistribution_wf : JsMap.wf (calculateSDistribution N p r).
Proof.
  destruct calculateSDistribution_shape as [-> | [[_ ->] | [Hr ->]]].
  - repeat constructor. intro H. inversion H.
  - repeat constructor. intro H. inversion H.
  - unfold JsMap.wf, JsMap.keys, indices. rewrite !map_map.
    apply NoDupA_map_seq. intros i j Hij. simpl in Hij.
    apply binomial_value_inj in Hij; [lia | exact Hr].
Qed.

Lemma calculateSDistribution_masses_nonneg :
  (0 <= N)%Z -> 0 <= p -> p <= 1 ->
  forall e, In e (calculateSDistribution N p r) -> 0 <= snd e.
Proof.
  intros HN Hp0 Hp1 e.
  destruct calculateSDistribution_shape as [-> | [[_ ->] | [Hr ->]]].
  - intros [<- | []]. simpl. lra.
  - intros [<- | []]. simpl. lra.
  - intro He. apply in_map_iff in He. destruct He as (k & <- & Hk).
    apply indices_In in Hk. unfold binomial_entry. simpl snd.
    apply Qmult_le_0_compat; [apply Qmult_le_0_compat|].
    + apply Qlt_le_weak.
      rewrite <- (Z2Nat.id N HN), <- (Z2Nat.id k) by lia.
      apply binomialCoefficient_pos. lia.
    + unfold Math_pow. apply Qpower_0_le. exact Hp0.
    + unfold Math_pow. apply Qpower_0_le. lra.
Qed.

Lemma calculateSDistribution_values :
  (0 <= N)%Z -> 1 <= r ->
  forall e, In e (calculateSDistribution N p r) ->
            inject_Z N <= fst e /\ fst e <= inject_Z N * r.
Proof.
  intros HN Hr e.
  assert (H0 : 0 <= inject_Z N).
  { change 0 with (inject_Z 0). rewrite <- Zle_Qle. exact HN. }
  assert (Hprod : 0 <= inject_Z N * (r - 1)).
  { apply Qmult_le_0_compat; lra. }
  destruct calculateSDistribution_shape as [-> | [[_ ->] | [_ ->]]].
  - intros [<- | []]. simpl. split; lra.
  - intros [<- | []]. simpl. split; lra.
  - intro He. apply in_map_iff in He. destruct He as (k & <- & Hk).
    apply indices_In in Hk. unfold binomial_entry. simpl fst.
    assert (Hk0 : 0 <= inject_Z k).
    { change 0 with (inject_Z 0). rewrite <- Zle_Qle. lia. }
    assert (HkN : inject_Z k <= inject_Z N) by (rewrite <- Zle_Qle; lia).
    assert (0 <= inject_Z k * (r - 1)) by (apply Qmult_le_0_compat; lra).
    assert (inject_Z k * (r - 1) <= inject_Z N * (r - 1)).
    { apply Qmult_le_compat_r; lra. }
    split; lra.
Qed.

End DistributionShape.

(** ** The objective *)

Lemma calculateExpectationForP_feasible (p : Q) (N A : Z) (C : Q) :
  1 <= C - 2 * p ->
  calculateExpectationForP p N A C
  = Finite (calculateMaxExpectation
              (calculateSDistribution N p (calculateR p C)) A).
Proof.
  intro H. unfold calculateExpectationForP.
  replace (Qlt_bool (calculateR p C) 1) with false; [reflexivity|].
  symmetry. apply Qlt_bool_false_iff. exact H.
Qed.

(** At [p = 0], and wherever [r] is within [1e-10] of 1, the objective is
    [N]. *)
Lemma objective_baseline (p : Q) (N A : Z) (C : Q) :
  1 <= C - 2 * p ->
  p == 0 \/ Math_abs (C - 2 * p - 1) < 1 # 10000000000 ->
  calculateExpectationForP p N A C = Finite (inject_Z N).
Proof.
  intros Hf H. rewrite (calculateExpectationForP_feasible p N A C Hf).
  unfold calculateSDistribution, calculateR.
  destruct (Qlt_bool (Math_abs (C - 2 * p - 1)) (1 # 10000000000)) eqn:E;
    [reflexivity|].
  destruct H as [H | H].
  - apply Qeq_bool_iff in H. rewrite H. reflexivity.
  - apply Qlt_bool_iff in H. congruence.
Qed.

(** ** What [findOptimalP] reports *)

(** The reported [maxExpectation] is the objective at the reported
    [optimalP], or [N] below [C = 1]; it is never [-Infinity]. *)
Lemma findOptimalP_reports
      (N A : Z) (C tolerance : Q) (res : OptimizationResult) :
  findOptimalP_returns N A C tolerance res ->
  (exists e, maxExpectation res = Finite e) /\
  (1 <= C ->
   maxExpectation res = calculateExpectationForP (optimalP res) N A C) /\
  (C < 1 -> maxExpectation res = Finite (inject_Z N)).
Proof.
  intro Hres.
  destruct (Qlt_le_dec C 1) as [HC | HC].
  - destruct Hres as [fuel H].
    rewrite (findOptimalP_fallback N A C tolerance fuel HC) in H.
    injection H as <-. simpl. split; [eexists; reflexivity|].
    split; [intro; lra | reflexivity].
  - pose proof (findOptimalP_feasible N A C tolerance res HC Hres)
      as (HR & HR1 & _).
    destruct Hres as [fuel H].
    destruct (findOptimalP_search N A C tolerance fuel res HC H)
      as (_ & _ & _ & _ & HE).
    split; [|split; [intros _; exact HE | intro; lra]].
    rewrite HE.
    rewrite (calculateExpectationForP_feasible (optimalP res) N A C)
      by lra.
    eexists. reflexivity.
Qed.

(** ** The points of [sensitivityAnalysis] *)

Section SensitivityPoints.

Variables (N A : Z) (C step : Q).
Hypothesis HC : 1 <= C.
Hypothesis Hstep : 0 < step.

Let maxP : Q := Math_min 1 ((C - 1) / 2).
Let numSteps : Z := Math_floor (maxP / step).

(** The result in closed form: the whole grid, then [maxP] if the grid
    stops short of it. *)
Lemma sensitivityAnalysis_closed :
  sensitivityAnalysis N A C step
  = map (fun i => point_at N A C (inject_Z i * step))
        (indices (Z.to_nat (numSteps + 1)))
    ++ (if Qlt_bool (inject_Z numSteps * step) maxP
        then [point_at N A C maxP] else []).
Proof.
  rewrite (sensitivityAnalysis_grid N A C step HC).
  rewrite (grid_points_all N A C step HC Hstep). reflexivity.
Qed.

Lemma sensitivityAnalysis_In (pt : SensitivityPoint) :
  In pt (sensitivityAnalysis N A C step) ->
  exists p, pt = point_at N A C p /\ 0 <= p /\ p <= maxP.
Proof.
  rewrite sensitivityAnalysis_closed. intro H.
  apply in_app_or in H. destruct H as [H | H].
  - apply in_map_iff in H. destruct H as (i & <- & Hi).
    apply indices_In in Hi.
    pose proof (numSteps_nonneg C step HC Hstep) as Hn.
    fold maxP in Hn. fold numSteps in Hn.
    exists (inject_Z i * step). split; [reflexivity|]. split.
    + apply Qmult_le_0_compat; [|lra].
      change 0 with (inject_Z 0). rewrite <- Zle_Qle. lia.
    + apply (grid_below_maxP C step Hstep). fold maxP. fold numSteps. lia.
  - destruct (Qlt_bool (inject_Z numSteps * step) maxP); [|contradiction].
    destruct H as [<- | []]. exists maxP. split; [reflexivity|].
    split; [apply maxP_nonneg; exact HC | apply Qle_refl].
Qed.

Lemma sensitivityAnalysis_length :
  length (sensitivityAnalysis N A C step)
  = (Z.to_nat (numSteps + 1)
     + (if Qlt_bool (inject_Z numSteps * step) maxP then 1 else 0))%nat.
Proof.
  rewrite sensitivityAnalysis_closed, length_app, length_map, indices_length.
  destruct (Qlt_bool _ _); reflexivity.
Qed.

Lemma sensitivityAnalysis_last :
  exists front final,
    sensitivityAnalysis N A C step = front ++ [final] /\
    pt_p final == maxP /\
    final = point_at N A C (pt_p final).
Proof.
  rewrite sensitivityAnalysis_closed.
  destruct (Qlt_bool (inject_Z numSteps * step) maxP) eqn:E.
  - eexists _, _. split; [reflexivity|]. split; reflexivity.
  - pose proof (numSteps_nonneg C step HC Hstep) as Hn.
    fold maxP in Hn. fold numSteps in Hn.
    replace (Z.to_nat (numSteps + 1)) with (S (Z.to_nat numSteps)) by lia.
    rewrite indices_succ, map_app, app_nil_r. simpl map at 2.
    eexists _, _. split; [reflexivity|]. simpl pt_p.
    split; [|reflexivity].
    rewrite (Z2Nat.id numSteps Hn). qbool.
    pose proof (lastP_below_maxP C step Hstep) as Hle.
    fold maxP in Hle. fold numSteps in Hle. lra.
Qed.

End SensitivityPoints.


Section ClosestIndex.

Variable targetP : Q.

(** What the loop has established after the prefix [pre]. *)
Let inv (pre : list SensitivityPoint) (st : option Q * nat) : Prop :=
  match pre with
  | [] => st = (None, O)
  | _ =>
      fst st = Some (distance_at pre targetP (snd st)) /\
      (snd st < length pre)%nat /\
      (forall j, (j < length pre)%nat ->
                 distance_at pre targetP (snd st) <= distance_at pre targetP j) /\
      (forall j, (j < snd st)%nat ->
                 distance_at pre targetP (snd st) < distance_at pre targetP j)
  end.

Lemma distance_at_app_l (pre : list SensitivityPoint) (d : SensitivityPoint)
      (j : nat) :
  (j < length pre)%nat ->
  distance_at (pre ++ [d]) targetP j = distance_at pre targetP j.
Proof.
  intro H. unfold distance_at. rewrite app_nth1 by exact H. reflexivity.
Qed.

Lemma distance_at_app_r (pre : list SensitivityPoint) (d : SensitivityPoint) :
  distance_at (pre ++ [d]) targetP (length pre)
  = Math_abs (pt_p d - targetP).
Proof.
  unfold distance_at. rewrite nth_middle. reflexivity.
Qed.

Lemma inv_step (pre : list SensitivityPoint) (st : option Q * nat)
      (d : SensitivityPoint) :
  inv pre st -> inv (pre ++ [d]) (closest_body targetP st d (length pre)).
Proof.
  intro H. unfold closest_body.
  destruct pre as [|d0 pre'].
  - cbn in H. subst st. cbn [fst snd app length inv].
    split; [reflexivity|]. split; [apply Nat.lt_0_1|]. split.
    + intros j Hj. apply Nat.lt_1_r in Hj. subst j. apply Qle_refl.
    + intros j Hj. inversion Hj.
  - set (pre := d0 :: pre') in *.
    assert (Hcons : pre ++ [d] = d0 :: (pre' ++ [d])) by reflexivity.
    unfold inv in H. fold pre in H.
    destruct H as (Hm & Hlt & Hmin & Hfirst).
    rewrite Hm. unfold inv. rewrite Hcons. rewrite <- Hcons.
    clear Hcons. clearbody pre.
    assert (Hlen : length (pre ++ [d]) = S (length pre))
      by (rewrite length_app; simpl; lia).
    rewrite Hlen.
    destruct (Qlt_bool (Math_abs (pt_p d - targetP))
                       (distance_at pre targetP (snd st))) eqn:E; qbool.
    + cbn [fst snd]. rewrite distance_at_app_r.
      split; [reflexivity|]. split; [lia|]. split.
      * intros j Hj.
        destruct (Nat.eq_dec j (length pre)) as [-> | Hne].
        -- rewrite distance_at_app_r. apply Qle_refl.
        -- rewrite distance_at_app_l by lia.
           specialize (Hmin j ltac:(lia)). lra.
      * intros j Hj. rewrite distance_at_app_l by lia.
        specialize (Hmin j Hj). lra.
    + rewrite distance_at_app_l by exact Hlt.
      split; [exact Hm|]. split; [lia|]. split.
      * intros j Hj.
        destruct (Nat.eq_dec j (length pre)) as [-> | Hne].
        -- rewrite distance_at_app_r. exact E.
        -- rewrite distance_at_app_l by lia. apply Hmin. lia.
      * intros j Hj. rewrite distance_at_app_l by lia. apply Hfirst. exact Hj.
Qed.

Lemma forEach_inv (xs : list SensitivityPoint) :
  forall pre st,
    inv pre st ->
    inv (pre ++ xs) (forEach_from (closest_body targetP) xs (length pre) st).
Proof.
  induction xs as [|d xs IH]; intros pre st H; simpl.
  - rewrite app_nil_r. exact H.
  - replace (pre ++ d :: xs) with ((pre ++ [d]) ++ xs)
      by (rewrite <- app_assoc; reflexivity).
    replace (S (length pre)) with (length (pre ++ [d]))
      by (rewrite length_app; simpl; lia).
    apply IH. apply inv_step. exact H.
Qed.

Lemma findClosestIndex_spec (sensitivityData : list SensitivityPoint) :
  sensitivityData <> [] ->
  let i := findClosestIndex sensitivityData targetP in
  (i < length sensitivityData)%nat /\
  (forall j, (j < length sensitivityData)%nat ->
             distance_at sensitivityData targetP i
             <= distance_at sensitivityData targetP j) /\
  (forall j, (j < i)%nat ->
             distance_at sensitivityData targetP i
             < distance_at sensitivityData targetP j).
Proof.
  intro Hne. unfold findClosestIndex.
  pose proof (forEach_inv sensitivityData [] (None, O) eq_refl) as H.
  simpl in H. unfold inv in H.
  destruct sensitivityData as [|d0 rest]; [contradiction|].
  destruct H as (_ & H1 & H2 & H3). auto.
Qed.

End ClosestIndex.

Lemma nth_indices {T : Type} (f : Z -> T) (n j : nat) (d : T) :
  (j < n)%nat -> nth j (map f (indices n)) d = f (Z.of_nat j).
Proof.
  intro H. unfold indices. rewrite map_map.
  rewrite (nth_indep _ d (f (Z.of_nat 0))) by (rewrite length_map, length_seq; exact H).
  rewrite (map_nth (fun i => f (Z.of_nat i)) (seq 0 n) O j).
  rewrite seq_nth by exact H. reflexivity.
Qed.

Section Marker.

Variables (N A : Z) (C step targetP : Q).
Hypothesis HC : 1 <= C.
Hypothesis Hstep : 0 < step.

Let maxP : Q := Math_min 1 ((C - 1) / 2).
Let numSteps : Z := Math_floor (maxP / step).
Let data : list SensitivityPoint := sensitivityAnalysis N A C step.

Hypothesis Ht0 : 0 <= targetP.
Hypothesis Htm : targetP <= maxP.

Lemma distance_at_grid (i : Z) :
  (0 <= i <= numSteps)%Z ->
  distance_at data targetP (Z.to_nat i) = Math_abs (inject_Z i * step - targetP).
Proof.
  intro Hi. unfold distance_at, data.
  rewrite (sensitivityAnalysis_closed N A C step HC Hstep).
  fold maxP. fold numSteps.
  rewrite app_nth1 by (rewrite length_map, indices_length; lia).
  rewrite nth_indices by lia.
  rewrite Z2Nat.id by lia. reflexivity.
Qed.

Lemma distance_at_extra :
  inject_Z numSteps * step < maxP ->
  distance_at data targetP (Z.to_nat (numSteps + 1))
  = Math_abs (maxP - targetP).
Proof.
  intro Hlt. unfold distance_at, data.
  rewrite (sensitivityAnalysis_closed N A C step HC Hstep).
  fold maxP. fold numSteps.
  apply Qlt_bool_iff in Hlt. rewrite Hlt.
  rewrite app_nth2 by (rewrite length_map, indices_length; lia).
  rewrite length_map, indices_length, Nat.sub_diag. reflexivity.
Qed.

Lemma data_length :
  length data
  = (Z.to_nat (numSteps + 1)
     + (if Qlt_bool (inject_Z numSteps * step) maxP then 1 else 0))%nat.
Proof. apply (sensitivityAnalysis_length N A C step HC Hstep). Qed.

(** Some point of the curve is within half a step of [targetP]. *)
Lemma some_point_near :
  exists j, (j < length data)%nat /\
            distance_at data targetP j <= step / 2.
Proof.
  pose proof (numSteps_nonneg C step HC Hstep) as Hn.
  fold maxP in Hn. fold numSteps in Hn.
  set (i0 := Qfloor (targetP / step)).
  assert (Hlo : inject_Z i0 * step <= targetP).
  { pose proof (Qfloor_le (targetP / step)) as H. fold i0 in H.
    apply (Qmult_le_compat_r _ _ step) in H; [|lra].
    setoid_replace (targetP / step * step) with targetP in H by (field; lra).
    exact H. }
  assert (Hhi : targetP < inject_Z (i0 + 1) * step).
  { pose proof (Qlt_floor (targetP / step)) as H. fold i0 in H.
    apply (Qmult_lt_compat_r _ _ step) in H; [|lra].
    setoid_replace (targetP / step * step) with targetP in H by (field; lra).
    exact H. }
  assert (Hmhi : maxP < inject_Z (numSteps + 1) * step).
  { pose proof (Qlt_floor (maxP / step)) as H.
    fold (Math_floor (maxP / step)) in H. fold numSteps in H.
    apply (Qmult_lt_compat_r _ _ step) in H; [|lra].
    setoid_replace (maxP / step * step) with maxP in H by (field; lra).
    exact H. }
  assert (Hi0 : (0 <= i0 <= numSteps)%Z).
  { split.
    - change 0%Z with (Qfloor 0). apply Qfloor_resp_le.
      apply Qle_shift_div_l; lra.
    - apply Qfloor_resp_le.
      apply Qle_shift_div_l; [lra|].
      setoid_replace (targetP / step * step) with targetP by (field; lra).
      exact Htm. }
  rewrite inject_Z_plus in Hhi, Hmhi.
  change (inject_Z 1) with 1 in Hhi, Hmhi.
  destruct (Qlt_le_dec (step / 2) (targetP - inject_Z i0 * step))
    as [Hfar | Hnear].
  - destruct (Z.eq_dec i0 numSteps) as [Heq | Hne].
    + assert (Hlast : inject_Z numSteps * step < maxP).
      { rewrite <- Heq. rewrite Qdiv_const in Hfar. lra. }
      exists (Z.to_nat (numSteps + 1)). split.
      * rewrite data_length. apply Qlt_bool_iff in Hlast. rewrite Hlast. lia.
      * rewrite (distance_at_extra Hlast). unfold Math_abs.
        rewrite Qabs_pos by lra. rewrite Heq in Hfar. qlra.
    + exists (Z.to_nat (i0 + 1)). split.
      * rewrite data_length. lia.
      * rewrite distance_at_grid by lia. unfold Math_abs.
        rewrite inject_Z_plus. change (inject_Z 1) with 1.
        rewrite Qabs_pos by lra. qlra.
  - exists (Z.to_nat i0). split.
    + rewrite data_length. lia.
    + rewrite distance_at_grid by lia. unfold Math_abs.
      rewrite Qabs_neg by lra. qlra.
Qed.

Lemma marker_near_target :
  distance_at data targetP (findClosestIndex data targetP) <= step / 2.
Proof.
  destruct some_point_near as (j & Hj & Hd).
  assert (Hne : data <> []).
  { intro E. rewrite E in Hj. simpl in Hj. lia. }
  destruct (findClosestIndex_spec targetP data Hne) as (_ & Hmin & _).
  apply Qle_trans with (distance_at data targetP j); [apply Hmin; exact Hj|].
  exact Hd.
Qed.

(** The grid of the exact model puts it within half a step; one step is
    what does not depend on the last place of the grid points. *)
Lemma marker_within_step :
  distance_at data targetP (findClosestIndex data targetP) <= step.
Proof.
  apply Qle_trans with (step / 2); [exact marker_near_target | qlra].
Qed.

End Marker.


Example performCalculation_example_skipped :
  performCalculation 0 (mkParameters (3 # 2) 2 30 50) = Skipped.
Proof. reflexivity. Qed.

(** ** Valid parameters *)

Lemma Number_isInteger_iff (x : Q) :
  Number_isInteger x = true <-> exists n : Z, x == inject_Z n.
Proof.
  unfold Number_isInteger. rewrite Qeq_bool_iff. split.
  - intro H. exists (Qfloor x). symmetry. exact H.
  - intros [n H]. rewrite (Qfloor_comp _ _ H), Qfloor_Z. symmetry. exact H.
Qed.

Lemma isValid_iff (parameters : InputParameters) :
  isValid parameters = true <->
  (0 <= param_p parameters /\ param_p parameters <= 1 /\
   0 < param_r parameters /\
   exists n a : Z,
     param_N parameters == inject_Z n /\ param_A parameters == inject_Z a /\
     (1 <= n <= 100)%Z /\ (1 <= a <= 100)%Z).
Proof.
  unfold isValid. rewrite !andb_true_iff, !Qle_bool_iff, Qlt_bool_iff.
  rewrite !Number_isInteger_iff. split.
  - intros ((((((((H1 & H2) & H3) & H4) & H5) & H6) & H7) & [n Hn]) & [a Ha]).
    repeat split; try assumption. exists n, a.
    rewrite Hn in H4, H5. rewrite Ha in H6, H7.
    change 1 with (inject_Z 1) in H4, H6.
    change 100 with (inject_Z 100) in H5, H7.
    rewrite <- Zle_Qle in H4, H5, H6, H7.
    repeat split; assumption.
  - intros (H1 & H2 & H3 & n & a & Hn & Ha & [H4 H5] & [H6 H7]).
    rewrite Zle_Qle in H4, H5, H6, H7.
    change (inject_Z 1) with 1 in H4, H6.
    change (inject_Z 100) with 100 in H5, H7.
    repeat split; try assumption; try (rewrite Hn; assumption);
      try (rewrite Ha; assumption).
    + exists n. exact Hn.
    + exists a. exact Ha.
Qed.

(** ** The range of the sweep over [C] *)

Lemma sweep_range (baseC : Q) :
  0 < baseC ->
  1 # 10 <= sweep_minC baseC /\
  baseC + 1 <= sweep_maxC baseC /\
  sweep_minC baseC < sweep_maxC baseC /\
  0 < sweep_stepC baseC /\
  sweep_minC baseC + 50 * sweep_stepC baseC == sweep_maxC baseC.
Proof.
  intro HC. unfold sweep_stepC, sweep_minC, sweep_maxC, Math_max, Math_min.
  pose proof (Q.le_max_l (1 # 10) (Qmin (baseC - 1) (baseC * (1 # 2)))) as H1.
  pose proof (Q.le_max_l (baseC + 1) (baseC * (3 # 2))) as H2.
  pose proof (Q.le_min_l (baseC - 1) (baseC * (1 # 2))) as H3.
  assert (H4 : Qmax (1 # 10) (Qmin (baseC - 1) (baseC * (1 # 2))) < baseC + 1).
  { apply Q.max_lub_lt; lra. }
  set (minC := Qmax (1 # 10) (Qmin (baseC - 1) (baseC * (1 # 2)))) in *.
  set (maxC := Qmax (baseC + 1) (baseC * (3 # 2))) in *.
  repeat split; qlra.
Qed.

(** ** The two sweeps *)

Lemma iteration_bound_default : iteration_bound default_tolerance = 34%nat.
Proof. reflexivity. Qed.

Lemma findOptimalP_default (fuel : nat) (N A : Z) (C : Q) :
  (34 <= fuel)%nat ->
  exists res, findOptimalP fuel N A C default_tolerance = Some res.
Proof.
  intro Hf.
  destruct (findOptimalP_total N A C default_tolerance eq_refl)
    as (res & _ & H & _).
  exists res. apply (findOptimalP_fuel_mono N A C _ _ fuel res) in H;
    [exact H | rewrite iteration_bound_default; exact Hf].
Qed.

Section Sweeps.

Variables (fuel : nat) (N : Z).
Hypothesis Hfuel : (34 <= fuel)%nat.

Lemma varyingA_loop_total (C : Q) (As : list Z) :
  forall varyingA,
  exists pts,
    varyingA_loop fuel N C As varyingA = Some (varyingA ++ pts) /\
    map va_A pts = As /\
    Forall (varyingA_entry N C) pts.
Proof.
  induction As as [|A As IH]; intro varyingA; simpl.
  - exists []. rewrite app_nil_r. repeat split. constructor.
  - destruct (findOptimalP_default fuel N A C Hfuel) as [res Hres].
    rewrite Hres.
    destruct (IH (varyingA ++ [mkVaryingA A (optimalP res) (maxExpectation res)]))
      as (pts & H1 & H2 & H3).
    exists (mkVaryingA A (optimalP res) (maxExpectation res) :: pts).
    rewrite H1, <- app_assoc. simpl. rewrite H2.
    repeat split. constructor; [|exact H3].
    exists res. simpl. repeat split. exists fuel. exact Hres.
Qed.

Lemma varyingC_loop_stop (A : Z) (maxC stepC currentC : Q)
      (iterations : nat) (varyingC : list VaryingCPoint) :
  maxC < currentC ->
  varyingC_loop iterations fuel N A maxC stepC currentC varyingC
  = Some varyingC.
Proof.
  intro H.
  assert (E : Qle_bool currentC maxC = false).
  { destruct (Qle_bool currentC maxC) eqn:E; [|reflexivity].
    qbool. lra. }
  destruct iterations; simpl; rewrite E; reflexivity.
Qed.

Lemma varyingC_loop_total (A : Z) (maxC stepC : Q) (m : nat) :
  0 < stepC ->
  forall iterations currentC varyingC,
    (m < iterations)%nat ->
    currentC + inject_Z (Z.of_nat m) * stepC == maxC ->
    exists pts,
      varyingC_loop iterations fuel N A maxC stepC currentC varyingC
      = Some (varyingC ++ pts) /\
      length pts = S m /\
      Forall (varyingC_entry N A) pts /\
      forall k d, (k <= m)%nat ->
                  vc_C (nth k pts d) == currentC + inject_Z (Z.of_nat k) * stepC.
Proof.
  intro Hstep. induction m as [|m IH]; intros iterations currentC varyingC Hit Hc.
  - destruct iterations as [|iterations]; [lia|]. simpl.
    change (inject_Z (Z.of_nat 0)) with 0 in Hc.
    replace (Qle_bool currentC maxC) with true
      by (symmetry; apply Qle_bool_iff; lra).
    destruct (findOptimalP_default fuel N A currentC Hfuel) as [res Hres].
    rewrite Hres. rewrite varyingC_loop_stop by lra.
    eexists [_]. split; [reflexivity|]. split; [reflexivity|]. split.
    + constructor; [|constructor]. exists res. simpl.
      repeat split. exists fuel. exact Hres.
    + intros k d Hk. assert (k = 0)%nat by lia. subst k. simpl.
      change (inject_Z 0) with 0. ring.
  - destruct iterations as [|iterations]; [lia|]. simpl.
    rewrite inject_succ in Hc.
    assert (Hm0 : 0 <= inject_Z (Z.of_nat m)).
    { change 0 with (inject_Z 0). rewrite <- Zle_Qle. lia. }
    assert (0 <= inject_Z (Z.of_nat m) * stepC)
      by (apply Qmult_le_0_compat; lra).
    replace (Qle_bool currentC maxC) with true
      by (symmetry; apply Qle_bool_iff; lra).
    destruct (findOptimalP_default fuel N A currentC Hfuel) as [res Hres].
    rewrite Hres.
    destruct (IH iterations (currentC + stepC)
                 (varyingC ++ [mkVaryingC currentC (optimalP res)
                                          (optimalR res) (maxExpectation res)])
                 ltac:(lia) ltac:(lra))
      as (pts & H1 & H2 & H3 & H4).
    exists (mkVaryingC currentC (optimalP res) (optimalR res)
                       (maxExpectation res) :: pts).
    rewrite H1, <- app_assoc. split; [reflexivity|].
    split; [simpl; rewrite H2; reflexivity|]. split.
    + constructor; [|exact H3]. exists res. simpl.
      repeat split. exists fuel. exact Hres.
    + intros k d Hk. destruct k as [|k].
      * simpl. change (inject_Z 0) with 0. ring.
      * simpl nth. rewrite H4 by lia. rewrite inject_succ. ring.
Qed.

End Sweeps.

(** ** [performCalculation] *)

Section PerformCalculation.

Variables (fuel : nat) (parameters : InputParameters).
Hypothesis Hvalid : isValid parameters = true.
Hypothesis Hfuel : (51 <= fuel)%nat.

Let N : Z := Qfloor (param_N parameters).
Let A : Z := Qfloor (param_A parameters).
Let C : Q := 2 * param_p parameters + param_r parameters.

Lemma valid_integers :
  param_N parameters == inject_Z N /\ param_A parameters == inject_Z A /\
  (1 <= N <= 100)%Z /\ (1 <= A <= 100)%Z.
Proof.
  apply isValid_iff in Hvalid.
  destruct Hvalid as (_ & _ & _ & n & a & Hn & Ha & H1 & H2).
  unfold N, A. rewrite (Qfloor_comp _ _ Hn), (Qfloor_comp _ _ Ha), !Qfloor_Z.
  auto.
Qed.

Lemma valid_constraint : 0 < C.
Proof.
  apply isValid_iff in Hvalid.
  destruct Hvalid as (H1 & _ & H3 & _). unfold C. lra.
Qed.

(** The runs of the parts, put together. *)
Lemma performCalculation_calculated :
  exists optimal varyingA varyingC,
    performCalculation fuel parameters
    = Calculated
        (mkCalculation (optimalP optimal) (optimalR optimal)
                       (maxExpectation optimal) C)
        (mkChart (sensitivityAnalysis N A C default_step)
                 (mkPoint (optimalP optimal) (optimalR optimal)
                          (maxExpectation optimal))
                 A varyingA varyingC) /\
    findOptimalP_returns N A C default_tolerance optimal /\
    map va_A varyingA
    = map (fun i => (1 + i)%Z) (indices (Z.to_nat (A * 2))) /\
    Forall (varyingA_entry N C) varyingA /\
    length varyingC = 51%nat /\
    Forall (varyingC_entry N A) varyingC /\
    (forall k d, (k <= 50)%nat ->
                 vc_C (nth k varyingC d)
                 == sweep_minC C + inject_Z (Z.of_nat k) * sweep_stepC C).
Proof.
  assert (Hf34 : (34 <= fuel)%nat) by lia.
  unfold performCalculation. rewrite Hvalid. simpl negb. cbv iota.
  fold N. fold A. fold C.
  destruct (findOptimalP_default fuel N A C Hf34) as [optimal Hopt].
  rewrite Hopt.
  destruct (varyingA_loop_total fuel N Hf34 C
              (map (fun i => (1 + i)%Z)
                   (indices (Z.to_nat (A * 2 - 1 + 1)))) [])
    as (varyingA & HA1 & HA2 & HA3).
  rewrite HA1. simpl app.
  destruct (sweep_range C valid_constraint) as (_ & _ & _ & Hstep & Hend).
  destruct (varyingC_loop_total fuel N Hf34 A (sweep_maxC C) (sweep_stepC C)
              50 Hstep fuel (sweep_minC C) [] ltac:(lia) Hend)
    as (varyingC & HC1 & HC2 & HC3 & HC4).
  rewrite HC1. simpl app.
  exists optimal, varyingA, varyingC.
  split; [reflexivity|]. split; [exists fuel; exact Hopt|].
  split; [rewrite HA2; f_equal; f_equal; f_equal; lia|].
  auto.
Qed.

End PerformCalculation.

(** ** Auxiliary facts on the sampled curve *)

Section CurveEnds.

Variables (N A : Z) (C step : Q).
Hypothesis HC : 1 <= C.
Hypothesis Hstep : 0 < step.

Lemma sensitivityAnalysis_first :
  exists rest,
    sensitivityAnalysis N A C step
    = point_at N A C (inject_Z 0 * step) :: rest.
Proof.
  rewrite (sensitivityAnalysis_closed N A C step HC Hstep).
  pose proof (numSteps_nonneg C step HC Hstep) as Hn.
  replace (Z.to_nat (Math_floor (Math_min 1 ((C - 1) / 2) / step) + 1))
    with (S (Z.to_nat (Math_floor (Math_min 1 ((C - 1) / 2) / step))))
    by lia.
  unfold indices. simpl. eexists. reflexivity.
Qed.

Lemma maxP_low : C <= 3 -> Math_min 1 ((C - 1) / 2) == (C - 1) / 2.
Proof.
  intro H. unfold Math_min. apply Q.min_r. qlra.
Qed.

End CurveEnds.

(** * More of the calculator and its callers: theorems *)

(** X1. On the binary64 numbers of the code [binomialCoefficient n k] is 0
    for [k] below 0 or above [n], and for [0 <= k <= n <= 54] it is exactly
    the binomial coefficient [n! / (k! (n - k)!)]: up to there no product of
    the loop leaves the integers that binary64 holds exactly. *)
Theorem binomialCoefficient_exact_on_doubles (n k : Z) :
  ((k < 0)%Z \/ (n < k)%Z -> Double.binomialCoefficient n k = 0%float) /\
  ((0 <= k <= n)%Z -> (n <= 54)%Z ->
   Double.binomialCoefficient n k
   = Double.of_Z (binomial_number (Z.to_nat n) (Z.to_nat k))).
Proof.
  split.
  - apply double_binomial_outside.
  - intros Hk Hn.
    rewrite <- (Z2Nat.id n) at 1 by lia.
    rewrite <- (Z2Nat.id k) at 1 by lia.
    apply double_binomial_exact; lia.
Qed.

Lemma binomialCoefficient_exact_on_doubles_witness :
  ((7 < 9)%Z /\ (0 <= 25 <= 50)%Z /\ (50 <= 54)%Z) /\
  Double.binomialCoefficient 7 9 = 0%float /\
  Double.binomialCoefficient 50 25
  = Double.of_Z (binomial_number (Z.to_nat 50) (Z.to_nat 25)).
Proof.
  assert (H1 : (7 < 9)%Z) by lia.
  assert (H2 : (0 <= 25 <= 50)%Z) by lia.
  assert (H3 : (50 <= 54)%Z) by lia.
  split; [auto|]. split.
  - destruct (binomialCoefficient_exact_on_doubles 7 9) as [H _].
    apply H. right. exact H1.
  - destruct (binomialCoefficient_exact_on_doubles 50 25) as [_ H].
    exact (H H2 H3).
Defined.

(** X3. For [N >= 0], [0 <= p <= 1] and [r >= 1], every entry of the map of
    [calculateSDistribution] has a mass that is not negative and a value of
    at least [N]. *)
Theorem calculateSDistribution_entries (N : Z) (p r : Q) (e : Q * Q) :
  (0 <= N)%Z -> 0 <= p -> p <= 1 -> 1 <= r ->
  In e (calculateSDistribution N p r) ->
  0 <= snd e /\ inject_Z N <= fst e.
Proof.
  intros HN Hp0 Hp1 Hr He. split.
  - apply (calculateSDistribution_masses_nonneg N p r HN Hp0 Hp1 e He).
  - apply (calculateSDistribution_values N p r HN Hr e He).
Qed.

Lemma calculateSDistribution_entries_witness :
  let e := (inject_Z 2 + inject_Z 1 * (3 - 1),
            binomialCoefficient 2 1 * Math_pow (1 # 2) 1
            * Math_pow (1 - (1 # 2)) (2 - 1)) in
  ((0 <= 2)%Z /\ 0 <= 1 # 2 /\ 1 # 2 <= 1 /\ 1 <= 3 /\
   In e (calculateSDistribution 2 (1 # 2) 3)) /\
  0 <= snd e /\ inject_Z 2 <= fst e.
Proof.
  intro e.
  assert (HN : (0 <= 2)%Z) by lia.
  assert (Hp0 : 0 <= 1 # 2) by discriminate.
  assert (Hp1 : 1 # 2 <= 1) by discriminate.
  assert (Hr : 1 <= 3) by discriminate.
  assert (He : In e (calculateSDistribution 2 (1 # 2) 3))
    by (right; left; reflexivity).
  split; [auto 6|].
  apply (calculateSDistribution_entries 2 (1 # 2) 3 e HN Hp0 Hp1 Hr He).
Defined.

(** X10. Where [C - 2p >= 1], the objective is exactly [N] at [p = 0] and
    wherever [C - 2p] is within [1e-10] of 1, for every [N] and [A]. *)
Theorem calculateExpectationForP_baseline (p : Q) (N A : Z) (C : Q) :
  1 <= C - 2 * p ->
  p == 0 \/ Math_abs (C - 2 * p - 1) < 1 # 10000000000 ->
  calculateExpectationForP p N A C = Finite (inject_Z N).
Proof. apply objective_baseline. Qed.

Lemma calculateExpectationForP_baseline_witness :
  (1 <= 2 - 2 * (1 # 2) /\
   ((1 # 2) == 0 \/ Math_abs (2 - 2 * (1 # 2) - 1) < 1 # 10000000000)) /\
  calculateExpectationForP (1 # 2) 7 3 2 = Finite (inject_Z 7).
Proof.
  assert (Hf : 1 <= 2 - 2 * (1 # 2)) by discriminate.
  assert (Hr : (1 # 2) == 0
               \/ Math_abs (2 - 2 * (1 # 2) - 1) < 1 # 10000000000)
    by (right; reflexivity).
  split; [auto|].
  apply (calculateExpectationForP_baseline (1 # 2) 7 3 2 Hf Hr).
Defined.

(** X12. Whatever [N], [A], [C] and the tolerance, the [maxExpectation]
    that [findOptimalP] returns is never [-Infinity]: for [C >= 1] it is
    the objective at the returned [optimalP], which is feasible, and for
    [C < 1] it is [N]. *)
Theorem findOptimalP_maxExpectation_finite
        (N A : Z) (C tolerance : Q) (res : OptimizationResult) :
  findOptimalP_returns N A C tolerance res ->
  (exists e, maxExpectation res = Finite e) /\
  (1 <= C ->
   maxExpectation res = calculateExpectationForP (optimalP res) N A C) /\
  (C < 1 -> maxExpectation res = Finite (inject_Z N)).
Proof. apply findOptimalP_reports. Qed.

Lemma findOptimalP_maxExpectation_finite_witness :
  let res := mkResult (24 # 54) (114 # 54)
                      (Finite (37039311936 # 24794911296)) in
  (findOptimalP_returns 1 1 3 (1 # 2) res /\ 1 <= 3) /\
  (exists e, maxExpectation res = Finite e) /\
  maxExpectation res = calculateExpectationForP (optimalP res) 1 1 3.
Proof.
  intro res.
  assert (Hres : findOptimalP_returns 1 1 3 (1 # 2) res)
    by (exists 2%nat; vm_compute; reflexivity).
  assert (HC : 1 <= 3) by discriminate.
  split; [auto|].
  destruct (findOptimalP_maxExpectation_finite 1 1 3 (1 # 2) res Hres)
    as (H1 & H2 & _).
  split; [exact H1 | exact (H2 HC)].
Defined.

(** X13. For [C >= 1] and [step > 0], every point of [sensitivityAnalysis]
    is feasible: [0 <= p <= min(1, (C - 1) / 2)], [r = C - 2p >= 1], and
    its [expectation] is the objective at [p], which is not
    [-Infinity]. *)
Theorem sensitivityAnalysis_points_feasible
        (N A : Z) (C step : Q) (pt : SensitivityPoint) :
  1 <= C -> 0 < step ->
  In pt (sensitivityAnalysis N A C step) ->
  0 <= pt_p pt /\ pt_p pt <= Math_min 1 ((C - 1) / 2) /\
  pt_r pt = C - 2 * pt_p pt /\ 1 <= pt_r pt /\
  pt_expectation pt = calculateExpectationForP (pt_p pt) N A C /\
  is_finite (pt_expectation pt) = true.
Proof.
  intros HC Hstep Hin.
  destruct (sensitivityAnalysis_In N A C step HC Hstep pt Hin)
    as (p & -> & Hp0 & Hpm).
  pose proof (maxP_feasible C) as Hm. unfold calculateR in Hm.
  pose proof (Math_min_le_l 1 ((C - 1) / 2)) as Hm1.
  set (maxP := Math_min 1 ((C - 1) / 2)) in *.
  unfold point_at, calculateR. simpl.
  repeat split; try assumption; try lra.
  rewrite (calculateExpectationForP_feasible p N A C) by lra.
  reflexivity.
Qed.

Lemma sensitivityAnalysis_points_feasible_witness :
  let pt := mkPoint (inject_Z 1 * (2 # 5))
                    (calculateR (inject_Z 1 * (2 # 5)) 3)
                    (calculateExpectationForP (inject_Z 1 * (2 # 5)) 2 2 3) in
  (1 <= 3 /\ 0 < 2 # 5 /\ In pt (sensitivityAnalysis 2 2 3 (2 # 5))) /\
  0 <= pt_p pt /\ pt_p pt <= Math_min 1 ((3 - 1) / 2) /\
  pt_r pt = 3 - 2 * pt_p pt /\ 1 <= pt_r pt /\
  pt_expectation pt = calculateExpectationForP (pt_p pt) 2 2 3 /\
  is_finite (pt_expectation pt) = true.
Proof.
  intro pt.
  assert (HC : 1 <= 3) by discriminate.
  assert (Hstep : 0 < 2 # 5) by reflexivity.
  assert (Hin : In pt (sensitivityAnalysis 2 2 3 (2 # 5))).
  { rewrite (sensitivityAnalysis_closed 2 2 3 (2 # 5) HC Hstep).
    apply in_or_app. left. right. left. reflexivity. }
  split; [auto|].
  apply (sensitivityAnalysis_points_feasible 2 2 3 (2 # 5) pt HC Hstep Hin).
Defined.

(** X14. For [C >= 1] and [step > 0], with [maxP = min(1, (C - 1) / 2)] and
    [numSteps = floor(maxP / step)]: the last point of
    [sensitivityAnalysis] is at [p = maxP], and the result has
    [numSteps + 2] points when [numSteps * step < maxP] and [numSteps + 1]
    otherwise. *)
Theorem sensitivityAnalysis_ends_at_maxP (N A : Z) (C step : Q) :
  1 <= C -> 0 < step ->
  let maxP := Math_min 1 ((C - 1) / 2) in
  let numSteps := Math_floor (maxP / step) in
  (exists front final,
      sensitivityAnalysis N A C step = front ++ [final] /\
      pt_p final == maxP) /\
  (inject_Z numSteps * step < maxP ->
   Z.of_nat (length (sensitivityAnalysis N A C step)) = (numSteps + 2)%Z) /\
  (maxP <= inject_Z numSteps * step ->
   Z.of_nat (length (sensitivityAnalysis N A C step)) = (numSteps + 1)%Z).
Proof.
  intros HC Hstep maxP numSteps.
  pose proof (numSteps_nonneg C step HC Hstep) as Hn.
  fold maxP in Hn. fold numSteps in Hn.
  split; [|split].
  - destruct (sensitivityAnalysis_last N A C step HC Hstep)
      as (front & final & H1 & H2 & _).
    exists front, final. auto.
  - intro H. rewrite (sensitivityAnalysis_length N A C step HC Hstep).
    fold maxP. fold numSteps. apply Qlt_bool_iff in H. rewrite H. lia.
  - intro H. rewrite (sensitivityAnalysis_length N A C step HC Hstep).
    fold maxP. fold numSteps. apply Qlt_bool_false_iff in H. rewrite H. lia.
Qed.

Lemma sensitivityAnalysis_ends_at_maxP_witness :
  let maxP := Math_min 1 ((3 - 1) / 2) in
  let numSteps := Math_floor (maxP / (2 # 5)) in
  (1 <= 3 /\ 0 < 2 # 5 /\ inject_Z numSteps * (2 # 5) < maxP) /\
  (exists front final,
      sensitivityAnalysis 2 2 3 (2 # 5) = front ++ [final] /\
      pt_p final == maxP) /\
  Z.of_nat (length (sensitivityAnalysis 2 2 3 (2 # 5))) = (numSteps + 2)%Z.
Proof.
  intros maxP numSteps.
  assert (HC : 1 <= 3) by discriminate.
  assert (Hstep : 0 < 2 # 5) by reflexivity.
  assert (Hlt : inject_Z numSteps * (2 # 5) < maxP) by reflexivity.
  split; [auto|].
  destruct (sensitivityAnalysis_ends_at_maxP 2 2 3 (2 # 5) HC Hstep)
    as (H1 & H2 & _).
  split; [exact H1 | exact (H2 Hlt)].
Defined.

(** X15. For [C >= 1] and [step > 0] the curve of [sensitivityAnalysis]
    starts at expectation [N] (at [p = 0]); when moreover [C <= 3] it also
    ends at expectation [N] (at [p = (C - 1) / 2], where [r = 1]). *)
Theorem sensitivityAnalysis_endpoints (N A : Z) (C step : Q) :
  1 <= C -> 0 < step ->
  (exists first rest,
      sensitivityAnalysis N A C step = first :: rest /\
      pt_expectation first = Finite (inject_Z N)) /\
  (C <= 3 ->
   exists front final,
     sensitivityAnalysis N A C step = front ++ [final] /\
     pt_expectation final = Finite (inject_Z N)).
Proof.
  intros HC Hstep. split.
  - destruct (sensitivityAnalysis_first N A C step HC Hstep) as [rest H].
    eexists _, rest. split; [exact H|].
    unfold point_at. simpl pt_expectation.
    apply objective_baseline.
    + change (inject_Z 0) with 0. lra.
    + left. change (inject_Z 0) with 0. ring.
  - intro H3.
    destruct (sensitivityAnalysis_last N A C step HC Hstep)
      as (front & final & H1 & H2 & Hpt).
    exists front, final. split; [exact H1|].
    rewrite Hpt. unfold point_at. simpl pt_expectation.
    rewrite (maxP_low C H3) in H2.
    assert (E : C - 2 * pt_p final - 1 == 0) by (rewrite H2; field).
    apply objective_baseline.
    + lra.
    + right. unfold Math_abs. rewrite E. reflexivity.
Qed.

Lemma sensitivityAnalysis_endpoints_witness :
  (1 <= 2 /\ 0 < 2 # 5 /\ 2 <= 3) /\
  (exists first rest,
      sensitivityAnalysis 5 2 2 (2 # 5) = first :: rest /\
      pt_expectation first = Finite (inject_Z 5)) /\
  (exists front final,
      sensitivityAnalysis 5 2 2 (2 # 5) = front ++ [final] /\
      pt_expectation final = Finite (inject_Z 5)).
Proof.
  assert (HC : 1 <= 2) by discriminate.
  assert (Hstep : 0 < 2 # 5) by reflexivity.
  assert (H3 : 2 <= 3) by discriminate.
  split; [auto|].
  destruct (sensitivityAnalysis_endpoints 5 2 2 (2 # 5) HC Hstep) as (H1 & H2).
  split; [exact H1 | exact (H2 H3)].
Defined.

(** X16. [findClosestIndex]: on data that is not empty the index it returns
    is within the data, no point is closer to [targetP] than the point at
    that index, and every earlier point is strictly farther (of several
    closest points it takes the first); on empty data it returns 0. *)
Theorem findClosestIndex_closest
        (sensitivityData : list SensitivityPoint) (targetP : Q) :
  findClosestIndex [] targetP = O /\
  (sensitivityData <> [] ->
   let i := findClosestIndex sensitivityData targetP in
   (i < length sensitivityData)%nat /\
   (forall j, (j < length sensitivityData)%nat ->
              distance_at sensitivityData targetP i
              <= distance_at sensitivityData targetP j) /\
   (forall j, (j < i)%nat ->
              distance_at sensitivityData targetP i
              < distance_at sensitivityData targetP j)).
Proof.
  split; [reflexivity|]. apply findClosestIndex_spec.
Qed.

Lemma findClosestIndex_closest_witness :
  let data := [mkPoint 0 3 (Finite 2); mkPoint (1 # 2) 2 (Finite 3);
               mkPoint 1 1 (Finite 2)] in
  data <> [] /\
  let i := findClosestIndex data (1 # 4) in
  (i < length data)%nat /\
  (forall j, (j < length data)%nat ->
             distance_at data (1 # 4) i <= distance_at data (1 # 4) j) /\
  (forall j, (j < i)%nat ->
             distance_at data (1 # 4) i < distance_at data (1 # 4) j).
Proof.
  intro data.
  assert (Hne : data <> []) by discriminate.
  split; [exact Hne|].
  destruct (findClosestIndex_closest data (1 # 4)) as [_ H].
  exact (H Hne).
Defined.

(** X17. For [C >= 1], [step > 0] and a target [p] of the feasible interval
    [0, min(1, (C - 1) / 2)], the point of [sensitivityAnalysis] that
    [findClosestIndex] selects is within one [step] of the target. *)
Theorem findClosestIndex_within_step (N A : Z) (C step targetP : Q) :
  1 <= C -> 0 < step ->
  0 <= targetP -> targetP <= Math_min 1 ((C - 1) / 2) ->
  let data := sensitivityAnalysis N A C step in
  (findClosestIndex data targetP < length data)%nat /\
  distance_at data targetP (findClosestIndex data targetP) <= step.
Proof.
  intros HC Hstep Ht0 Htm data. split.
  - assert (Hne : data <> []).
    { unfold data.
      destruct (sensitivityAnalysis_first N A C step HC Hstep) as [rest ->].
      discriminate. }
    apply (findClosestIndex_spec targetP data Hne).
  - apply (marker_within_step N A C step targetP HC Hstep Ht0 Htm).
Qed.

Lemma findClosestIndex_within_step_witness :
  (1 <= 3 /\ 0 < 2 # 5 /\ 0 <= 3 # 5 /\
   (3 # 5) <= Math_min 1 ((3 - 1) / 2)) /\
  let data := sensitivityAnalysis 2 2 3 (2 # 5) in
  (findClosestIndex data (3 # 5) < length data)%nat /\
  distance_at data (3 # 5) (findClosestIndex data (3 # 5)) <= 2 # 5.
Proof.
  assert (HC : 1 <= 3) by discriminate.
  assert (Hstep : 0 < 2 # 5) by reflexivity.
  assert (Ht0 : 0 <= 3 # 5) by discriminate.
  assert (Htm : (3 # 5) <= Math_min 1 ((3 - 1) / 2)) by discriminate.
  split; [auto|].
  apply (findClosestIndex_within_step 2 2 3 (2 # 5) (3 # 5)
           HC Hstep Ht0 Htm).
Defined.

(** [isValid] accepts exactly the parameters with [0 <= p <= 1],
    [r > 0], and [N] and [A] integers from 1 to 100. *)
Theorem isValid_accepts (parameters : InputParameters) :
  isValid parameters = true <->
  (0 <= param_p parameters /\ param_p parameters <= 1 /\
   0 < param_r parameters /\
   exists n a : Z,
     param_N parameters == inject_Z n /\ param_A parameters == inject_Z a /\
     (1 <= n <= 100)%Z /\ (1 <= a <= 100)%Z).
Proof. apply isValid_iff. Qed.

Lemma isValid_accepts_witness :
  isValid (mkParameters (3 # 10) 2 30 50) = true /\
  isValid (mkParameters (3 # 10) 2 (61 # 2) 50) = false /\
  isValid (mkParameters (3 # 10) 0 30 50) = false.
Proof.
  split; [|split; reflexivity].
  apply (isValid_accepts (mkParameters (3 # 10) 2 30 50)).
  repeat split; try discriminate.
  exists 30%Z, 50%Z. repeat split; try reflexivity; lia.
Defined.

(** X18. For a constraint constant [C > 0] (every valid input gives one),
    the sweep over [C] of [performCalculation] has a lower end [minC] of at
    least 0.1, an upper end [maxC] of at least [C + 1] and above [minC],
    and a positive step; [C] itself lies in the range when [C >= 0.1]. *)
Theorem sweep_range_bounds (baseC : Q) :
  0 < baseC ->
  1 # 10 <= sweep_minC baseC /\
  baseC + 1 <= sweep_maxC baseC /\
  sweep_minC baseC < sweep_maxC baseC /\
  0 < sweep_stepC baseC /\
  (1 # 10 <= baseC ->
   sweep_minC baseC <= baseC /\ baseC <= sweep_maxC baseC).
Proof.
  intro HC. destruct (sweep_range baseC HC) as (H1 & H2 & H3 & H4 & H5).
  repeat split; try assumption.
  - unfold sweep_minC, Math_max, Math_min.
    apply Q.max_lub; [assumption|].
    apply Qle_trans with (baseC - 1); [apply Q.le_min_l | lra].
  - lra.
Qed.

Lemma sweep_range_bounds_witness :
  (0 < 26 # 10 /\ 1 # 10 <= 26 # 10) /\
  1 # 10 <= sweep_minC (26 # 10) /\
  (26 # 10) + 1 <= sweep_maxC (26 # 10) /\
  sweep_minC (26 # 10) < sweep_maxC (26 # 10) /\
  0 < sweep_stepC (26 # 10) /\
  sweep_minC (26 # 10) <= 26 # 10 /\ 26 # 10 <= sweep_maxC (26 # 10).
Proof.
  assert (HC : 0 < 26 # 10) by reflexivity.
  assert (H1 : 1 # 10 <= 26 # 10) by discriminate.
  split; [auto|].
  destruct (sweep_range_bounds (26 # 10) HC) as (A1 & A2 & A3 & A4 & A5).
  repeat split; try assumption; apply (A5 H1).
Defined.

(** What every result of [findOptimalP] satisfies, whatever [C]. *)
Lemma findOptimalP_in_unit_range
      (N A : Z) (C tolerance : Q) (res : OptimizationResult) :
  findOptimalP_returns N A C tolerance res ->
  1 <= optimalR res /\ 0 <= optimalP res /\ optimalP res <= 1.
Proof.
  intro Hres. destruct (Qlt_le_dec C 1) as [HC | HC].
  - destruct Hres as [fuel H].
    rewrite (findOptimalP_fallback N A C tolerance fuel HC) in H.
    injection H as <-. simpl. repeat split; lra.
  - destruct (findOptimalP_feasible N A C tolerance res HC Hres)
      as (_ & H1 & H2 & H3).
    pose proof (Math_min_le_l 1 ((C - 1) / 2)).
    repeat split; lra.
Qed.

Section CalculationFacts.

Variables (fuel : nat) (parameters : InputParameters).

Let N : Z := Qfloor (param_N parameters).
Let A : Z := Qfloor (param_A parameters).
Let C : Q := 2 * param_p parameters + param_r parameters.

Lemma performCalculation_skips :
  isValid parameters = false -> performCalculation fuel parameters = Skipped.
Proof.
  intro H. unfold performCalculation. rewrite H. reflexivity.
Qed.

Hypothesis Hvalid : isValid parameters = true.
Hypothesis Hfuel : (51 <= fuel)%nat.

Lemma performCalculation_optimum :
  exists result chart,
    performCalculation fuel parameters = Calculated result chart /\
    cr_constraintC result = C /\
    findOptimalP_returns N A C default_tolerance
      (mkResult (cr_optimalP result) (cr_optimalR result)
                (cr_maxExpectation result)) /\
    1 <= cr_optimalR result /\
    0 <= cr_optimalP result /\ cr_optimalP result <= 1 /\
    (exists e, cr_maxExpectation result = Finite e) /\
    optimalPoint chart
    = mkPoint (cr_optimalP result) (cr_optimalR result)
              (cr_maxExpectation result) /\
    sensitivityData chart = sensitivityAnalysis N A C default_step /\
    baseA chart = A.
Proof.
  destruct (performCalculation_calculated fuel parameters Hvalid Hfuel)
    as (optimal & varyingA & varyingC & H & Hres & _).
  fold N in H, Hres. fold A in H, Hres. fold C in H, Hres.
  eexists _, _. split; [exact H|]. simpl.
  pose proof (findOptimalP_in_unit_range N A C _ optimal Hres)
    as (H1 & H2 & H3).
  pose proof (findOptimalP_reports N A C _ optimal Hres) as (He & _).
  destruct optimal as [oP oR oE]. simpl in *.
  repeat split; assumption.
Qed.

Lemma performCalculation_sweep_entries :
  exists result chart,
    performCalculation fuel parameters = Calculated result chart /\
    map va_A (varyingAData chart)
    = map (fun i => (1 + i)%Z) (indices (Z.to_nat (A * 2))) /\
    Forall (fun pt => varyingA_entry N C pt /\
                      0 <= va_optimalP pt /\ va_optimalP pt <= 1 /\
                      exists e, va_expectation pt = Finite e)
           (varyingAData chart) /\
    (50 <= length (varyingCData chart) <= 51)%nat /\
    (exists first rest,
        varyingCData chart = first :: rest /\ vc_C first == sweep_minC C) /\
    (forall k d, (S k < length (varyingCData chart))%nat ->
                 vc_C (nth (S k) (varyingCData chart) d)
                 == vc_C (nth k (varyingCData chart) d) + sweep_stepC C) /\
    Forall (fun pt => varyingC_entry N A pt /\
                      sweep_minC C <= vc_C pt /\ vc_C pt <= sweep_maxC C /\
                      1 <= vc_optimalR pt /\
                      0 <= vc_optimalP pt /\ vc_optimalP pt <= 1 /\
                      exists e, vc_expectation pt = Finite e)
           (varyingCData chart).
Proof.
  destruct (performCalculation_calculated fuel parameters Hvalid Hfuel)
    as (optimal & varyingA & varyingC & H & _ & HA1 & HA2 & HC1 & HC2 & HC3).
  fold N in H, HA1, HA2, HC2. fold A in H, HA1, HC2. fold C in H, HA2, HC3.
  destruct (sweep_range C (valid_constraint parameters Hvalid))
    as (_ & _ & _ & Hstep & Hend).
  fold C in Hstep, Hend.
  eexists _, _. split; [exact H|]. simpl.
  split; [exact HA1|]. split.
  { eapply Forall_impl; [|exact HA2].
    intros pt Hpt. split; [exact Hpt|].
    destruct Hpt as (res & Hres & -> & ->).
    pose proof (findOptimalP_in_unit_range _ _ _ _ res Hres) as (_ & H2 & H3).
    pose proof (findOptimalP_reports _ _ _ _ res Hres) as (He & _).
    auto. }
  split; [rewrite HC1; split; [repeat constructor | apply Nat.le_refl]|].
  split.
  { destruct varyingC as [|first rest]; [discriminate HC1|].
    exists first, rest. split; [reflexivity|].
    rewrite (HC3 O first (Nat.le_0_l 50)). simpl.
    change (inject_Z 0) with 0. ring. }
  split.
  { intros k d Hk. rewrite HC1 in Hk.
    rewrite (HC3 (S k) d) by lia. rewrite (HC3 k d) by lia.
    rewrite inject_succ. ring. }
  rewrite Forall_forall in *. intros pt Hin.
  pose proof (HC2 pt Hin) as Hpt. split; [exact Hpt|].
  destruct (In_nth varyingC pt pt Hin) as (k & Hk & Hnth).
  rewrite HC1 in Hk.
  pose proof (HC3 k pt ltac:(lia)) as Hv. rewrite Hnth in Hv.
  assert (Hk0 : 0 <= inject_Z (Z.of_nat k)).
  { change 0 with (inject_Z 0). rewrite <- Zle_Qle. lia. }
  assert (Hk50 : inject_Z (Z.of_nat k) <= 50).
  { change 50 with (inject_Z 50). rewrite <- Zle_Qle. lia. }
  assert (Hlo : 0 <= inject_Z (Z.of_nat k) * sweep_stepC C)
    by (apply Qmult_le_0_compat; lra).
  assert (Hhi : inject_Z (Z.of_nat k) * sweep_stepC C
                <= 50 * sweep_stepC C)
    by (apply Qmult_le_compat_r; lra).
  split; [lra|]. split; [lra|].
  destruct Hpt as (res & Hres & -> & -> & ->).
  pose proof (findOptimalP_in_unit_range _ _ _ _ res Hres) as (H1 & H2 & H3).
  pose proof (findOptimalP_reports _ _ _ _ res Hres) as (He & _).
  auto.
Qed.

Lemma performCalculation_marker_near :
  exists result chart,
    performCalculation fuel parameters = Calculated result chart /\
    let data := sensitivityData chart in
    let target := pt_p (optimalPoint chart) in
    (findClosestIndex data target < length data)%nat /\
    distance_at data target (findClosestIndex data target) <= default_step.
Proof.
  destruct (performCalculation_calculated fuel parameters Hvalid Hfuel)
    as (optimal & varyingA & varyingC & H & Hres & _).
  fold N in H, Hres. fold A in H, Hres. fold C in H, Hres.
  eexists _, _. split; [exact H|]. simpl.
  destruct (Qlt_le_dec C 1) as [HC | HC].
  - destruct Hres as [f Hf].
    rewrite (findOptimalP_fallback N A C _ f HC) in Hf.
    injection Hf as <-. simpl.
    assert (E : sensitivityAnalysis N A C default_step
                = [mkPoint 0 1 (Finite (inject_Z N))]).
    { unfold sensitivityAnalysis. apply Qlt_bool_iff in HC. rewrite HC.
      reflexivity. }
    rewrite E. split; [apply Nat.lt_0_1 | discriminate].
  - destruct (findOptimalP_feasible N A C _ optimal HC Hres)
      as (_ & _ & H2 & H3).
    assert (Hstep : 0 < default_step) by reflexivity.
    split.
    + assert (Hne : sensitivityAnalysis N A C default_step <> []).
      { destruct (sensitivityAnalysis_first N A C default_step HC Hstep)
          as [rest ->]. discriminate. }
      apply (findClosestIndex_spec (optimalP optimal) _ Hne).
    + apply (marker_within_step N A C default_step (optimalP optimal)
               HC Hstep H2 H3).
Qed.

End CalculationFacts.

(** X19. [performCalculation] does nothing on parameters that [isValid]
    rejects.  On valid parameters (with fuel for 51 iterations) it
    completes, with [constraintC = 2p + r], the three values that
    [findOptimalP] returns for [(N, A, C)] at the default tolerance: an
    [optimalR] of at least 1 (also when the input [r] is below 1), an
    [optimalP] in [0, 1], a [maxExpectation] other than [-Infinity]; the
    optimal point of the chart is made of these three values, and the curve
    is [sensitivityAnalysis(N, A, C)] with the default step 0.01. *)
Theorem performCalculation_result (fuel : nat) (parameters : InputParameters) :
  (isValid parameters = false ->
   performCalculation fuel parameters = Skipped) /\
  (isValid parameters = true -> (51 <= fuel)%nat ->
   let N := Qfloor (param_N parameters) in
   let A := Qfloor (param_A parameters) in
   let C := 2 * param_p parameters + param_r parameters in
   exists result chart,
     performCalculation fuel parameters = Calculated result chart /\
     cr_constraintC result = C /\
     findOptimalP_returns N A C default_tolerance
       (mkResult (cr_optimalP result) (cr_optimalR result)
                 (cr_maxExpectation result)) /\
     1 <= cr_optimalR result /\
     0 <= cr_optimalP result /\ cr_optimalP result <= 1 /\
     (exists e, cr_maxExpectation result = Finite e) /\
     optimalPoint chart
     = mkPoint (cr_optimalP result) (cr_optimalR result)
               (cr_maxExpectation result) /\
     sensitivityData chart = sensitivityAnalysis N A C default_step /\
     baseA chart = A).
Proof.
  split.
  - apply performCalculation_skips.
  - intros Hvalid Hfuel.
    apply (performCalculation_optimum fuel parameters Hvalid Hfuel).
Qed.

Lemma performCalculation_result_witness :
  let parameters := mkParameters (3 # 10) 2 30 50 in
  (isValid parameters = true /\ (51 <= 51)%nat) /\
  exists result chart,
    performCalculation 51 parameters = Calculated result chart /\
    cr_constraintC result = 2 * (3 # 10) + 2 /\
    findOptimalP_returns 30 50 (2 * (3 # 10) + 2) default_tolerance
      (mkResult (cr_optimalP result) (cr_optimalR result)
                (cr_maxExpectation result)) /\
    1 <= cr_optimalR result /\
    0 <= cr_optimalP result /\ cr_optimalP result <= 1 /\
    (exists e, cr_maxExpectation result = Finite e) /\
    optimalPoint chart
    = mkPoint (cr_optimalP result) (cr_optimalR result)
              (cr_maxExpectation result) /\
    sensitivityData chart
    = sensitivityAnalysis 30 50 (2 * (3 # 10) + 2) default_step /\
    baseA chart = 50%Z.
Proof.
  intro parameters.
  assert (Hvalid : isValid parameters = true) by reflexivity.
  assert (Hfuel : (51 <= 51)%nat) by lia.
  split; [auto|].
  destruct (performCalculation_result 51 parameters) as [_ H].
  exact (H Hvalid Hfuel).
Defined.

(** X20. On valid parameters [performCalculation] fills the sweep over [A]
    with one entry for each [A = 1, 2, .., 2 A], in this order; every entry
    holds what [findOptimalP] returns for its [A] at the default tolerance,
    with an [optimalP] in [0, 1] and an expectation other than
    [-Infinity]. *)
Theorem performCalculation_sweep_over_A
        (fuel : nat) (parameters : InputParameters) :
  isValid parameters = true -> (51 <= fuel)%nat ->
  let N := Qfloor (param_N parameters) in
  let A := Qfloor (param_A parameters) in
  let C := 2 * param_p parameters + param_r parameters in
  exists result chart,
    performCalculation fuel parameters = Calculated result chart /\
    map va_A (varyingAData chart)
    = map (fun i => (1 + i)%Z) (indices (Z.to_nat (A * 2))) /\
    Forall (fun pt => varyingA_entry N C pt /\
                      0 <= va_optimalP pt /\ va_optimalP pt <= 1 /\
                      exists e, va_expectation pt = Finite e)
           (varyingAData chart).
Proof.
  intros Hvalid Hfuel.
  destruct (performCalculation_sweep_entries fuel parameters Hvalid Hfuel)
    as (result & chart & H & H1 & H2 & _).
  exists result, chart. auto.
Qed.

Lemma performCalculation_sweep_over_A_witness :
  let parameters := mkParameters (3 # 10) 2 30 50 in
  (isValid parameters = true /\ (51 <= 51)%nat) /\
  exists result chart,
    performCalculation 51 parameters = Calculated result chart /\
    map va_A (varyingAData chart)
    = map (fun i => (1 + i)%Z) (indices (Z.to_nat (50 * 2))) /\
    Forall (fun pt => varyingA_entry 30 (2 * (3 # 10) + 2) pt /\
                      0 <= va_optimalP pt /\ va_optimalP pt <= 1 /\
                      exists e, va_expectation pt = Finite e)
           (varyingAData chart).
Proof.
  intro parameters.
  assert (Hvalid : isValid parameters = true) by reflexivity.
  assert (Hfuel : (51 <= 51)%nat) by lia.
  split; [auto|].
  exact (performCalculation_sweep_over_A 51 parameters Hvalid Hfuel).
Defined.

(** X21. On valid parameters [performCalculation] fills the sweep over [C]
    with 50 or 51 entries (51 when the additions [currentC += stepC] are
    exact): the first at [C = minC], each next one [stepC] further, all of
    them from [minC] to [maxC].  Every entry holds what [findOptimalP]
    returns for its [C] at the default tolerance, with an [optimalR] of at
    least 1, also where [C < 1], an [optimalP] in [0, 1] and an expectation
    other than [-Infinity]. *)
Theorem performCalculation_sweep_over_C
        (fuel : nat) (parameters : InputParameters) :
  isValid parameters = true -> (51 <= fuel)%nat ->
  let N := Qfloor (param_N parameters) in
  let A := Qfloor (param_A parameters) in
  let C := 2 * param_p parameters + param_r parameters in
  exists result chart,
    performCalculation fuel parameters = Calculated result chart /\
    (50 <= length (varyingCData chart) <= 51)%nat /\
    (exists first rest,
        varyingCData chart = first :: rest /\ vc_C first == sweep_minC C) /\
    (forall k d, (S k < length (varyingCData chart))%nat ->
                 vc_C (nth (S k) (varyingCData chart) d)
                 == vc_C (nth k (varyingCData chart) d) + sweep_stepC C) /\
    Forall (fun pt => varyingC_entry N A pt /\
                      sweep_minC C <= vc_C pt /\ vc_C pt <= sweep_maxC C /\
                      1 <= vc_optimalR pt /\
                      0 <= vc_optimalP pt /\ vc_optimalP pt <= 1 /\
                      exists e, vc_expectation pt = Finite e)
           (varyingCData chart).
Proof.
  intros Hvalid Hfuel.
  destruct (performCalculation_sweep_entries fuel parameters Hvalid Hfuel)
    as (result & chart & H & _ & _ & H1 & H2 & H3 & H4).
  exists result, chart. auto.
Qed.

Lemma performCalculation_sweep_over_C_witness :
  let parameters := mkParameters (3 # 10) 2 30 50 in
  (isValid parameters = true /\ (51 <= 51)%nat) /\
  exists result chart,
    performCalculation 51 parameters = Calculated result chart /\
    (50 <= length (varyingCData chart) <= 51)%nat /\
    (exists first rest,
        varyingCData chart = first :: rest /\
        vc_C first == sweep_minC (2 * (3 # 10) + 2)) /\
    (forall k d, (S k < length (varyingCData chart))%nat ->
                 vc_C (nth (S k) (varyingCData chart) d)
                 == vc_C (nth k (varyingCData chart) d)
                    + sweep_stepC (2 * (3 # 10) + 2)) /\
    Forall (fun pt => varyingC_entry 30 50 pt /\
                      sweep_minC (2 * (3 # 10) + 2) <= vc_C pt /\
                      vc_C pt <= sweep_maxC (2 * (3 # 10) + 2) /\
                      1 <= vc_optimalR pt /\
                      0 <= vc_optimalP pt /\ vc_optimalP pt <= 1 /\
                      exists e, vc_expectation pt = Finite e)
           (varyingCData chart).
Proof.
  intro parameters.
  assert (Hvalid : isValid parameters = true) by reflexivity.
  assert (Hfuel : (51 <= 51)%nat) by lia.
  split; [auto|].
  exact (performCalculation_sweep_over_C 51 parameters Hvalid Hfuel).
Defined.

(** X22. On valid parameters, the index that [ChartDisplay] computes for
    the marker of the optimum ([findClosestIndex] of the optimal [p] in the
    curve that [performCalculation] stored) is within the curve, and the
    point there is within one default step, 0.01, of the optimal [p]. *)
Theorem performCalculation_marker (fuel : nat) (parameters : InputParameters) :
  isValid parameters = true -> (51 <= fuel)%nat ->
  exists result chart,
    performCalculation fuel parameters = Calculated result chart /\
    let data := sensitivityData chart in
    let target := pt_p (optimalPoint chart) in
    (findClosestIndex data target < length data)%nat /\
    distance_at data target (findClosestIndex data target) <= default_step.
Proof.
  intros Hvalid Hfuel.
  apply (performCalculation_marker_near fuel parameters Hvalid Hfuel).
Qed.

Lemma performCalculation_marker_witness :
  let parameters := mkParameters (3 # 10) 2 30 50 in
  (isValid parameters = true /\ (51 <= 51)%nat) /\
  exists result chart,
    performCalculation 51 parameters = Calculated result chart /\
    let data := sensitivityData chart in
    let target := pt_p (optimalPoint chart) in
    (findClosestIndex data target < length data)%nat /\
    distance_at data target (findClosestIndex data target) <= default_step.
Proof.
  intro parameters.
  assert (Hvalid : isValid parameters = true) by reflexivity.
  assert (Hfuel : (51 <= 51)%nat) by lia.
  split; [auto|].
  exact (performCalculation_marker 51 parameters Hvalid Hfuel).
Defined.
